(** * hearing_profile: the tone/response core of [hearing_profiler.py]

    A shallow embedding of the parts of [HearingProfiler] that decide how
    tones are synthesised, laid out on a timeline, delivered by the audio
    callback, correlated with the listener's clicks and stored.

    Conventions of the embedding.
    - Python floats that are only compared, added and used as dictionary
      keys (times, gap durations, frequencies, intensities) are rationals
      [Q]: every finite float is a rational, and the arithmetic on them is
      taken exact.
    - Audio samples go through [sin] and [**]; they are real numbers [R].
    - A trial is a Python dict shared by [test_sequence] and by the
      ['test_data'] field of its event.  The trials live in one store (a
      list) and an event points into it with its index, so a write through
      the event is seen through the sequence.
    - Python dicts keep insertion order; [test_results[ear]] is an
      association list with float equality on keys.
    - Draws of [random] are inputs of the functions that use them.
    - Non-finite floats ([nan], [inf]) are outside the model. *)

From Stdlib Require Import List Bool Arith ZArith QArith Qround Qabs Lia.
From Stdlib Require Import Permutation Sorted.
From Stdlib Require Ascii String.
Import Ascii.AsciiSyntax String.StringSyntax.
Delimit Scope string_scope with string.
Delimit Scope char_scope with char.
Abbreviation string := String.string.
From Stdlib Require Import Reals Qreals Lra Lqa.
Import ListNotations.

Set Warnings "-register-all".

(** ** Data model *)

Inductive Ear : Type := EarLeft | EarRight.

Definition Ear_eqb (a b : Ear) : bool :=
  match a, b with
  | EarLeft, EarLeft | EarRight, EarRight => true
  | _, _ => false
  end.

(** A trial dict: [{'ear', 'frequency', 'intensity', 'heard'}];
    ['heard'] is [None], [True] or [False]. *)
Record Trial : Type := mkTrial {
  ear : Ear;
  frequency : Q;
  intensity : Q;
  heard : option bool
}.

(** A tone event: [{'start_time', 'end_time', 'test_index', 'test_data'}].
    ['test_data'] is the trial at [test_index] of the store. *)
Record Event : Type := mkEvent {
  start_time : Q;
  end_time : Q;
  test_index : nat
}.

(** One stored outcome: [{'intensity': ..., 'heard': ...}]. *)
Record ResultEntry : Type := mkEntry {
  r_intensity : Q;
  r_heard : bool
}.

(** [test_results[ear]]: frequency -> list of outcomes, in insertion order. *)
Definition FreqDict : Type := list (Q * list ResultEntry).

(** [test_results = {'left': {...}, 'right': {...}}]. *)
Record Results : Type := mkResults {
  res_left : FreqDict;
  res_right : FreqDict
}.

Definition empty_results : Results := mkResults [] [].

Definition results_ear (r : Results) (e : Ear) : FreqDict :=
  match e with EarLeft => res_left r | EarRight => res_right r end.

Definition results_set_ear (r : Results) (e : Ear) (d : FreqDict) : Results :=
  match e with
  | EarLeft => mkResults d (res_right r)
  | EarRight => mkResults (res_left r) d
  end.

(** ** Dictionary operations on [FreqDict] *)

(** [freq in d] *)
Fixpoint dict_mem (f : Q) (d : FreqDict) : bool :=
  match d with
  | [] => false
  | (k, _) :: rest => if Qeq_bool k f then true else dict_mem f rest
  end.

(** [d.get(freq, [])] *)
Fixpoint dict_get (f : Q) (d : FreqDict) : list ResultEntry :=
  match d with
  | [] => []
  | (k, v) :: rest => if Qeq_bool k f then v else dict_get f rest
  end.

(** [d[freq].append(entry)] for a key that is present. *)
Fixpoint dict_append (f : Q) (x : ResultEntry) (d : FreqDict) : FreqDict :=
  match d with
  | [] => []
  | (k, v) :: rest =>
      if Qeq_bool k f then (k, v ++ [x]) :: rest
      else (k, v) :: dict_append f x rest
  end.

(** The storing idiom shared by [tone_heard] and [finish_test]:
<<
    if freq not in self.test_results[ear]:
        self.test_results[ear][freq] = []
    self.test_results[ear][freq].append({'intensity': ..., 'heard': h})
>> *)
Definition store_result (r : Results) (t : Trial) (h : bool) : Results :=
  let d := results_ear r (ear t) in
  let d1 := if dict_mem (frequency t) d then d else d ++ [(frequency t, [])] in
  results_set_ear r (ear t)
    (dict_append (frequency t) (mkEntry (intensity t) h) d1).

(** What the store holds for [(ear, frequency)]. *)
Definition results_get (r : Results) (e : Ear) (f : Q) : list ResultEntry :=
  dict_get f (results_ear r e).

(** ** The trial store *)

(** [test_sequence[i]['heard'] = b] *)
Fixpoint set_heard (i : nat) (b : bool) (ts : list Trial) : list Trial :=
  match ts, i with
  | [], _ => []
  | t :: rest, O => mkTrial (ear t) (frequency t) (intensity t) (Some b) :: rest
  | t :: rest, S j => t :: set_heard j b rest
  end.

Definition mark (t : Trial) (b : bool) : Trial :=
  mkTrial (ear t) (frequency t) (intensity t) (Some b).

(** [event['test_data']] *)
Definition test_data (ts : list Trial) (ev : Event) : option Trial :=
  nth_error ts (test_index ev).

(** ** ResponseCorrelator: [tone_heard] *)

(** [event['start_time'] <= current_time <= event['end_time'] + 1.0] *)
Definition in_window (ev : Event) (t : Q) : bool :=
  Qle_bool (start_time ev) t && Qle_bool t (end_time ev + 1).

(** [event['test_data']['heard'] is None] *)
Definition pending (ts : list Trial) (ev : Event) : bool :=
  match test_data ts ev with
  | Some tr => match heard tr with None => true | Some _ => false end
  | None => false
  end.

Definition responds_to (ts : list Trial) (t : Q) (ev : Event) : bool :=
  in_window ev t && pending ts ev.

(** The [for event in self.tone_events: ... break] loop of [tone_heard]. *)
Fixpoint tone_heard_scan (events : list Event) (t : Q)
    (ts : list Trial) (r : Results) : list Trial * Results :=
  match events with
  | [] => (ts, r)
  | ev :: rest =>
      if responds_to ts t ev then
        match test_data ts ev with
        | Some tr => (set_heard (test_index ev) true ts, store_result r tr true)
        | None => (ts, r)
        end
      else tone_heard_scan rest t ts r
  end.

(** [tone_heard]: [now] is the value of [time.time()] at the click. *)
Definition tone_heard (events : list Event) (test_start_time now : Q)
    (ts : list Trial) (r : Results) : list Trial * Results :=
  tone_heard_scan events (now - test_start_time) ts r.

(** ** The end-of-test sweep of [finish_test] *)

(** The [for event in self.tone_events: if event['test_data']['heard'] is None]
    loop.  The store is threaded through the loop: a trial marked by an
    earlier event is seen as marked by a later event on the same trial. *)
Fixpoint finish_test_sweep (events : list Event)
    (ts : list Trial) (r : Results) : list Trial * Results :=
  match events with
  | [] => (ts, r)
  | ev :: rest =>
      match test_data ts ev with
      | Some tr =>
          match heard tr with
          | None =>
              finish_test_sweep rest
                (set_heard (test_index ev) false ts) (store_result r tr false)
          | Some _ => finish_test_sweep rest ts r
          end
      | None => finish_test_sweep rest ts r
      end
  end.

(** ** Configuration and numeric helpers *)

(** The options of [config.json] the core reads. *)
Record Config : Type := mkConfig {
  sample_rate : Z;
  tone_duration : Q;
  fade_duration : Q;
  min_gap : Q;
  max_gap : Q
}.

(** The defaults of [load_config]. *)
Definition default_config : Config :=
  mkConfig 44100 (33 # 100) (1 # 100) (75 # 100) (125 # 100).

(** Python's [int(x)] on a float: truncation toward zero. *)
Definition py_int (q : Q) : Z := Z.quot (Qnum q) (Zpos (Qden q)).

(** [int(self.sample_rate * duration_s)] *)
Definition sample_count (cfg : Config) (duration_s : Q) : Z :=
  py_int (inject_Z (sample_rate cfg) * duration_s).

(** [int(self.config['audio']['fade_duration'] * self.sample_rate)] *)
Definition fade_samples (cfg : Config) : Z :=
  py_int (fade_duration cfg * inject_Z (sample_rate cfg)).

(** [np.linspace(a, b, num)] for [num >= 0]: [num] points from [a] to [b],
    both ends included; a single point is [a]. *)
Definition linspace (a b : R) (num : nat) : list R :=
  map (fun k => if (num =? 1)%nat then a
                else (a + INR k * ((b - a) / INR (num - 1)))%R)
      (seq 0 num).

(** The fade envelope built in [generate_tone], [play_softest_tone] and
    [play_calibration_tone] for a buffer of [n] samples:
<<
    envelope = np.ones_like(t)
    if len(envelope) > 2 * fade_samples:
        envelope[:fade_samples] = np.linspace(0, 1, fade_samples)
        envelope[-fade_samples:] = np.linspace(1, 0, fade_samples)
>>
    [None] is a [ValueError] of numpy: a negative [fade_samples] is refused
    by [np.linspace], and with [fade_samples = 0] the slice [envelope[-0:]]
    is the whole array, into which the empty ramp does not broadcast. *)
Definition fade_envelope (n : nat) (fs : Z) : option (list R) :=
  if (2 * fs <? Z.of_nat n)%Z then
    if (fs <=? 0)%Z then None
    else
      let k := Z.to_nat fs in
      Some (linspace 0 1 k ++ repeat 1%R (n - 2 * k) ++ linspace 1 0 k)
  else Some (repeat 1%R n).

(** ** ToneSynthesizer: [generate_tone] *)

(** The amplitude law:
<<
    min_volume = max_volume * 0.01
    if intensity <= 0: actual_volume = 0
    else: actual_volume = min_volume * (max_volume / min_volume) ** intensity
>>
    [None] is the [ZeroDivisionError] of [max_volume / min_volume].  The
    power of a positive base is [Rpower]. *)
Definition actual_volume (max_volume intensity : R) : option R :=
  let min_volume := (max_volume * (1 / 100))%R in
  if Rle_dec intensity 0 then Some 0%R
  else if Req_dec_T min_volume 0 then None
  else Some (min_volume * Rpower (max_volume / min_volume) intensity)%R.

(** [actual_volume * np.sin(2 * np.pi * frequency * t) * envelope],
    element by element. *)
Definition sine_samples (volume freq : R) (t envelope : list R) : list R :=
  map (fun te => (volume * sin (2 * PI * freq * fst te) * snd te)%R)
      (combine t envelope).

(** [generate_tone(frequency, intensity, ear, duration_s)] with
    [max_volume = self.calibration_volume].  The [ear] argument is not
    used by the source.  [None] is an exception. *)
Definition generate_tone (cfg : Config) (calibration_volume : R)
    (freq intens : R) (duration_s : Q) : option (list R) :=
  let n := sample_count cfg duration_s in
  if (n <? 0)%Z then None
  else
    let t := linspace 0 (Q2R duration_s) (Z.to_nat n) in
    match fade_envelope (Z.to_nat n) (fade_samples cfg) with
    | None => None
    | Some envelope =>
        match actual_volume calibration_volume intens with
        | None => None
        | Some vol => Some (sine_samples vol freq t envelope)
        end
    end.


(** ** TestTimelineCompiler: [generate_test_audio_stream] *)

(** The loop state: [audio_data], [tone_events], [current_time]. *)
Record Timeline : Type := mkTimeline {
  audio_data : list R;
  tone_events : list Event;
  current_time : Q
}.

(** [len(tone) / self.sample_rate] *)
Definition samples_to_seconds (cfg : Config) (n : nat) : Q :=
  inject_Z (Z.of_nat n) / inject_Z (sample_rate cfg).

(** The [for i, test in enumerate(test_sequence)] loop.  [uniform i] is
    the value [random.uniform(self.min_gap, self.max_gap)] returns in turn
    [i].  [None] is an exception: [np.zeros] of a negative count, a failing
    [generate_tone], or the division by a zero sample rate. *)
Fixpoint stream_loop (cfg : Config) (calibration_volume : R)
    (uniform : nat -> Q) (i : nat) (tests : list Trial) (tl : Timeline)
    : option Timeline :=
  match tests with
  | [] => Some tl
  | test :: rest =>
      let gap_duration := uniform i in
      let gap_samples := py_int (gap_duration * inject_Z (sample_rate cfg)) in
      if (gap_samples <? 0)%Z then None
      else
        let audio1 := audio_data tl ++ repeat 0%R (Z.to_nat gap_samples) in
        let tone_start := current_time tl + gap_duration in
        match generate_tone cfg calibration_volume
                (Q2R (frequency test)) (Q2R (intensity test))
                (tone_duration cfg) with
        | None => None
        | Some tone =>
            if (sample_rate cfg =? 0)%Z then None
            else
              let tone_end :=
                tone_start + samples_to_seconds cfg (length tone) in
              stream_loop cfg calibration_volume uniform (S i) rest
                (mkTimeline (audio1 ++ tone)
                   (tone_events tl ++ [mkEvent tone_start tone_end i])
                   tone_end)
        end
  end.

(** [generate_test_audio_stream(test_sequence)]: the buffer and the events.
    The trailing silence is [int(2.0 * self.sample_rate)] samples. *)
Definition generate_test_audio_stream (cfg : Config) (calibration_volume : R)
    (uniform : nat -> Q) (test_sequence : list Trial)
    : option (list R * list Event) :=
  match stream_loop cfg calibration_volume uniform 0 test_sequence
          (mkTimeline [] [] 0) with
  | None => None
  | Some tl =>
      let final_gap := py_int (2 * inject_Z (sample_rate cfg)) in
      if (final_gap <? 0)%Z then None
      else Some (audio_data tl ++ repeat 0%R (Z.to_nat final_gap),
                 tone_events tl)
  end.

(** ** AudioStreamEngine: the playback cursor and [audio_callback] *)

Record Playback : Type := mkPlayback {
  current_tone : option (list R);
  audio_position : nat;
  is_playing_tone : bool;
  calibration_volume : R
}.

(** [tone[a:b]] for [0 <= a <= b]. *)
Definition slice (tone : list R) (a b : nat) : list R :=
  firstn (b - a) (skipn a tone).

(** [audio_callback(outdata, frames, time, status)]: column 0 of [outdata]
    after the call, and the cursor after the call.  [normal loc scale size]
    is what [np.random.normal(loc, scale, size)] returns in this call. *)
Definition audio_callback (normal : R -> R -> nat -> list R)
    (frames : nat) (p : Playback) : list R * Playback :=
  let idle :=
    (normal 0%R (1 / 1000)%R frames,
     mkPlayback (current_tone p) 0 (is_playing_tone p) (calibration_volume p)) in
  if is_playing_tone p then
    match current_tone p with
    | Some tone =>
        if (0 <? length tone)%nat then
          let end_pos := Nat.min (audio_position p + frames) (length tone) in
          if (audio_position p <? end_pos)%nat then
            let tone_frames := (end_pos - audio_position p)%nat in
            (map (fun x => (x * calibration_volume p)%R)
                 (slice tone (audio_position p) end_pos)
               ++ repeat 0%R (frames - tone_frames),
             mkPlayback (current_tone p) end_pos
               (if (length tone <=? end_pos)%nat then false else true)
               (calibration_volume p))
          else (repeat 0%R frames, p)
        else idle
    | None => idle
    end
  else idle.

(** [start_test_playback]: the compiled stream becomes the current buffer. *)
Definition start_test_playback (stream : list R) (p : Playback) : Playback :=
  mkPlayback (Some stream) 0 true (calibration_volume p).

(** [finish_test]: playback is stopped, then the unanswered trials are
    swept. *)
Definition finish_test (events : list Event) (p : Playback)
    (ts : list Trial) (r : Results) : Playback * list Trial * Results :=
  let (ts', r') := finish_test_sweep events ts r in
  (mkPlayback (current_tone p) (audio_position p) false (calibration_volume p),
   ts', r').

(** ** TestSequencePlanner: [create_test_sequence] *)

(** The nested loops over [['left', 'right']], the frequencies and the
    intensities. *)
Definition cross_product (frequencies intensities : list Q) : list Trial :=
  flat_map (fun e =>
    flat_map (fun freq =>
      map (fun i => mkTrial e freq i None) intensities) frequencies)
    [EarLeft; EarRight].

(** [create_test_sequence(mode)].  [np_log10] and [np_logspace] are numpy's
    functions, [shuffle] is the order [random.shuffle] leaves, and
    [frequency_bands], [intensity_levels] are the fields of the object used
    by the full mode. *)
Definition create_test_sequence
    (np_log10 : Q -> Q) (np_logspace : Q -> Q -> nat -> list Q)
    (shuffle : list Trial -> list Trial)
    (frequency_bands intensity_levels : list Q) (mode : string)
    : list Trial :=
  let frequencies :=
    if String.eqb mode "quick"%string
    then np_logspace (np_log10 250) (np_log10 8000) 8%nat
    else frequency_bands in
  let intensities :=
    if String.eqb mode "quick"%string
    then [2 # 10; 6 # 10; 1]
    else intensity_levels in
  shuffle (cross_product frequencies intensities).

(** ** ResultsStore: the results file, [save_results] and [load_results] *)

(** A JSON document as [json.load] returns it: [dict] (string keys, in
    order), [list], [str], number, [bool], [None]. *)
Inductive json : Type :=
| JNull
| JBool (b : bool)
| JNum (q : Q)
| JStr (s : string)
| JArr (l : list json)
| JObj (o : list (string * json)).

(** [obj[key]] on a [dict]; [None] is the [KeyError]. *)
Fixpoint obj_get (key : string) (o : list (string * json)) : option json :=
  match o with
  | [] => None
  | (k, v) :: rest => if String.eqb k key then Some v else obj_get key rest
  end.

(** [data[key]]: a [TypeError] or [KeyError] unless [data] is a [dict]
    holding [key]. *)
Definition json_item (data : json) (key : string) : option json :=
  match data with
  | JObj o => obj_get key o
  | _ => None
  end.

(** [data.get(key, default)] for a [dict] [data]. *)
Definition json_get_default (data : json) (key : string) (default : json)
    : json :=
  match json_item data key with
  | Some v => v
  | None => default
  end.

(** [{'intensity': ..., 'heard': ...}] *)
Definition entry_json (x : ResultEntry) : json :=
  JObj [("intensity"%string, JNum (r_intensity x));
        ("heard"%string, JBool (r_heard x))].

(** What [json.dump] writes for [test_results[ear]] and [json.load] reads
    back: a float key [k] is written as the string [float_repr k]. *)
Definition dict_json (float_repr : Q -> string) (d : FreqDict) : json :=
  JObj (map (fun kv => (float_repr (fst kv), JArr (map entry_json (snd kv)))) d).

Definition results_json (float_repr : Q -> string) (r : Results) : json :=
  JObj [("left"%string, dict_json float_repr (res_left r));
        ("right"%string, dict_json float_repr (res_right r))].

Definition dict_is_empty (d : FreqDict) : bool :=
  match d with [] => true | _ :: _ => false end.

(** [save_results]: the document found in the file afterwards, [None]
    when nothing is written (nothing to save, or the file dialog returned
    the empty name).  [float_repr] is [float.__repr__]; [timestamp] is
    [datetime.now().isoformat()].  The write itself is taken to succeed. *)
Definition save_results (float_repr : Q -> string) (timestamp : string)
    (volume : Q) (frequency_bands intensity_levels : list Q)
    (r : Results) (filename : string) : option json :=
  if dict_is_empty (res_left r) && dict_is_empty (res_right r) then None
  else if String.eqb filename ""%string then None
  else
    Some (JObj [("timestamp"%string, JStr timestamp);
                ("calibration_volume"%string, JNum volume);
                ("frequency_bands"%string, JArr (map JNum frequency_bands));
                ("intensity_levels"%string, JArr (map JNum intensity_levels));
                ("results"%string, results_json float_repr r)]).

(** [fixed_results[ear]]: float key -> the value as read. *)
Definition LoadedDict : Type := list (Q * json).

Record LoadedResults : Type := mkLoaded {
  lr_left : LoadedDict;
  lr_right : LoadedDict
}.

(** [d[freq_float] = values] *)
Fixpoint loaded_set (f : Q) (v : json) (d : LoadedDict) : LoadedDict :=
  match d with
  | [] => [(f, v)]
  | (k, w) :: rest =>
      if Qeq_bool k f then (k, v) :: rest else (k, w) :: loaded_set f v rest
  end.

(** The inner loop [for freq_str, values in results[ear].items()];
    [py_float] is [float(...)], [None] its [ValueError]. *)
Fixpoint convert_items (py_float : string -> option Q)
    (items : list (string * json)) (acc : LoadedDict) : option LoadedDict :=
  match items with
  | [] => Some acc
  | (freq_str, values) :: rest =>
      match py_float freq_str with
      | None => None
      | Some freq_float =>
          convert_items py_float rest (loaded_set freq_float values acc)
      end
  end.

(** [results[ear].items()] converted; [None] when [results[ear]] raises or
    is not a [dict]. *)
Definition convert_ear (py_float : string -> option Q) (results : json)
    (key : string) : option LoadedDict :=
  match json_item results key with
  | Some (JObj items) => convert_items py_float items []
  | _ => None
  end.

(** The conversion part of [load_results], from [data] to [fixed_results]. *)
Definition convert_results (py_float : string -> option Q) (data : json)
    : option LoadedResults :=
  match json_item data "results"%string with
  | None => None
  | Some results =>
      match convert_ear py_float results "left"%string with
      | None => None
      | Some l =>
          match convert_ear py_float results "right"%string with
          | None => None
          | Some r => Some (mkLoaded l r)
          end
      end
  end.

(** One element of [self.previous_results]. *)
Record PreviousResult : Type := mkPrevious {
  pr_timestamp : json;
  pr_calibration_volume : json;
  pr_results : LoadedResults;
  pr_filename : string
}.

(** The state [load_results] can see. *)
Record Session : Type := mkSession {
  test_results : Results;
  previous_results : list PreviousResult
}.

Inductive LoadOutcome : Type :=
| LoadCancelled
| Loaded
| LoadError.

(** [filename.split('/')[-1].split('\\')[-1]]: the part after the last
    slash or backslash. *)
Fixpoint basename_acc (s acc : string) : string :=
  match s with
  | String.EmptyString => acc
  | String.String c rest =>
      if (Ascii.eqb c "/" || Ascii.eqb c "\")%char%bool
      then basename_acc rest ""%string
      else basename_acc rest (String.append acc (String.String c ""%string))
  end.

Definition basename (filename : string) : string :=
  basename_acc filename ""%string.

(** [load_results].  [file] is what [open] and [json.load] give for the
    chosen name, [None] when either raises (missing file, malformed JSON).
    [plot_ok] tells whether [analyze_and_plot_results] returns normally on
    the state it is called in.  Every exception of the [try] block ends in
    the [showerror] of its handler. *)
Definition load_results (py_float : string -> option Q)
    (plot_ok : Session -> bool)
    (filename : string) (file : option json) (s : Session)
    : Session * LoadOutcome :=
  if String.eqb filename ""%string then (s, LoadCancelled)
  else
    match file with
    | None => (s, LoadError)
    | Some data =>
        match convert_results py_float data with
        | None => (s, LoadError)
        | Some fixed_results =>
            let previous_result :=
              mkPrevious
                (json_get_default data "timestamp"%string (JStr "Unknown"%string))
                (json_get_default data "calibration_volume"%string (JNum (1 # 2)))
                fixed_results (basename filename) in
            let s' :=
              mkSession (test_results s)
                (previous_results s ++ [previous_result]) in
            if plot_ok s' then (s', Loaded) else (s', LoadError)
        end
    end.

(** Reading the loaded values back as outcomes: a list of
    [{'intensity', 'heard'}] records. *)
Definition entry_of_json (j : json) : option ResultEntry :=
  match json_item j "intensity"%string, json_item j "heard"%string with
  | Some (JNum i), Some (JBool h) => Some (mkEntry i h)
  | _, _ => None
  end.

Fixpoint entries_of_list (l : list json) : option (list ResultEntry) :=
  match l with
  | [] => Some []
  | j :: rest =>
      match entry_of_json j, entries_of_list rest with
      | Some x, Some xs => Some (x :: xs)
      | _, _ => None
      end
  end.

Fixpoint freqdict_of_loaded (d : LoadedDict) : option FreqDict :=
  match d with
  | [] => Some []
  | (k, JArr l) :: rest =>
      match entries_of_list l, freqdict_of_loaded rest with
      | Some es, Some d' => Some ((k, es) :: d')
      | _, _ => None
      end
  | _ :: _ => None
  end.

(** The [(ear, frequency) -> [(intensity, heard)]] mapping of an overlay. *)
Definition results_of_loaded (l : LoadedResults) : option Results :=
  match freqdict_of_loaded (lr_left l), freqdict_of_loaded (lr_right l) with
  | Some a, Some b => Some (mkResults a b)
  | _, _ => None
  end.

(** ** Specification vocabulary and sample inputs *)

(** What the sweep does to one trial. *)
Definition sweep_trial (t : Trial) : Trial :=
  match heard t with
  | None => mark t false
  | Some _ => t
  end.

(** [trial['heard'] is None] *)
Definition unanswered (t : Trial) : bool :=
  match heard t with
  | None => true
  | Some _ => false
  end.

(** The trials of [(ear, frequency)] = [(e, f)]. *)
Definition keyed (e : Ear) (f : Q) (t : Trial) : bool :=
  Ear_eqb e (ear t) && Qeq_bool (frequency t) f.

(** When the fade envelope can be built: the ramp has at least one sample,
    or the buffer is too short to be faded. *)
Definition fade_ok (cfg : Config) (n : Z) : Prop :=
  (0 < fade_samples cfg \/ n <= 2 * fade_samples cfg)%Z.

(** The events recorded from turn [i] on, from cumulative time [c], when
    every tone has [N] samples. *)
Fixpoint expected_events (cfg : Config) (uniform : nat -> Q) (N : nat)
    (i : nat) (c : Q) (n : nat) : list Event :=
  match n with
  | O => []
  | S m =>
      let s := c + uniform i in
      let e := s + samples_to_seconds cfg N in
      mkEvent s e i :: expected_events cfg uniform N (S i) e m
  end.

(** The silence samples of the gaps of turns [i .. i+n-1]. *)
Fixpoint gap_samples_total (cfg : Config) (uniform : nat -> Q)
    (i n : nat) : nat :=
  match n with
  | O => 0
  | S m =>
      Z.to_nat (py_int (uniform i * inject_Z (sample_rate cfg)))
        + gap_samples_total cfg uniform (S i) m
  end.

(** The sum of the gap durations drawn in turns [i .. i+n-1]. *)
Fixpoint gap_total (uniform : nat -> Q) (i n : nat) : Q :=
  match n with
  | O => 0
  | S m => uniform i + gap_total uniform (S i) m
  end.

(** The sum of the tone durations of the events. *)
Fixpoint tone_total (events : list Event) : Q :=
  match events with
  | [] => 0
  | ev :: rest => (end_time ev - start_time ev) + tone_total rest
  end.

(** [len(buffer) / sample_rate] *)
Definition buffer_duration (cfg : Config) (audio : list R) : Q :=
  samples_to_seconds cfg (length audio).

(** The length of every test tone: [int(sample_rate * tone_duration)]. *)
Definition tone_samples (cfg : Config) : nat :=
  Z.to_nat (sample_count cfg (tone_duration cfg)).

(** The buffer duration is within one sample of [ideal]. *)
Definition within_one_sample (cfg : Config) (audio : list R) (ideal : Q)
    : Prop :=
  Qabs (buffer_duration cfg audio - ideal) <= samples_to_seconds cfg 1.

(** The sum the buffer duration is compared with: the drawn gaps, the
    tones, and the 2.0 seconds of trailing silence. *)
Definition ideal_duration (uniform : nat -> Q) (events : list Event)
    (n : nat) : Q :=
  gap_total uniform 0 n + tone_total events + 2.

(** Two full-intensity 1000 Hz trials, one per ear. *)
Definition two_trials : list Trial :=
  [mkTrial EarLeft 1000 1 None; mkTrial EarRight 1000 1 None].

(** Gaps that are always [1 + 2^-16] seconds: at 44100 Hz each gap is
    44100.67 samples and is cut to 44100. *)
Definition steady_gap (j : nat) : Q := 65537 # 65536.

(** The unit-amplitude tone: the sine shaped by the envelope. *)
Definition tone_shape (freq : R) (t envelope : list R) : list R :=
  map (fun te => (sin (2 * PI * freq * fst te) * snd te)%R)
      (combine t envelope).

(** The amplitude law in closed form. *)
Definition log_volume (calibration_volume intens : R) : R :=
  (calibration_volume * (1 / 100) * Rpower 100 intens)%R.

(** The [(ear, frequency, intensity)] tuple of a trial. *)
Definition trial_tuple (t : Trial) : Ear * Q * Q :=
  (ear t, frequency t, intensity t).

(** A dictionary holds each float key once. *)
Fixpoint keys_distinct (d : FreqDict) : bool :=
  match d with
  | [] => true
  | (k, _) :: rest => negb (dict_mem k rest) && keys_distinct rest
  end.

(** [freq in d] on a loaded dictionary. *)
Definition loaded_mem (f : Q) (d : LoadedDict) : bool :=
  existsb (fun kv => Qeq_bool (fst kv) f) d.

(** The loaded form of a store dictionary: same keys, the outcomes as
    JSON records. *)
Definition loaded_of_dict (d : FreqDict) : LoadedDict :=
  map (fun kv => (fst kv, JArr (map entry_json (snd kv)))) d.

(** The round trip of the store [r]: [save_results] writes a document,
    and [load_results] on that document appends an overlay whose mapping
    is [r]. *)
Definition round_trips (float_repr : Q -> string)
    (py_float : string -> option Q) (plot_ok : Session -> bool)
    (timestamp : string) (volume : Q) (bands levels : list Q)
    (save_name load_name : string) (r : Results) (s : Session) : Prop :=
  exists doc entry,
    save_results float_repr timestamp volume bands levels r save_name
      = Some doc /\
    previous_results
      (fst (load_results py_float plot_ok load_name (Some doc) s))
      = previous_results s ++ [entry] /\
    results_of_loaded (pr_results entry) = Some r.

(** [float.__repr__] and [float] on the two keys of the sample store. *)
Definition sample_repr (q : Q) : string :=
  if Qeq_bool q 1000 then "1000.0"%string else "250.0"%string.

(** [float] on the strings [sample_repr] produces. *)
Definition sample_float (s : string) : option Q :=
  if String.eqb s "1000.0"%string then Some 1000
  else if String.eqb s "250.0"%string then Some (250 # 1)
  else None.

(** One result per ear. *)
Definition sample_store : Results :=
  mkResults [(1000, [mkEntry 1 true])] [(250 # 1, [mkEntry (2 # 10) false])].

(** The session before any test or load. *)
Definition idle_session : Session := mkSession empty_results [].

(** A results file whose frequency key is not a number. *)
Definition bad_key_file : json :=
  JObj [("results"%string,
         JObj [("left"%string, JObj [("abc"%string, JArr [])]);
               ("right"%string, JObj [])])].

(** A results file that converts, with a value the plot cannot iterate. *)
Definition bad_value_file : json :=
  JObj [("results"%string,
         JObj [("left"%string, JObj [("1000.0"%string, JNum 5)]);
               ("right"%string, JObj [])])].

(** Two tones, at [1.0, 2.0] and [2.5, 3.5] seconds: their response
    windows [1.0, 3.0] and [2.5, 4.5] overlap. *)
Definition overlapping_events : list Event :=
  [mkEvent 1 2 0; mkEvent (25 # 10) (35 # 10) 1].

(** ** Playback over several callbacks, and the progress monitor *)

(** [n] successive invocations of [audio_callback] by the audio subsystem,
    each for [f] frames, the first one being call number [i]; [normal j] is
    numpy's normal draw in call [j].  The output columns are concatenated. *)
Fixpoint run_callbacks (normal : nat -> R -> R -> nat -> list R)
    (f i n : nat) (p : Playback) : list R * Playback :=
  match n with
  | O => ([], p)
  | S m =>
      let r1 := audio_callback (normal i) f p in
      let r2 := run_callbacks normal f (S i) m (snd r1) in
      (fst r1 ++ fst r2, snd r2)
  end.

(** One tick of [monitor_test_progress]: the test is finished, or it goes
    on and the progress label shows a percentage (when the stream is
    non-empty). *)
Inductive MonitorStep : Type :=
| TestFinished
| TestRunning (progress : option Q).

(** [monitor_test_progress]:
<<
    if not self.is_playing_tone: self.finish_test(); return
    if self.test_audio_stream is not None and len(self.test_audio_stream) > 0:
        progress = (self.audio_position / len(self.test_audio_stream)) * 100
>> *)
Definition monitor_test_progress (test_audio_stream : option (list R))
    (p : Playback) : MonitorStep :=
  if is_playing_tone p then
    match test_audio_stream with
    | Some stream =>
        if (0 <? length stream)%nat then
          TestRunning
            (Some (inject_Z (Z.of_nat (audio_position p))
                     / inject_Z (Z.of_nat (length stream)) * 100))
        else TestRunning None
    | None => TestRunning None
    end
  else TestFinished.

(** What holds of the cursor during a test: the stream stays the buffer,
    and while playback is active the position is short of its end. *)
Definition cursor_in_stream (stream : list R) (p : Playback) : Prop :=
  current_tone p = Some stream /\
  (is_playing_tone p = true -> (audio_position p < length stream)%nat).

(** ** A test run: clicks, then the sweep *)

(** The presses of the "I Heard It!" button during a test, in the order
    they arrive: [tone_heard] at each of the times [nows]. *)
Definition press_heard (events : list Event) (test_start_time : Q)
    (nows : list Q) (st : list Trial * Results) : list Trial * Results :=
  fold_left
    (fun st now => tone_heard events test_start_time now (fst st) (snd st))
    nows st.

(** [trial['heard'] is not None] *)
Definition resolved (t : Trial) : bool := negb (unanswered t).

(** The record a resolved trial stands for in the store:
    [{'intensity': trial['intensity'], 'heard': trial['heard']}]. *)
Definition entry_of (t : Trial) : ResultEntry :=
  mkEntry (intensity t) (match heard t with Some b => b | None => false end).

(** The store holds, under every [(ear, frequency)], one record for each
    resolved trial of that key and nothing else. *)
Definition store_matches (ts : list Trial) (r : Results) : Prop :=
  forall e f,
    Permutation (results_get r e f)
      (map entry_of (filter (fun t => keyed e f t && resolved t) ts)).

(** ** The softest tone *)

(** [play_softest_tone]: the buffer handed to [play_tone_async].  The tone
    comes from [generate_tone] at [test_volume = 0.1] for
    [cal_duration = 5.0] seconds, already faded, and is multiplied by a
    fade envelope once more:
<<
    tone = self.generate_tone(cal_freq, test_volume, 'both', cal_duration)
    envelope = np.ones_like(tone)
    ...
    tone = tone * envelope
>> *)
Definition play_softest_tone (cfg : Config) (volume cal_freq : R)
    : option (list R) :=
  match generate_tone cfg volume cal_freq (1 / 10) 5 with
  | None => None
  | Some tone =>
      match fade_envelope (length tone) (fade_samples cfg) with
      | None => None
      | Some envelope =>
          Some (map (fun xe => (fst xe * snd xe)%R) (combine tone envelope))
      end
  end.

(** ** Where the tones lie in the compiled stream *)

(** The index of the first sample of tone [k] in the stream: the gaps of
    turns [0 .. k] and the [k] tones before it. *)
Definition tone_offset (cfg : Config) (uniform : nat -> Q) (k : nat) : nat :=
  gap_samples_total cfg uniform 0 (S k) + k * tone_samples cfg.

(** ** Configuration file: [load_config], [save_config] *)

(** [d[key] = v] on a [dict]: the value of an existing key is replaced in
    place, a new key goes to the end. *)
Fixpoint obj_set (key : string) (v : json) (o : list (string * json))
    : list (string * json) :=
  match o with
  | [] => [(key, v)]
  | (k, w) :: rest =>
      if String.eqb k key then (k, v) :: rest
      else (k, w) :: obj_set key v rest
  end.

(** [p in s] on two strings: [p] occurs in [s]. *)
Fixpoint is_infix (p s : string) : bool :=
  String.prefix p s
  || match s with
     | String.EmptyString => false
     | String.String _ rest => is_infix p rest
     end.

(** [key in c] for a string [key]: membership of a key in a [dict], of an
    element in a [list], of a substring in a [str]; [None] is the
    [TypeError] on numbers, booleans and [None]. *)
Definition py_contains (key : string) (c : json) : option bool :=
  match c with
  | JObj o =>
      Some (match obj_get key o with Some _ => true | None => false end)
  | JArr l =>
      Some (existsb (fun x => match x with
                              | JStr s => String.eqb s key
                              | _ => false
                              end) l)
  | JStr s => Some (is_infix key s)
  | _ => None
  end.

(** [c[key] = v] for a string [key]: only a [dict] accepts it; [None] is
    the [TypeError]. *)
Definition py_setitem (key : string) (v : json) (c : json) : option json :=
  match c with
  | JObj o => Some (JObj (obj_set key v o))
  | _ => None
  end.

(** The inner loop of [load_config] on [config[section]]:
<<
    for key, value in values.items():
        if key not in config[section]:
            config[section][key] = value
>> *)
Fixpoint merge_keys (values : list (string * json)) (sec : json)
    : option json :=
  match values with
  | [] => Some sec
  | (key, value) :: rest =>
      match py_contains key sec with
      | None => None
      | Some true => merge_keys rest sec
      | Some false =>
          match py_setitem key value sec with
          | None => None
          | Some sec' => merge_keys rest sec'
          end
      end
  end.

(** The outer loop of [load_config]:
<<
    for section, values in default_config.items():
        if section not in config:
            config[section] = values
        else:
            (inner loop)
>>
    [config[section]] is mutated in place, so [config] holds the merged
    section afterwards.  [None] is an exception. *)
Fixpoint merge_sections (defaults : list (string * json)) (config : json)
    : option json :=
  match defaults with
  | [] => Some config
  | (section, values) :: rest =>
      match py_contains section config with
      | None => None
      | Some false =>
          match py_setitem section values config with
          | None => None
          | Some config' => merge_sections rest config'
          end
      | Some true =>
          match json_item config section, values with
          | Some sec, JObj vals =>
              match merge_keys vals sec with
              | None => None
              | Some sec' =>
                  match py_setitem section sec' config with
                  | None => None
                  | Some config' => merge_sections rest config'
                  end
              end
          | _, _ => None
          end
      end
  end.

(** [default_config] of [load_config]. *)
Definition default_sections : list (string * json) :=
  [("audio"%string,
    JObj [("sample_rate"%string, JNum 44100);
          ("tone_duration"%string, JNum (33 # 100));
          ("silence_duration"%string, JNum (3 # 10));
          ("fade_duration"%string, JNum (1 # 100))]);
   ("testing"%string,
    JObj [("frequency_bands"%string, JNum 15);
          ("min_frequency"%string, JNum 125);
          ("max_frequency"%string, JNum 16000);
          ("intensity_levels"%string,
           JArr [JNum (1 # 10); JNum (3 # 10); JNum (6 # 10); JNum 1]);
          ("randomize_order"%string, JBool true);
          ("inter_test_delay_range"%string,
           JArr [JNum (75 # 100); JNum (125 # 100)])]);
   ("calibration"%string,
    JObj [("default_volume"%string, JNum (1 # 2));
          ("calibration_frequency"%string, JNum 1000);
          ("calibration_intensity"%string, JNum (1 # 2))]);
   ("ui"%string,
    JObj [("window_size"%string, JStr "800x600"%string);
          ("show_frequency_during_test"%string, JBool false);
          ("auto_save_results"%string, JBool true)])].

Definition default_config_json : json := JObj default_sections.

(** What [load_config] finds on disk: no [config.json], a file that
    [open] or [json.load] rejects, or a document. *)
Inductive ConfigFile : Type :=
| NoFile
| BadFile
| FileData (config : json).

(** [load_config]: every exception of the [try] block ends in the
    defaults. *)
Definition load_config (file : ConfigFile) : json :=
  match file with
  | NoFile => default_config_json
  | BadFile => default_config_json
  | FileData config =>
      match merge_sections default_sections config with
      | Some merged => merged
      | None => default_config_json
      end
  end.

(** [config[section][key]], when both exist. *)
Definition config_lookup (config : json) (section key : string)
    : option json :=
  match json_item config section with
  | Some sec => json_item sec key
  | None => None
  end.

(** [save_config]: the document written to [config.json] (and the
    configuration held afterwards), after
    [self.config['calibration']['saved_volume'] = self.calibration_volume];
    [None] when that assignment raises, which [save_config] does not
    catch. *)
Definition save_config (config : json) (volume : Q) : option json :=
  match json_item config "calibration"%string with
  | Some cal =>
      match py_setitem "saved_volume"%string (JNum volume) cal with
      | Some cal' => py_setitem "calibration"%string cal' config
      | None => None
      end
  | None => None
  end.

(** The calibration volume [__init__] starts with:
<<
    self.config['calibration'].get('saved_volume',
                                   self.config['calibration']['default_volume'])
>>
    [None] is an exception. *)
Definition init_calibration_volume (config : json) : option json :=
  match json_item config "calibration"%string with
  | Some (JObj cal) =>
      match obj_get "default_volume"%string cal with
      | None => None
      | Some d =>
          Some (match obj_get "saved_volume"%string cal with
                | Some v => v
                | None => d
                end)
      end
  | _ => None
  end.

(** The sections of [config] that the defaults name are [dict]s. *)
Definition sections_are_dicts (defaults o : list (string * json)) : Prop :=
  forall s vals v,
    In (s, vals) defaults -> obj_get s o = Some v -> exists so, v = JObj so.

(** The defaults are [dict]s, one per section name. *)
Definition defaults_ok (defaults : list (string * json)) : Prop :=
  NoDup (map fst defaults) /\
  forall s vals, In (s, vals) defaults -> exists l, vals = JObj l.

(** A number, a boolean or [None]: neither a container nor assignable. *)
Definition json_scalar (v : json) : Prop :=
  match v with
  | JNull | JBool _ | JNum _ => True
  | _ => False
  end.

(** [sec] answers [key in sec] with [True] for every default key. *)
Definition has_all_keys (vals : list (string * json)) (sec : json) : Prop :=
  forall key value, In (key, value) vals -> py_contains key sec = Some true.

(** ** The single-shot CLI: [cli_tone_test.py] *)

(** What [argparse] hands to [main] for an argument of [type=float]:
    [float()] reads a decimal number, and also ["nan"], ["inf"] and
    ["-inf"]. *)
Inductive ArgFloat : Type :=
| Finite (q : Q)
| PosInf
| NegInf
| NaN.

(** [x < bound] and [x > bound] on floats: every comparison with [nan] is
    false. *)
Definition arg_lt (x : ArgFloat) (bound : Q) : bool :=
  match x with
  | Finite q => negb (Qle_bool bound q)
  | NegInf => true
  | PosInf | NaN => false
  end.

Definition arg_gt (x : ArgFloat) (bound : Q) : bool :=
  match x with
  | Finite q => negb (Qle_bool q bound)
  | PosInf => true
  | NegInf | NaN => false
  end.

(** One line of the list [validate_parameters] returns; the message is
    determined by the parameter and the value it quotes. *)
Inductive ParamError : Type :=
| FrequencyOutOfRange (frequency : ArgFloat)
| IntensityOutOfRange (intensity : ArgFloat)
| DurationOutOfRange (duration : ArgFloat)
| EarInvalid (ear : string)
| MaxVolumeOutOfRange (max_volume : ArgFloat).

(** [x < lo or x > hi] *)
Definition out_of_range (x : ArgFloat) (lo hi : Q) : bool :=
  arg_lt x lo || arg_gt x hi.

(** [validate_parameters(frequency, intensity, duration, ear, max_volume)] *)
Definition validate_parameters (frequency intens duration : ArgFloat)
    (ear_name : string) (max_volume : ArgFloat) : list ParamError :=
  (if out_of_range frequency 20 20000
   then [FrequencyOutOfRange frequency] else [])
  ++ (if out_of_range intens 0 1 then [IntensityOutOfRange intens] else [])
  ++ (if out_of_range duration (1 # 10) 10
      then [DurationOutOfRange duration] else [])
  ++ (if String.eqb ear_name "left"%string
         || String.eqb ear_name "right"%string
         || String.eqb ear_name "both"%string
      then [] else [EarInvalid ear_name])
  ++ (if out_of_range max_volume 0 1
      then [MaxVolumeOutOfRange max_volume] else []).

(** [ToneGenerator.sample_rate] *)
Definition cli_sample_rate : Z := 44100.

(** [ToneGenerator.generate_tone(frequency, intensity, duration,
    max_volume)]: the sample rate is fixed, the fade is
    [int(0.01 * self.sample_rate)] samples, and [max_volume] stands where
    the main application has the calibration volume.  [None] is an
    exception. *)
Definition cli_generate_tone (freq intens : R) (duration : Q)
    (max_volume : R) : option (list R) :=
  let n := py_int (inject_Z cli_sample_rate * duration) in
  if (n <? 0)%Z then None
  else
    let t := linspace 0 (Q2R duration) (Z.to_nat n) in
    let fs := py_int ((1 # 100) * inject_Z cli_sample_rate) in
    match fade_envelope (Z.to_nat n) fs with
    | None => None
    | Some envelope =>
        match actual_volume max_volume intens with
        | None => None
        | Some vol => Some (sine_samples vol freq t envelope)
        end
    end.

(** The two-column array [play_tone] hands to [sd.play]:
    [np.column_stack] of the tone and zeros according to [ear]; any name
    other than ['left'] and ['right'] takes the last branch. *)
Definition stereo_data (ear_name : string) (tone_data : list R)
    : list (R * R) :=
  if String.eqb ear_name "left"%string
  then map (fun x => (x, 0%R)) tone_data
  else if String.eqb ear_name "right"%string
  then map (fun x => (0%R, x)) tone_data
  else map (fun x => (x, x)) tone_data.

(** How [main] ends once the arguments are parsed: the errors are printed
    and nothing is played; the tone is played; or an exception of the
    generator is reported and the process exits with status 1. *)
Inductive CliOutcome : Type :=
| CliRejected (errors : list ParamError)
| CliPlayed (stereo : list (R * R))
| CliFailed.

(** [main()] after [parse_args], on finite arguments: validation, then
    [play_tone]. *)
Definition cli_main (frequency intens duration : Q) (ear_name : string)
    (max_volume : Q) : CliOutcome :=
  match validate_parameters (Finite frequency) (Finite intens)
          (Finite duration) ear_name (Finite max_volume) with
  | error :: more => CliRejected (error :: more)
  | [] =>
      match cli_generate_tone (Q2R frequency) (Q2R intens) duration
              (Q2R max_volume) with
      | None => CliFailed
      | Some tone_data => CliPlayed (stereo_data ear_name tone_data)
      end
  end.

(** An argument that no range check reports: a number within the bounds,
    or [nan]. *)
Definition in_range_or_nan (x : ArgFloat) (lo hi : Q) : Prop :=
  x = NaN \/ exists q, x = Finite q /\ lo <= q /\ q <= hi.

(** The documented ranges of the five parameters. *)
Definition parameters_in_range (frequency intens duration : Q)
    (ear_name : string) (max_volume : Q) : Prop :=
  (20 <= frequency /\ frequency <= 20000) /\
  (0 <= intens /\ intens <= 1) /\
  ((1 # 10) <= duration /\ duration <= 10) /\
  (ear_name = "left"%string \/ ear_name = "right"%string
   \/ ear_name = "both"%string) /\
  (0 <= max_volume /\ max_volume <= 1).

(** ** Analysis of results: [hearing_analyser.py] *)

(** [[r['intensity'] for r in results if r['heard']]] *)
Definition heard_intensities (results : list ResultEntry) : list Q :=
  map r_intensity (filter r_heard results).

(** Python's [min] of a non-empty list [x :: l]: the first smallest
    element. *)
Fixpoint py_min (x : Q) (l : list Q) : Q :=
  match l with
  | [] => x
  | y :: rest => py_min (if Qle_bool x y then x else y) rest
  end.

(** [np.log10] on a positive number. *)
Definition log10 (x : R) : R := (ln x / ln 10)%R.

(** [HearingAnalyser.calculate_hearing_threshold]:
<<
    if not heard_intensities: return 60
    min_heard = min(heard_intensities)
    threshold_db = -20 * np.log10(min_heard)
    return max(0, threshold_db)
>>
    [None] stands for the non-finite results of [np.log10] on zero or a
    negative number. *)
Definition calculate_hearing_threshold (results : list ResultEntry)
    : option R :=
  match heard_intensities results with
  | [] => Some 60%R
  | x :: rest =>
      let min_heard := py_min x rest in
      if Qle_bool min_heard 0 then None
      else Some (Rmax 0 (-20 * log10 (Q2R min_heard)))
  end.

(** The threshold [HearingProfiler.analyze_and_plot_results] plots for
    one frequency: the same computation without the clamp at 0. *)
Definition plot_threshold (results : list ResultEntry) : option R :=
  match heard_intensities results with
  | [] => Some 60%R
  | x :: rest =>
      let min_heard := py_min x rest in
      if Qle_bool min_heard 0 then None
      else Some (-20 * log10 (Q2R min_heard))%R
  end.

(** [np.mean]: [None] is the [nan] numpy returns for an empty list. *)
Definition np_mean (l : list R) : option R :=
  match l with
  | [] => None
  | _ :: _ => Some (fold_right Rplus 0%R l / INR (length l))%R
  end.

(** [classify_hearing_loss]: every comparison with [nan] is false, so an
    empty list falls to the last branch. *)
Definition classify_hearing_loss (thresholds : list R) : string :=
  match np_mean thresholds with
  | None => "Profound hearing loss"%string
  | Some avg_threshold =>
      if Rle_dec avg_threshold 15 then "Normal hearing"%string
      else if Rle_dec avg_threshold 25 then "Mild hearing loss"%string
      else if Rle_dec avg_threshold 40 then "Moderate hearing loss"%string
      else if Rle_dec avg_threshold 70 then "Severe hearing loss"%string
      else "Profound hearing loss"%string
  end.

(** The thresholds [analyse_hearing_profile] computes for one ear, from
    the per-frequency results in the order of the sorted frequencies. *)
Fixpoint ear_thresholds (per_frequency : list (list ResultEntry))
    : option (list R) :=
  match per_frequency with
  | [] => Some []
  | results :: rest =>
      match calculate_hearing_threshold results, ear_thresholds rest with
      | Some t, Some ts => Some (t :: ts)
      | _, _ => None
      end
  end.

(** [compare_ears] on the two [average_threshold] values: the asymmetry
    label and the better ear.  With a [nan] average every comparison is
    false. *)
Definition compare_ears (left_avg right_avg : option R) : string * string :=
  match left_avg, right_avg with
  | Some l, Some r =>
      let difference := Rabs (l - r) in
      (if Rlt_dec difference 5 then "symmetrical"%string
       else if Rlt_dec difference 15 then "mild asymmetry"%string
       else "significant asymmetry"%string,
       if Rlt_dec l r then "left"%string else "right"%string)
  | _, _ => ("significant asymmetry"%string, "right"%string)
  end.

(** Python's [min(l, key=key)] on a non-empty list [x :: l]: the first
    element with the smallest key. *)
Fixpoint py_min_by {A : Type} (key : A -> Q) (x : A) (l : list A) : A :=
  match l with
  | [] => x
  | y :: rest => py_min_by key (if Qle_bool (key x) (key y) then x else y) rest
  end.

(** [sorted(self.age_hearing_norms.keys())] *)
Definition age_groups : list Z := [20; 30; 40; 50; 60; 70]%Z.

(** [closest_age = min(age_groups, key=lambda x: abs(x - age))] *)
Definition closest_age (age : Z) : Z :=
  py_min_by (fun x => inject_Z (Z.abs (x - age))) 20%Z
    [30; 40; 50; 60; 70]%Z.









(** [[i for i, f in enumerate(numeric_frequencies) if f >= 4000]], counting
    from [i]. *)
Fixpoint high_freq_indices_from (i : nat) (frequencies : list Q)
    : list nat :=
  match frequencies with
  | [] => []
  | f :: rest =>
      (if Qle_bool 4000 f then [i] else [])
      ++ high_freq_indices_from (S i) rest
  end.

Definition high_freq_indices (frequencies : list Q) : list nat :=
  high_freq_indices_from 0 frequencies.

(** [[thresholds[i] for i in high_freq_indices]]; [None] is the
    [IndexError] of an index past the end. *)
Fixpoint take_indices (thresholds : list R) (indices : list nat)
    : option (list R) :=
  match indices with
  | [] => Some []
  | i :: rest =>
      match nth_error thresholds i, take_indices thresholds rest with
      | Some t, Some ts => Some (t :: ts)
      | _, _ => None
      end
  end.

(** [assess_high_frequency_loss(frequencies, thresholds)]: the
    ['severity'] of the result.  The mean is taken over a non-empty list
    here; the [nan] branch follows the comparisons, all false. *)
Definition assess_high_frequency_loss (frequencies : list Q)
    (thresholds : list R) : option string :=
  match high_freq_indices frequencies with
  | [] => Some "unknown"%string
  | i :: rest =>
      match take_indices thresholds (i :: rest) with
      | None => None
      | Some high_freq_thresholds =>
          match np_mean high_freq_thresholds with
          | None => Some "severe"%string
          | Some avg_high_freq_loss =>
              Some (if Rlt_dec avg_high_freq_loss 15 then "normal"%string
                    else if Rlt_dec avg_high_freq_loss 25 then "mild"%string
                    else if Rlt_dec avg_high_freq_loss 40
                    then "moderate"%string
                    else "severe"%string)
          end
      end
  end.

(** ** The overlay pass of [analyze_and_plot_results] *)

(** Python's truth value of a loaded JSON value. *)
Definition py_truthy (j : json) : bool :=
  match j with
  | JNull => false
  | JBool b => b
  | JNum q => negb (Qeq_bool q 0)
  | JStr s => negb (String.eqb s ""%string)
  | JArr l => match l with [] => false | _ :: _ => true end
  | JObj o => match o with [] => false | _ :: _ => true end
  end.

(** The values [for r in results] visits: the elements of a list, the keys
    of a [dict], the characters of a [str]; [None] is the [TypeError] of a
    value that is not iterable (a number, a boolean, [None]). *)
Definition py_iter (results : json) : option (list json) :=
  match results with
  | JArr l => Some l
  | JObj o => Some (map (fun kv => JStr (fst kv)) o)
  | JStr s =>
      Some (map (fun c => JStr (String.String c ""%string))
              (String.list_ascii_of_string s))
  | JNull | JBool _ | JNum _ => None
  end.

(** [[r['intensity'] for r in results if r['heard']]] over the visited
    values; [None] when a subscript raises ([r] is not a [dict], or lacks
    the key). *)
Fixpoint heard_intensities_of (visited : list json) : option (list json) :=
  match visited with
  | [] => Some []
  | r :: rest =>
      match json_item r "heard"%string with
      | None => None
      | Some h =>
          if py_truthy h then
            match json_item r "intensity"%string,
                  heard_intensities_of rest with
            | Some i, Some more => Some (i :: more)
            | _, _ => None
            end
          else heard_intensities_of rest
      end
  end.

(** The list comprehension of the overlay pass on one loaded value
    [prev_data[ear][freq]]. *)
Definition overlay_heard_intensities (results : json)
    : option (list json) :=
  match py_iter results with
  | None => None
  | Some visited => heard_intensities_of visited
  end.

(** The comprehensions [analyze_and_plot_results] evaluates over one
    overlay, for both ears: [false] when one of them raises. *)
Definition overlay_readable (prev_result : PreviousResult) : bool :=
  forallb
    (fun kv =>
       match overlay_heard_intensities (snd kv) with
       | Some _ => true
       | None => false
       end)
    (lr_left (pr_results prev_result) ++ lr_right (pr_results prev_result)).

(** The same over every element of [self.previous_results].  When this is
    [false], [analyze_and_plot_results] raises; nothing in its body
    catches the exception of a comprehension. *)
Definition overlays_readable (s : Session) : bool :=
  forallb overlay_readable (previous_results s).

(** * Properties *)

(** Linear arithmetic over the reals; plain [lra] is the one over the
    rationals. *)
Ltac rlra := Lra.lra.

(** ** Float keys and the dictionary operations *)

Lemma Qeq_bool_sym (a b : Q) : Qeq_bool a b = Qeq_bool b a.
Proof.
  destruct (Qeq_bool a b) eqn:E1, (Qeq_bool b a) eqn:E2; auto.
  - apply Qeq_bool_iff in E1. symmetry in E1. apply Qeq_bool_iff in E1. congruence.
  - apply Qeq_bool_iff in E2. symmetry in E2. apply Qeq_bool_iff in E2. congruence.
Qed.

Lemma Qeq_bool_congr_l (a b c : Q) :
  Qeq_bool a b = true -> Qeq_bool a c = Qeq_bool b c.
Proof.
  intros H. apply Qeq_bool_iff in H.
  destruct (Qeq_bool a c) eqn:E1, (Qeq_bool b c) eqn:E2; auto.
  - apply Qeq_bool_iff in E1. rewrite H in E1. apply Qeq_bool_iff in E1. congruence.
  - apply Qeq_bool_iff in E2. rewrite <- H in E2. apply Qeq_bool_iff in E2. congruence.
Qed.

Lemma Qeq_bool_congr_r (a b c : Q) :
  Qeq_bool a b = true -> Qeq_bool c a = Qeq_bool c b.
Proof.
  intros H. rewrite (Qeq_bool_sym c a), (Qeq_bool_sym c b).
  now apply Qeq_bool_congr_l.
Qed.

Lemma Qeq_bool_refl (a : Q) : Qeq_bool a a = true.
Proof. apply Qeq_bool_iff. reflexivity. Qed.

Lemma dict_mem_app_new (k f : Q) (d : FreqDict) :
  dict_mem f (d ++ [(k, [])]) = dict_mem f d || Qeq_bool k f.
Proof.
  induction d as [|[k' v] d IH]; simpl.
  - now destruct (Qeq_bool k f).
  - now destruct (Qeq_bool k' f).
Qed.

Lemma dict_get_app_new (k f : Q) (d : FreqDict) :
  dict_get f (d ++ [(k, [])]) = dict_get f d.
Proof.
  induction d as [|[k' v] d IH]; simpl.
  - now destruct (Qeq_bool k f).
  - now destruct (Qeq_bool k' f).
Qed.

Lemma dict_get_append (k f : Q) (x : ResultEntry) (d : FreqDict) :
  dict_mem k d = true ->
  dict_get f (dict_append k x d) =
    if Qeq_bool k f then dict_get f d ++ [x] else dict_get f d.
Proof.
  induction d as [|[k' v] d IH]; simpl; [discriminate|].
  destruct (Qeq_bool k' k) eqn:Ek; intros Hm; simpl.
  - rewrite (Qeq_bool_congr_l _ _ f Ek). now destruct (Qeq_bool k f).
  - destruct (Qeq_bool k' f) eqn:Ef.
    + destruct (Qeq_bool k f) eqn:Ekf; auto.
      exfalso.
      apply Qeq_bool_iff in Ekf. apply Qeq_bool_iff in Ef.
      assert (E : Qeq_bool k' k = true)
        by (apply Qeq_bool_iff; rewrite Ekf; exact Ef).
      congruence.
    + now apply IH.
Qed.

(** The store after [store_result], read back per [(ear, frequency)]. *)
Lemma results_get_store (r : Results) (t : Trial) (h : bool) (e : Ear) (f : Q) :
  results_get (store_result r t h) e f =
    if Ear_eqb e (ear t) && Qeq_bool (frequency t) f
    then results_get r e f ++ [mkEntry (intensity t) h]
    else results_get r e f.
Proof.
  unfold results_get, store_result.
  set (d := results_ear r (ear t)).
  set (d1 := if dict_mem (frequency t) d then d else d ++ [(frequency t, [])]).
  assert (Hm : dict_mem (frequency t) d1 = true).
  { unfold d1. destruct (dict_mem (frequency t) d) eqn:E; auto.
    rewrite dict_mem_app_new, Qeq_bool_refl. apply orb_true_r. }
  assert (Hg : forall g, dict_get g d1 = dict_get g d).
  { intros g. unfold d1. destruct (dict_mem (frequency t) d); auto.
    apply dict_get_app_new. }
  destruct e, (ear t) eqn:Et; simpl; auto;
    rewrite dict_get_append by exact Hm; rewrite Hg; reflexivity.
Qed.

(** ** The trial store *)

Lemma set_heard_length (i : nat) (b : bool) (ts : list Trial) :
  length (set_heard i b ts) = length ts.
Proof.
  revert i; induction ts as [|t ts IH]; intros [|i]; simpl; auto.
Qed.

Lemma set_heard_same (i : nat) (b : bool) (ts : list Trial) (tr : Trial) :
  nth_error ts i = Some tr ->
  nth_error (set_heard i b ts) i = Some (mark tr b).
Proof.
  revert i; induction ts as [|t ts IH]; intros [|i]; simpl; try discriminate.
  - intros [= ->]. reflexivity.
  - apply IH.
Qed.

Lemma set_heard_other (i j : nat) (b : bool) (ts : list Trial) :
  j <> i -> nth_error (set_heard i b ts) j = nth_error ts j.
Proof.
  revert i j; induction ts as [|t ts IH]; intros [|i] [|j] H; simpl; auto.
  congruence.
Qed.

Lemma in_window_iff (ev : Event) (t : Q) :
  in_window ev t = true <-> start_time ev <= t /\ t <= end_time ev + 1.
Proof.
  unfold in_window. rewrite andb_true_iff, !Qle_bool_iff. tauto.
Qed.

Lemma pending_iff (ts : list Trial) (ev : Event) :
  pending ts ev = true <->
  exists tr, test_data ts ev = Some tr /\ heard tr = None.
Proof.
  unfold pending. destruct (test_data ts ev) as [tr|].
  - destruct (heard tr) eqn:E; split.
    + discriminate.
    + intros (tr' & [= <-] & H). congruence.
    + eauto.
    + auto.
  - split; [discriminate|]. intros (tr & H & _). discriminate.
Qed.

Lemma StronglySorted_after {A : Type} (R : A -> A -> Prop)
    (pre : list A) (x : A) (post : list A) :
  StronglySorted R (pre ++ x :: post) -> Forall (R x) post.
Proof.
  induction pre as [|a pre IH]; simpl; intros H.
  - now apply StronglySorted_inv in H.
  - apply StronglySorted_inv in H. now apply IH.
Qed.

(** ** ResponseCorrelator *)

(** What one scan does: it stops at the first responding event. *)
Lemma tone_heard_scan_spec (events : list Event) (t : Q)
    (ts : list Trial) (r : Results) :
  (exists pre ev post tr,
      events = pre ++ ev :: post /\
      Forall (fun e => responds_to ts t e = false) pre /\
      responds_to ts t ev = true /\
      test_data ts ev = Some tr /\
      tone_heard_scan events t ts r =
        (set_heard (test_index ev) true ts, store_result r tr true))
  \/ (Forall (fun e => responds_to ts t e = false) events /\
      tone_heard_scan events t ts r = (ts, r)).
Proof.
  induction events as [|ev rest IH]; simpl.
  - right. split; [constructor | reflexivity].
  - destruct (responds_to ts t ev) eqn:E.
    + left. pose proof E as E'. unfold responds_to in E'.
      apply andb_true_iff in E'. destruct E' as [_ Hp].
      apply pending_iff in Hp. destruct Hp as (tr & Htr & _).
      exists [], ev, rest, tr. rewrite Htr. repeat split; auto.
    + destruct IH as [(pre & ev' & post & tr & -> & Hpre & Hev & Htr & Hres)
                     | [Hall Hres]].
      * left. exists (ev :: pre), ev', post, tr. repeat split; auto.
      * right. split; auto.
Qed.

(** C1. One "I Heard It!" call computes [elapsed = now - test_start_time]
    and scans the events in list order.  Either some event responds, and
    then the call resolves the first one [ev] of the list that is pending
    with [elapsed] in [[start_time, end_time + 1.0]]: its trial gets
    [heard = True], every other trial is untouched, and
    [(intensity, True)] is appended to the store entry of the trial's
    [(ear, frequency)] while every other entry is unchanged; on a list
    sorted by [start_time], [ev] has the least [start_time] among the
    responding events.  Or no pending event's window contains [elapsed],
    and neither the trials nor the store change. *)
Theorem tone_heard_resolves_first_pending
    (events : list Event) (test_start_time now : Q)
    (ts : list Trial) (r : Results) :
  let elapsed := now - test_start_time in
  let ts' := fst (tone_heard events test_start_time now ts r) in
  let r' := snd (tone_heard events test_start_time now ts r) in
  (exists pre ev post tr,
      events = pre ++ ev :: post /\
      Forall (fun e => responds_to ts elapsed e = false) pre /\
      test_data ts ev = Some tr /\ heard tr = None /\
      start_time ev <= elapsed /\ elapsed <= end_time ev + 1 /\
      nth_error ts' (test_index ev) = Some (mark tr true) /\
      (forall j, j <> test_index ev -> nth_error ts' j = nth_error ts j) /\
      length ts' = length ts /\
      (forall e f,
          results_get r' e f =
            if Ear_eqb e (ear tr) && Qeq_bool (frequency tr) f
            then results_get r e f ++ [mkEntry (intensity tr) true]
            else results_get r e f) /\
      (StronglySorted (fun a b => start_time a < start_time b) events ->
       forall e, In e events -> responds_to ts elapsed e = true ->
                 start_time ev <= start_time e))
  \/ (Forall (fun e => responds_to ts elapsed e = false) events /\
      ts' = ts /\ r' = r).
Proof.
  intros elapsed ts' r'. subst ts' r'. unfold tone_heard. fold elapsed.
  destruct (tone_heard_scan_spec events elapsed ts r)
    as [(pre & ev & post & tr & Hev & Hpre & Hresp & Htr & Hres) | [Hall Hres]].
  - left. exists pre, ev, post, tr. rewrite Hres. simpl.
    unfold responds_to in Hresp. apply andb_true_iff in Hresp.
    destruct Hresp as [Hw Hp].
    apply in_window_iff in Hw. destruct Hw as [Hlo Hhi].
    apply pending_iff in Hp. destruct Hp as (tr' & Htr' & Hnone).
    assert (tr' = tr) by congruence. subst tr'.
    repeat split; auto.
    + now apply set_heard_same.
    + intros j Hj. now apply set_heard_other.
    + apply set_heard_length.
    + intros e f. apply results_get_store.
    + intros Hsorted e Hin Hr. subst events.
      apply in_app_or in Hin. destruct Hin as [Hin | [<- | Hin]].
      * rewrite Forall_forall in Hpre. rewrite (Hpre e Hin) in Hr. discriminate.
      * apply Qle_refl.
      * apply StronglySorted_after in Hsorted.
        rewrite Forall_forall in Hsorted. apply Qlt_le_weak. now apply Hsorted.
  - right. rewrite Hres. auto.
Qed.

(** ** The end-of-test sweep *)

Lemma set_heard_middle (b : bool) (done : list Trial) (t : Trial)
    (todo : list Trial) :
  set_heard (length done) b (done ++ t :: todo) = done ++ mark t b :: todo.
Proof.
  induction done as [|d done IH]; simpl; [reflexivity|]. now rewrite IH.
Qed.

Lemma finish_test_sweep_seq (events : list Event) (done todo : list Trial)
    (r : Results) :
  map test_index events = seq (length done) (length todo) ->
  finish_test_sweep events (done ++ todo) r =
    (done ++ map sweep_trial todo,
     fold_left (fun acc t => store_result acc t false)
       (filter unanswered todo) r).
Proof.
  revert events done r.
  induction todo as [|t todo IH]; intros [|ev events] done r; simpl;
    try discriminate; try reflexivity.
  intros [= Hidx Hrest].
  unfold test_data. rewrite Hidx, nth_error_app2, Nat.sub_diag by lia. simpl.
  assert (Hshift : forall t', done ++ t' :: todo = (done ++ [t']) ++ todo)
    by (intros; now rewrite <- app_assoc).
  unfold sweep_trial at 1, unanswered at 1.
  destruct (heard t) eqn:Eh.
  - rewrite (Hshift t), IH by (rewrite length_app; simpl; now rewrite Nat.add_1_r).
    now rewrite <- app_assoc.
  - rewrite set_heard_middle. simpl.
    rewrite (Hshift (mark t false)), IH
      by (rewrite length_app; simpl; now rewrite Nat.add_1_r).
    now rewrite <- app_assoc.
Qed.

Lemma results_get_fold_store (h : bool) (l : list Trial) (r : Results)
    (e : Ear) (f : Q) :
  results_get (fold_left (fun acc t => store_result acc t h) l r) e f =
    results_get r e f
      ++ map (fun t => mkEntry (intensity t) h) (filter (keyed e f) l).
Proof.
  revert r; induction l as [|t l IH]; intros r; simpl.
  - now rewrite app_nil_r.
  - rewrite IH, results_get_store. unfold keyed at 2.
    destruct (Ear_eqb e (ear t) && Qeq_bool (frequency t) f); simpl; auto.
    now rewrite <- app_assoc.
Qed.

Lemma sweep_trial_resolved (t : Trial) :
  heard (sweep_trial t) = Some true \/ heard (sweep_trial t) = Some false.
Proof.
  unfold sweep_trial. destruct (heard t) as [[|]|] eqn:E; simpl; auto.
Qed.

(** C4. After the finish sweep over the events of a test run (event [k]
    carries the trial of index [k]), playback is stopped, every trial has
    [heard] equal to [True] or [False], a trial that was already answered
    is unchanged, and for every [(ear, frequency)] the store entry has
    grown by [(intensity, False)] for exactly the trials with that key
    that were swept, in order. *)
Theorem finish_test_resolves_every_trial
    (events : list Event) (p : Playback) (ts : list Trial) (r : Results) :
  map test_index events = seq 0 (length ts) ->
  let p' := fst (fst (finish_test events p ts r)) in
  let ts' := snd (fst (finish_test events p ts r)) in
  let r' := snd (finish_test events p ts r) in
  is_playing_tone p' = false /\
  ts' = map sweep_trial ts /\
  (forall i t', nth_error ts' i = Some t' ->
                heard t' = Some true \/ heard t' = Some false) /\
  (forall i t, nth_error ts i = Some t -> heard t <> None ->
               nth_error ts' i = Some t) /\
  (forall i t, nth_error ts i = Some t -> heard t = None ->
               nth_error ts' i = Some (mark t false)) /\
  (forall e f,
      results_get r' e f =
        results_get r e f
          ++ map (fun t => mkEntry (intensity t) false)
               (filter (keyed e f) (filter unanswered ts))).
Proof.
  intros Hidx. unfold finish_test.
  pose proof (finish_test_sweep_seq events [] ts r Hidx) as Hs.
  simpl in Hs. rewrite Hs. simpl.
  split; [reflexivity|]. split; [reflexivity|].
  split; [|split; [|split]].
  - intros i t' H. rewrite nth_error_map in H.
    destruct (nth_error ts i) as [t|]; [|discriminate].
    injection H as <-. apply sweep_trial_resolved.
  - intros i t H Hh. rewrite nth_error_map, H. simpl.
    unfold sweep_trial. now destruct (heard t).
  - intros i t H Hh. rewrite nth_error_map, H. simpl.
    unfold sweep_trial. now rewrite Hh.
  - intros e f. apply results_get_fold_store.
Qed.

(** ** Buffer lengths *)

Lemma linspace_length (a b : R) (num : nat) : length (linspace a b num) = num.
Proof. unfold linspace. now rewrite length_map, length_seq. Qed.

Lemma fade_envelope_length (n : nat) (fs : Z) (envelope : list R) :
  fade_envelope n fs = Some envelope -> length envelope = n.
Proof.
  unfold fade_envelope.
  destruct (2 * fs <? Z.of_nat n)%Z eqn:E.
  - destruct (fs <=? 0)%Z eqn:E0; [discriminate|].
    intros [= <-]. rewrite !length_app, !linspace_length, repeat_length.
    apply Z.ltb_lt in E. apply Z.leb_gt in E0. lia.
  - intros [= <-]. apply repeat_length.
Qed.

Lemma sine_samples_length (vol freq : R) (t envelope : list R) :
  length envelope = length t ->
  length (sine_samples vol freq t envelope) = length t.
Proof.
  intros H. unfold sine_samples. rewrite length_map, length_combine. lia.
Qed.

Lemma generate_tone_length (cfg : Config) (cv freq intens : R) (d : Q)
    (tone : list R) :
  generate_tone cfg cv freq intens d = Some tone ->
  length tone = Z.to_nat (sample_count cfg d).
Proof.
  unfold generate_tone.
  destruct (sample_count cfg d <? 0)%Z; [discriminate|].
  destruct (fade_envelope _ _) as [envelope|] eqn:Ee; [|discriminate].
  destruct (actual_volume cv intens) as [vol|]; [|discriminate].
  intros [= <-]. apply fade_envelope_length in Ee.
  rewrite sine_samples_length; rewrite linspace_length; auto.
Qed.

Lemma fade_envelope_ok (cfg : Config) (n : Z) :
  (0 <= n)%Z -> fade_ok cfg n ->
  exists envelope, fade_envelope (Z.to_nat n) (fade_samples cfg) = Some envelope.
Proof.
  intros Hn Hok. unfold fade_envelope.
  destruct (2 * fade_samples cfg <? Z.of_nat (Z.to_nat n))%Z eqn:E; eauto.
  destruct (fade_samples cfg <=? 0)%Z eqn:E0; eauto.
  apply Z.ltb_lt in E. apply Z.leb_le in E0. unfold fade_ok in Hok. lia.
Qed.

Lemma actual_volume_ok (cv intens : R) :
  (0 < cv)%R -> exists vol, actual_volume cv intens = Some vol.
Proof.
  intros Hcv. unfold actual_volume.
  destruct (Rle_dec intens 0); eauto.
  destruct (Req_dec_T (cv * (1 / 100)) 0); eauto. Lra.lra.
Qed.

Lemma generate_tone_ok (cfg : Config) (cv freq intens : R) (d : Q) :
  (0 <= sample_count cfg d)%Z -> fade_ok cfg (sample_count cfg d) ->
  (0 < cv)%R ->
  exists tone, generate_tone cfg cv freq intens d = Some tone.
Proof.
  intros Hn Hf Hcv. unfold generate_tone.
  destruct (sample_count cfg d <? 0)%Z eqn:E; [apply Z.ltb_lt in E; lia|].
  destruct (fade_envelope_ok cfg _ Hn Hf) as [envelope ->].
  destruct (actual_volume_ok cv intens Hcv) as [vol ->]. eauto.
Qed.

(** ** [int] on non-negative floats *)

Lemma py_int_floor (q : Q) : 0 <= q -> py_int q = Qfloor q.
Proof.
  intros H. unfold py_int, Qfloor. destruct q as [n d]. simpl.
  apply Z.quot_div_nonneg; [|lia].
  unfold Qle in H. simpl in H. lia.
Qed.

Lemma py_int_nonneg (q : Q) : 0 <= q -> (0 <= py_int q)%Z.
Proof.
  intros H. rewrite py_int_floor by exact H.
  change 0%Z with (Qfloor 0). now apply Qfloor_resp_le.
Qed.

Lemma py_int_bounds (q : Q) :
  0 <= q -> inject_Z (py_int q) <= q /\ q < inject_Z (py_int q) + 1.
Proof.
  intros H. rewrite py_int_floor by exact H. split.
  - apply Qfloor_le.
  - pose proof (Qlt_floor q) as L. rewrite inject_Z_plus in L. exact L.
Qed.

Lemma py_int_inject (z : Z) : py_int (inject_Z z) = z.
Proof. unfold py_int. simpl. apply Z.quot_1_r. Qed.

(** ** TestTimelineCompiler *)

Lemma stream_loop_spec (cfg : Config) (cv : R) (uniform : nat -> Q)
    (tests : list Trial) :
  forall (i : nat) (tl tl' : Timeline),
  stream_loop cfg cv uniform i tests tl = Some tl' ->
  tone_events tl' =
    tone_events tl
      ++ expected_events cfg uniform (tone_samples cfg) i (current_time tl)
           (length tests) /\
  length (audio_data tl') =
    (length (audio_data tl) + gap_samples_total cfg uniform i (length tests)
       + length tests * tone_samples cfg)%nat.
Proof.
  induction tests as [|test rest IH]; intros i tl tl'; simpl.
  - intros [= <-]. rewrite app_nil_r. split; [reflexivity | lia].
  - destruct (py_int (uniform i * inject_Z (sample_rate cfg)) <? 0)%Z;
      [discriminate|].
    destruct (generate_tone cfg cv _ _ _) as [tone|] eqn:Et; [|discriminate].
    destruct (sample_rate cfg =? 0)%Z; [discriminate|].
    intros H. apply IH in H. simpl in H. destruct H as [Hev Hlen].
    apply generate_tone_length in Et. fold (tone_samples cfg) in Et.
    split.
    + rewrite Hev, Et, <- app_assoc. reflexivity.
    + rewrite Hlen, !length_app, repeat_length, Et. lia.
Qed.

Lemma stream_loop_ok (cfg : Config) (cv : R) (uniform : nat -> Q)
    (tests : list Trial) :
  (0 < sample_rate cfg)%Z ->
  (0 <= sample_count cfg (tone_duration cfg))%Z ->
  fade_ok cfg (sample_count cfg (tone_duration cfg)) ->
  (0 < cv)%R ->
  (forall j, 0 <= uniform j) ->
  forall (i : nat) (tl : Timeline),
  exists tl', stream_loop cfg cv uniform i tests tl = Some tl'.
Proof.
  intros Hsr Hn Hf Hcv Hu.
  induction tests as [|test rest IH]; intros i tl; simpl; eauto.
  assert (Hg : (0 <= py_int (uniform i * inject_Z (sample_rate cfg)))%Z).
  { apply py_int_nonneg. apply Qmult_le_0_compat; auto.
    unfold Qle; simpl; lia. }
  destruct (py_int (uniform i * inject_Z (sample_rate cfg)) <? 0)%Z eqn:E;
    [apply Z.ltb_lt in E; lia|].
  destruct (generate_tone_ok cfg cv (Q2R (frequency test))
              (Q2R (intensity test)) (tone_duration cfg) Hn Hf Hcv)
    as [tone ->].
  destruct (sample_rate cfg =? 0)%Z eqn:E0; [apply Z.eqb_eq in E0; lia|].
  apply IH.
Qed.

Lemma expected_events_length cfg uniform N i c n :
  length (expected_events cfg uniform N i c n) = n.
Proof. revert i c; induction n; intros; simpl; auto. Qed.

Lemma expected_events_index cfg uniform N i c n :
  map test_index (expected_events cfg uniform N i c n) = seq i n.
Proof. revert i c; induction n; intros; simpl; auto. now rewrite IHn. Qed.

Lemma samples_to_seconds_nonneg (cfg : Config) (n : nat) :
  (0 < sample_rate cfg)%Z -> 0 <= samples_to_seconds cfg n.
Proof.
  intros H. unfold samples_to_seconds.
  apply Qle_shift_div_l.
  - unfold Qlt; simpl; lia.
  - rewrite Qmult_0_l. unfold Qle; simpl; lia.
Qed.

(** Every event recorded after cumulative time [c] starts after [c] and
    does not end before it starts. *)
Lemma expected_events_after cfg uniform N i c n :
  (0 < sample_rate cfg)%Z -> (forall j, 0 < uniform j) ->
  Forall (fun ev => c < start_time ev /\ start_time ev <= end_time ev)
    (expected_events cfg uniform N i c n).
Proof.
  intros Hsr Hu. revert i c; induction n as [|n IH]; intros i c; simpl;
    constructor.
  - cbn [start_time end_time].
    pose proof (Hu i). pose proof (samples_to_seconds_nonneg cfg N Hsr).
    split; lra.
  - eapply Forall_impl; [|apply IH].
    cbn beta. intros ev [H1 H2].
    pose proof (Hu i). pose proof (samples_to_seconds_nonneg cfg N Hsr).
    split; lra.
Qed.

Lemma expected_events_sorted cfg uniform N i c n :
  (0 < sample_rate cfg)%Z -> (forall j, 0 < uniform j) ->
  StronglySorted (fun a b => start_time a < start_time b)
    (expected_events cfg uniform N i c n) /\
  StronglySorted (fun a b => end_time a <= start_time b)
    (expected_events cfg uniform N i c n).
Proof.
  intros Hsr Hu. revert i c; induction n as [|n IH]; intros i c; simpl.
  - split; constructor.
  - destruct (IH (S i) (c + uniform i + samples_to_seconds cfg N)) as [H1 H2].
    pose proof (samples_to_seconds_nonneg cfg N Hsr) as HN.
    pose proof (expected_events_after cfg uniform N (S i)
                  (c + uniform i + samples_to_seconds cfg N) n Hsr Hu) as Ha.
    split; constructor; auto.
    + eapply Forall_impl; [|exact Ha]. cbn [start_time end_time].
      intros ev [Hs _]. pose proof (Hu i). lra.
    + eapply Forall_impl; [|exact Ha]. cbn [start_time end_time].
      intros ev [Hs _]. lra.
Qed.

Lemma tone_total_expected cfg uniform N i c n :
  tone_total (expected_events cfg uniform N i c n)
    == inject_Z (Z.of_nat n) * samples_to_seconds cfg N.
Proof.
  revert i c; induction n as [|n IH]; intros i c.
  - cbn [expected_events tone_total]. change (inject_Z (Z.of_nat 0)) with 0.
    lra.
  - cbn [expected_events tone_total start_time end_time].
    rewrite IH, Nat2Z.inj_succ. unfold Z.succ. rewrite inject_Z_plus.
    change (inject_Z 1) with 1. ring.
Qed.

Lemma inject_Z_to_nat (z : Z) :
  (0 <= z)%Z -> inject_Z (Z.of_nat (Z.to_nat z)) = inject_Z z.
Proof. intros H. now rewrite Z2Nat.id. Qed.

(** Truncation loses less than one sample per gap. *)
Lemma gap_samples_bounds (cfg : Config) (uniform : nat -> Q) :
  (0 < sample_rate cfg)%Z -> (forall j, 0 <= uniform j) ->
  forall n i,
  let loss :=
    gap_total uniform i n * inject_Z (sample_rate cfg)
      - inject_Z (Z.of_nat (gap_samples_total cfg uniform i n)) in
  0 <= loss /\ loss <= inject_Z (Z.of_nat n) /\
  ((0 < n)%nat -> loss < inject_Z (Z.of_nat n)).
Proof.
  intros Hsr Hu. induction n as [|n IH]; intros i loss; subst loss.
  - cbn [gap_total gap_samples_total]. change (inject_Z (Z.of_nat 0)) with 0.
    repeat split; try lra. intros H; inversion H.
  - cbn [gap_total gap_samples_total].
    specialize (IH (S i)). cbv zeta in IH. destruct IH as (I1 & I2 & _).
    assert (Hq : 0 <= uniform i * inject_Z (sample_rate cfg)).
    { apply Qmult_le_0_compat; auto. unfold Qle; simpl; lia. }
    destruct (py_int_bounds _ Hq) as [B1 B2].
    pose proof (py_int_nonneg _ Hq) as B0.
    rewrite Nat2Z.inj_add, inject_Z_plus, inject_Z_to_nat by exact B0.
    rewrite Nat2Z.inj_succ. unfold Z.succ. rewrite inject_Z_plus.
    change (inject_Z 1) with 1.
    set (g := uniform i) in *.
    set (S := inject_Z (sample_rate cfg)) in *.
    set (G := gap_total uniform (Datatypes.S i) n) in *.
    assert (E : (g + G) * S == g * S + G * S) by ring.
    rewrite E. repeat split; try lra.
Qed.

Lemma py_int_double (z : Z) : py_int (2 * inject_Z z) = (2 * z)%Z.
Proof. unfold py_int. simpl. rewrite Z.quot_1_r. reflexivity. Qed.

Lemma samples_to_seconds_scale (cfg : Config) (n : nat) :
  (0 < sample_rate cfg)%Z ->
  samples_to_seconds cfg n * inject_Z (sample_rate cfg)
    == inject_Z (Z.of_nat n).
Proof.
  intros H. unfold samples_to_seconds. rewrite Qmult_comm.
  apply Qmult_div_r. unfold Qeq; simpl; lia.
Qed.

Lemma sample_count_nonneg (cfg : Config) (d : Q) :
  (0 < sample_rate cfg)%Z -> 0 <= d -> (0 <= sample_count cfg d)%Z.
Proof.
  intros Hsr Hd. apply py_int_nonneg. apply Qmult_le_0_compat; auto.
  unfold Qle; simpl; lia.
Qed.

(** The compiled stream in closed form. *)
Lemma generate_test_audio_stream_spec (cfg : Config) (cv : R)
    (uniform : nat -> Q) (ts : list Trial) :
  (0 < sample_rate cfg)%Z -> 0 <= tone_duration cfg ->
  fade_ok cfg (sample_count cfg (tone_duration cfg)) -> (0 < cv)%R ->
  (forall j, 0 <= uniform j) ->
  exists audio,
    generate_test_audio_stream cfg cv uniform ts =
      Some (audio,
            expected_events cfg uniform (tone_samples cfg) 0 0 (length ts)) /\
    length audio =
      (gap_samples_total cfg uniform 0 (length ts)
         + length ts * tone_samples cfg
         + Z.to_nat (2 * sample_rate cfg))%nat.
Proof.
  intros Hsr Hd Hf Hcv Hu.
  pose proof (sample_count_nonneg cfg _ Hsr Hd) as Hn.
  destruct (stream_loop_ok cfg cv uniform ts Hsr Hn Hf Hcv Hu 0%nat
              (mkTimeline [] [] 0)) as [tl Htl].
  unfold generate_test_audio_stream. rewrite Htl.
  apply stream_loop_spec in Htl. simpl in Htl. destruct Htl as [Hev Hlen].
  rewrite py_int_double.
  destruct (2 * sample_rate cfg <? 0)%Z eqn:E; [apply Z.ltb_lt in E; lia|].
  eexists. split.
  - rewrite Hev. reflexivity.
  - rewrite length_app, repeat_length, Hlen. reflexivity.
Qed.

(** C2, as the code has it.  Under a positive sample rate, a positive
    lower gap bound and a buffer the fade envelope accepts, the compiler
    returns a buffer and one event per trial, event [k] carrying trial
    [k]; the events are strictly sorted by [start_time] and do not
    overlap; and the buffer is never longer than the sum of the gaps, the
    tone durations and the 2.0 s of trailing silence, and shorter by less
    than one sample per trial: each gap is truncated to whole samples. *)
Theorem compiled_timeline_postcondition (cfg : Config) (cv : R)
    (uniform : nat -> Q) (ts : list Trial) :
  (0 < sample_rate cfg)%Z -> 0 <= tone_duration cfg ->
  fade_ok cfg (sample_count cfg (tone_duration cfg)) -> (0 < cv)%R ->
  0 < min_gap cfg ->
  (forall j, min_gap cfg <= uniform j /\ uniform j <= max_gap cfg) ->
  exists audio events,
    generate_test_audio_stream cfg cv uniform ts = Some (audio, events) /\
    length events = length ts /\
    map test_index events = seq 0 (length ts) /\
    StronglySorted (fun a b => start_time a < start_time b) events /\
    StronglySorted (fun a b => end_time a <= start_time b) events /\
    Forall (fun ev => start_time ev <= end_time ev) events /\
    let ideal := ideal_duration uniform events (length ts) in
    let slack := samples_to_seconds cfg (length ts) in
    buffer_duration cfg audio <= ideal /\
    ideal <= buffer_duration cfg audio + slack /\
    ((0 < length ts)%nat -> ideal < buffer_duration cfg audio + slack).
Proof.
  intros Hsr Hd Hf Hcv Hmin Hdraw.
  assert (Hpos : forall j, 0 < uniform j).
  { intros j. destruct (Hdraw j) as [H _]. lra. }
  assert (Hnn : forall j, 0 <= uniform j).
  { intros j. apply Qlt_le_weak, Hpos. }
  destruct (generate_test_audio_stream_spec cfg cv uniform ts
              Hsr Hd Hf Hcv Hnn) as (audio & Hgen & Hlen).
  exists audio, (expected_events cfg uniform (tone_samples cfg) 0 0 (length ts)).
  destruct (expected_events_sorted cfg uniform (tone_samples cfg) 0 0
              (length ts) Hsr Hpos) as [Hs1 Hs2].
  split; [exact Hgen|]. split; [apply expected_events_length|].
  split; [apply expected_events_index|].
  split; [exact Hs1|]. split; [exact Hs2|]. split.
  { eapply Forall_impl;
      [|apply (expected_events_after cfg uniform _ 0 0 _ Hsr Hpos)].
    cbn beta. tauto. }
  cbv zeta. unfold ideal_duration, buffer_duration.
  set (n := length ts) in *. set (N := tone_samples cfg) in *.
  set (S := inject_Z (sample_rate cfg)).
  assert (HS : 0 < S) by (unfold S, Qlt; simpl; lia).
  destruct (gap_samples_bounds cfg uniform Hsr Hnn n 0) as (L1 & L2 & L3).
  fold S in L1, L2, L3.
  pose proof (tone_total_expected cfg uniform N 0 0 n) as Htt.
  pose proof (samples_to_seconds_scale cfg N Hsr) as HN. fold S in HN.
  pose proof (samples_to_seconds_scale cfg n Hsr) as Hn. fold S in Hn.
  pose proof (samples_to_seconds_scale cfg (length audio) Hsr) as Hb.
  fold S in Hb.
  assert (HL : inject_Z (Z.of_nat (length audio))
               == inject_Z (Z.of_nat (gap_samples_total cfg uniform 0 n))
                  + inject_Z (Z.of_nat n) * inject_Z (Z.of_nat N) + 2 * S).
  { rewrite Hlen, !Nat2Z.inj_add, Nat2Z.inj_mul, Z2Nat.id by lia.
    rewrite !inject_Z_plus, !inject_Z_mult. reflexivity. }
  set (Gs := inject_Z (Z.of_nat (gap_samples_total cfg uniform 0 n))) in *.
  set (Gt := gap_total uniform 0 n) in *.
  set (nq := inject_Z (Z.of_nat n)) in *.
  set (Nq := inject_Z (Z.of_nat N)) in *.
  set (T := tone_total (expected_events cfg uniform N 0 0 n)) in *.
  set (sN := samples_to_seconds cfg N) in *.
  set (sn := samples_to_seconds cfg n) in *.
  assert (HT : T * S == nq * Nq).
  { rewrite Htt, <- Qmult_assoc, HN. reflexivity. }
  assert (Hideal : (Gt + T + 2) * S == Gt * S + nq * Nq + 2 * S).
  { rewrite <- HT. ring. }
  assert (Hbuf : samples_to_seconds cfg (length audio) * S
                 == Gs + nq * Nq + 2 * S).
  { rewrite Hb. exact HL. }
  set (D := samples_to_seconds cfg (length audio)) in *.
  assert (Hcmp : forall a b, a * S <= b * S -> a <= b).
  { intros a b H. apply Qmult_le_r in H; auto. }
  assert (Hcmps : forall a b, a * S < b * S -> a < b).
  { intros a b H. apply Qmult_lt_r in H; auto. }
  assert (Hsum : (D + sn) * S == Gs + nq * Nq + 2 * S + nq).
  { rewrite <- Hbuf, <- Hn. ring. }
  split; [|split].
  - apply Hcmp. rewrite Hideal, Hbuf. lra.
  - apply Hcmp. rewrite Hideal, Hsum. lra.
  - intros Hpos0. apply Hcmps. rewrite Hideal, Hsum.
    specialize (L3 Hpos0). lra.
Qed.

Lemma default_config_compiles :
  (0 < sample_rate default_config)%Z /\ 0 <= tone_duration default_config /\
  fade_ok default_config
    (sample_count default_config (tone_duration default_config)) /\
  0 < min_gap default_config /\
  (forall j, min_gap default_config <= steady_gap j /\
             steady_gap j <= max_gap default_config).
Proof.
  split; [reflexivity|]. split; [discriminate|].
  split; [left; reflexivity|]. split; [reflexivity|].
  intros j. split; discriminate.
Qed.

(** C2, counterexample: with the default configuration, two trials and
    gaps of [1 + 2^-16] s (inside [0.75, 1.25]), the buffer has 205506
    samples while the gaps, the tones and the trailing silence add up to
    205507.35 samples: the difference exceeds one sample. *)
Lemma compiled_timeline_exceeds_one_sample :
  exists audio events,
    generate_test_audio_stream default_config (1 / 2)%R steady_gap two_trials
      = Some (audio, events) /\
    Z.of_nat (length audio) = 205506%Z /\
    ~ within_one_sample default_config audio
        (ideal_duration steady_gap events (length two_trials)).
Proof.
  destruct default_config_compiles as (Hsr & Hd & Hf & Hmin & Hdraw).
  destruct (generate_test_audio_stream_spec default_config (1 / 2)%R
              steady_gap two_trials Hsr Hd Hf ltac:(rlra)
              ltac:(intros j; discriminate)) as (audio & Hgen & Hlen).
  exists audio. eexists. split; [exact Hgen|].
  assert (Hlen' : Z.of_nat (length audio) = 205506%Z).
  { rewrite Hlen. unfold tone_samples. cbn [gap_samples_total].
    rewrite !Nat2Z.inj_add, Nat2Z.inj_mul, !Z2Nat.id
      by (vm_compute; discriminate).
    vm_compute. reflexivity. }
  split; [exact Hlen'|].
  unfold within_one_sample, buffer_duration, samples_to_seconds.
  rewrite Hlen'.
  intros H. vm_compute in H. apply H. reflexivity.
Qed.

(** The amended statement at the same input. *)
Lemma compiled_timeline_postcondition_witness :
  exists audio events,
    generate_test_audio_stream default_config (1 / 2)%R steady_gap two_trials
      = Some (audio, events) /\
    length events = 2%nat /\
    buffer_duration default_config audio
      <= ideal_duration steady_gap events 2 /\
    ideal_duration steady_gap events 2
      < buffer_duration default_config audio
        + samples_to_seconds default_config 2.
Proof.
  destruct (compiled_timeline_postcondition default_config (1 / 2)%R
              steady_gap two_trials)
    as (audio & events & Hgen & Hlen & _ & _ & _ & _ & Hlo & _ & Hhi).
  - reflexivity.
  - discriminate.
  - left. reflexivity.
  - rlra.
  - reflexivity.
  - intros j. split; discriminate.
  - exists audio, events. repeat split; auto. apply Hhi. simpl. lia.
Defined.

(** ** ToneSynthesizer *)

Lemma sine_samples_shape (vol freq : R) (t envelope : list R) :
  sine_samples vol freq t envelope
    = map (Rmult vol) (tone_shape freq t envelope).
Proof.
  unfold sine_samples, tone_shape. rewrite map_map.
  apply map_ext. intros [ti e]. simpl. ring.
Qed.

Lemma linspace_up_range (k : nat) :
  Forall (fun e => (0 <= e <= 1)%R) (linspace 0 1 k).
Proof.
  unfold linspace. apply Forall_forall. intros e He.
  apply in_map_iff in He. destruct He as (j & <- & Hj).
  apply in_seq in Hj. destruct (k =? 1)%nat eqn:E; [rlra|].
  apply Nat.eqb_neq in E.
  assert (Hk : (0 < INR (k - 1))%R) by (apply lt_0_INR; lia).
  assert (Hj' : (0 <= INR j <= INR (k - 1))%R).
  { split; [apply pos_INR | apply le_INR; lia]. }
  replace (0 + INR j * ((1 - 0) / INR (k - 1)))%R
    with (INR j / INR (k - 1))%R by (field; rlra).
  split.
  - apply Rmult_le_pos; [tauto | left; now apply Rinv_0_lt_compat].
  - apply Rmult_le_reg_r with (INR (k - 1)); auto.
    unfold Rdiv. rewrite Rmult_assoc, Rinv_l by rlra. rlra.
Qed.

Lemma linspace_down_range (k : nat) :
  Forall (fun e => (0 <= e <= 1)%R) (linspace 1 0 k).
Proof.
  unfold linspace. apply Forall_forall. intros e He.
  apply in_map_iff in He. destruct He as (j & <- & Hj).
  apply in_seq in Hj. destruct (k =? 1)%nat eqn:E; [rlra|].
  apply Nat.eqb_neq in E.
  assert (Hk : (0 < INR (k - 1))%R) by (apply lt_0_INR; lia).
  assert (Hj' : (0 <= INR j <= INR (k - 1))%R).
  { split; [apply pos_INR | apply le_INR; lia]. }
  assert (Hq : (0 <= INR j / INR (k - 1) <= 1)%R).
  { split.
    - apply Rmult_le_pos; [tauto | left; now apply Rinv_0_lt_compat].
    - apply Rmult_le_reg_r with (INR (k - 1)); auto.
      unfold Rdiv. rewrite Rmult_assoc, Rinv_l by rlra. rlra. }
  replace (1 + INR j * ((0 - 1) / INR (k - 1)))%R
    with (1 - INR j / INR (k - 1))%R by (field; rlra).
  rlra.
Qed.

Lemma fade_envelope_range (n : nat) (fs : Z) (envelope : list R) :
  fade_envelope n fs = Some envelope ->
  Forall (fun e => (0 <= e <= 1)%R) envelope.
Proof.
  unfold fade_envelope.
  assert (Hones : forall m, Forall (fun e => (0 <= e <= 1)%R) (repeat 1%R m)).
  { intros m. apply Forall_forall. intros e He.
    apply repeat_spec in He. subst e. rlra. }
  destruct (2 * fs <? Z.of_nat n)%Z.
  - destruct (fs <=? 0)%Z; [discriminate|]. intros [= <-].
    apply Forall_app. split; [apply linspace_up_range|].
    apply Forall_app. split; [apply Hones | apply linspace_down_range].
  - intros [= <-]. apply Hones.
Qed.

Lemma tone_shape_bound (freq : R) (t envelope : list R) :
  Forall (fun e => (0 <= e <= 1)%R) envelope ->
  Forall (fun s => (Rabs s <= 1)%R) (tone_shape freq t envelope).
Proof.
  intros He. unfold tone_shape. apply Forall_forall. intros s Hs.
  apply in_map_iff in Hs. destruct Hs as ([ti e] & <- & Hin). simpl.
  apply in_combine_r in Hin. rewrite Forall_forall in He.
  specialize (He e Hin).
  pose proof (SIN_bound (2 * PI * freq * ti)) as Hsin.
  rewrite Rabs_mult.
  assert (H1 : (Rabs (sin (2 * PI * freq * ti)) <= 1)%R)
    by (apply Rabs_le; rlra).
  assert (H2 : (Rabs e <= 1)%R) by (apply Rabs_le; rlra).
  pose proof (Rabs_pos (sin (2 * PI * freq * ti))).
  pose proof (Rabs_pos e).
  replace 1%R with (1 * 1)%R by ring.
  apply Rmult_le_compat; auto.
Qed.

Lemma scaled_bound (vol : R) (shape : list R) :
  (0 <= vol)%R -> Forall (fun s => (Rabs s <= 1)%R) shape ->
  Forall (fun x => (Rabs x <= vol)%R) (map (Rmult vol) shape).
Proof.
  intros Hv Hs. apply Forall_forall. intros x Hx.
  apply in_map_iff in Hx. destruct Hx as (s & <- & Hin).
  rewrite Forall_forall in Hs. specialize (Hs s Hin).
  rewrite Rabs_mult, (Rabs_right vol) by rlra.
  replace vol with (vol * 1)%R at 2 by ring.
  apply Rmult_le_compat_l; auto.
Qed.

(** The amplitude law above zero intensity. *)
Lemma actual_volume_log (cv intens : R) :
  (0 < cv)%R -> (0 < intens)%R ->
  actual_volume cv intens = Some (log_volume cv intens).
Proof.
  intros Hcv Hi. unfold actual_volume, log_volume.
  destruct (Rle_dec intens 0); [rlra|].
  destruct (Req_dec_T (cv * (1 / 100)) 0); [rlra|].
  replace (cv / (cv * (1 / 100)))%R with 100%R by (field; rlra).
  reflexivity.
Qed.

Lemma log_volume_pos (cv intens : R) : (0 < cv)%R -> (0 < log_volume cv intens)%R.
Proof.
  intros H. unfold log_volume, Rpower.
  pose proof (exp_pos (intens * ln 100)).
  apply Rmult_lt_0_compat; [rlra | assumption].
Qed.


Lemma generate_tone_shape (cfg : Config) (cv freq intens : R) (d : Q)
    (buf : list R) :
  generate_tone cfg cv freq intens d = Some buf ->
  exists vol shape,
    actual_volume cv intens = Some vol /\
    Forall (fun s => (Rabs s <= 1)%R) shape /\
    length shape = Z.to_nat (sample_count cfg d) /\
    buf = map (Rmult vol) shape.
Proof.
  unfold generate_tone.
  destruct (sample_count cfg d <? 0)%Z; [discriminate|].
  destruct (fade_envelope _ _) as [envelope|] eqn:Ee; [|discriminate].
  destruct (actual_volume cv intens) as [vol|]; [|discriminate].
  intros [= <-].
  exists vol, (tone_shape freq
                 (linspace 0 (Q2R d) (Z.to_nat (sample_count cfg d))) envelope).
  split; [reflexivity|]. split.
  - apply tone_shape_bound. eapply fade_envelope_range; eauto.
  - split; [|apply sine_samples_shape].
    unfold tone_shape. rewrite length_map, length_combine, linspace_length.
    apply fade_envelope_length in Ee. lia.
Qed.




(** ** AudioStreamEngine *)

(** C5. One callback for [f] frames.  While playback is active and the
    position is short of the buffer length, the output column is the next
    [min(f, remaining)] buffer samples, each times the calibration volume,
    followed by zeros up to [f] frames; the position advances by the
    copied count; the buffer and the volume are kept; and the active flag
    is cleared exactly when the position has reached the buffer length.
    While playback is not active, the output column is the draw
    [np.random.normal(0, 0.001, f)] (noise, not zeros), which fills all
    [f] frames, and the position is reset to 0. *)
Theorem audio_callback_behaviour (normal : R -> R -> nat -> list R)
    (f : nat) (p : Playback) :
  let out := fst (audio_callback normal f p) in
  let p' := snd (audio_callback normal f p) in
  (forall tone,
      is_playing_tone p = true -> current_tone p = Some tone ->
      (audio_position p < length tone)%nat ->
      let copied := Nat.min f (length tone - audio_position p) in
      out = map (fun x => (x * calibration_volume p)%R)
              (firstn copied (skipn (audio_position p) tone))
            ++ repeat 0%R (f - copied) /\
      length out = f /\
      audio_position p' = (audio_position p + copied)%nat /\
      current_tone p' = current_tone p /\
      calibration_volume p' = calibration_volume p /\
      (is_playing_tone p' = false <-> audio_position p' = length tone)) /\
  (is_playing_tone p = false ->
      out = normal 0%R (1 / 1000)%R f /\
      (length (normal 0%R (1 / 1000)%R f) = f -> length out = f) /\
      p' = mkPlayback (current_tone p) 0 false (calibration_volume p)).
Proof.
  cbv zeta. split.
  - intros tone Hplay Htone Hpos. unfold audio_callback.
    rewrite Hplay, Htone.
    destruct (Nat.ltb_spec 0 (length tone)) as [_|]; [|lia].
    set (pos := audio_position p) in *.
    set (end_pos := Nat.min (pos + f) (length tone)).
    assert (Hcopied : (end_pos - pos = Nat.min f (length tone - pos))%nat)
      by (unfold end_pos; lia).
    destruct (Nat.ltb_spec pos end_pos) as [Hlt|Hge]; cbn [fst snd].
    + unfold slice. rewrite Hcopied.
      split; [reflexivity|]. split.
      { rewrite length_app, length_map, length_firstn, length_skipn,
          repeat_length. lia. }
      cbn [audio_position current_tone calibration_volume is_playing_tone].
      split; [lia|]. split; [reflexivity|]. split; [reflexivity|].
      destruct (Nat.leb_spec (length tone) end_pos); split; intros; try lia;
        try reflexivity; try discriminate.
    + assert (Hf : f = 0%nat) by (unfold end_pos in Hge; lia).
      rewrite <- Hcopied.
      replace (end_pos - pos)%nat with 0%nat by lia.
      subst f. cbn [firstn map repeat app Nat.sub].
      split; [reflexivity|]. split; [reflexivity|].
      split; [fold pos; lia|]. split; [auto|]. split; [reflexivity|].
      rewrite Hplay. fold pos. split; [discriminate | lia].
  - intros Hidle. unfold audio_callback. rewrite Hidle. cbn [fst snd].
    split; [reflexivity|]. split; [auto|reflexivity].
Qed.

(** A callback that finishes a three-sample buffer: two samples are left,
    four frames are asked for. *)
Lemma audio_callback_behaviour_witness :
  let p := mkPlayback (Some [1; 2; 3]%R) 1 true (1 / 2)%R in
  let res := audio_callback (fun _ _ n => repeat (1 / 1000)%R n) 4 p in
  fst res = [2 * (1 / 2); 3 * (1 / 2); 0; 0]%R /\
  audio_position (snd res) = 3%nat /\
  is_playing_tone (snd res) = false.
Proof.
  cbv zeta.
  destruct (audio_callback_behaviour (fun _ _ n => repeat (1 / 1000)%R n) 4
              (mkPlayback (Some [1; 2; 3]%R) 1 true (1 / 2)%R))
    as [Hactive _].
  destruct (Hactive [1; 2; 3]%R) as (Hout & _ & Hpos & _ & _ & Hflag);
    [reflexivity | reflexivity | simpl; lia |].
  split; [exact Hout|]. split; [exact Hpos|].
  apply Hflag. exact Hpos.
Defined.








(** ** TestSequencePlanner *)

Lemma cross_product_ear (e : Ear) (frequencies intensities : list Q) :
  map trial_tuple
    (flat_map (fun freq => map (fun i => mkTrial e freq i None) intensities)
       frequencies)
  = list_prod (map (pair e) frequencies) intensities.
Proof.
  induction frequencies as [|f fs IH]; simpl; [reflexivity|].
  rewrite map_app, IH, map_map. reflexivity.
Qed.

Lemma list_prod_app {A B : Type} (l1 l2 : list A) (l' : list B) :
  list_prod (l1 ++ l2) l' = list_prod l1 l' ++ list_prod l2 l'.
Proof.
  induction l1 as [|a l1 IH]; simpl; [reflexivity|].
  now rewrite IH, app_assoc.
Qed.

Lemma cross_product_tuples (frequencies intensities : list Q) :
  map trial_tuple (cross_product frequencies intensities)
  = list_prod (list_prod [EarLeft; EarRight] frequencies) intensities.
Proof.
  unfold cross_product. cbn [flat_map].
  rewrite !app_nil_r, map_app, !cross_product_ear.
  change (list_prod [EarLeft; EarRight] frequencies)
    with (map (pair EarLeft) frequencies
            ++ map (pair EarRight) frequencies ++ []).
  now rewrite app_nil_r, list_prod_app.
Qed.

Lemma cross_product_unset (frequencies intensities : list Q) :
  Forall (fun t => heard t = None) (cross_product frequencies intensities).
Proof.
  apply Forall_forall. intros t Ht. unfold cross_product in Ht.
  apply in_flat_map in Ht. destruct Ht as (e & _ & Ht).
  apply in_flat_map in Ht. destruct Ht as (f & _ & Ht).
  apply in_map_iff in Ht. destruct Ht as (i & <- & _). reflexivity.
Qed.

Section Planner.

(** numpy's [log10] and [logspace], and the order [random.shuffle]
    leaves the list in. *)
Variable np_log10 : Q -> Q.
Variable np_logspace : Q -> Q -> nat -> list Q.
Variable shuffle : list Trial -> list Trial.

(** [np.logspace(start, stop, num)] has [num] elements. *)
Hypothesis np_logspace_length :
  forall a b n, length (np_logspace a b n) = n.

(** [random.shuffle] reorders the list. *)
Hypothesis shuffle_permutation : forall l, Permutation l (shuffle l).

Variables frequency_bands intensity_levels : list Q.

(** C6. In quick mode the planner yields exactly 48 trials; the
    multiset of their [(ear, frequency, intensity)] tuples is the cross
    product of [{left, right}], the 8 frequencies
    [np.logspace(log10(250), log10(8000), 8)] and the intensities
    [{0.2, 0.6, 1.0}], whatever the shuffle; every trial has [heard]
    unset. *)
Theorem quick_sequence_is_cross_product :
  let ts := create_test_sequence np_log10 np_logspace shuffle
              frequency_bands intensity_levels "quick"%string in
  let frequencies := np_logspace (np_log10 250) (np_log10 8000) 8%nat in
  length frequencies = 8%nat /\
  length ts = 48%nat /\
  Permutation (map trial_tuple ts)
    (list_prod (list_prod [EarLeft; EarRight] frequencies)
       [2 # 10; 6 # 10; 1]) /\
  Forall (fun t => heard t = None) ts.
Proof.
  cbv zeta. unfold create_test_sequence. cbn [String.eqb Ascii.eqb Bool.eqb].
  set (frequencies := np_logspace (np_log10 250) (np_log10 8000) 8%nat).
  set (plain := cross_product frequencies [2 # 10; 6 # 10; 1]).
  assert (Hlen : length frequencies = 8%nat) by apply np_logspace_length.
  assert (Hperm : Permutation (shuffle plain) plain)
    by (apply Permutation_sym, shuffle_permutation).
  split; [exact Hlen|]. split; [|split].
  - rewrite (Permutation_length Hperm).
    rewrite <- (length_map trial_tuple). unfold plain.
    rewrite cross_product_tuples, !length_prod, Hlen. reflexivity.
  - rewrite <- cross_product_tuples. fold plain.
    now apply Permutation_map.
  - eapply Permutation_Forall.
    + apply Permutation_sym. exact Hperm.
    + apply cross_product_unset.
Qed.

End Planner.

(** The planner with a stand-in for numpy and list reversal as the
    shuffle. *)
Lemma quick_sequence_is_cross_product_witness :
  length (create_test_sequence (fun x => x) (fun a b n => repeat a n)
            (@rev Trial) [] [] "quick"%string) = 48%nat.
Proof.
  destruct (quick_sequence_is_cross_product (fun x => x)
              (fun a b n => repeat a n) (@rev Trial)
              (fun a b n => repeat_length a n)
              (fun l => Permutation_rev l) [] [])
    as (_ & Hlen & _).
  exact Hlen.
Defined.

(** ** ResultsStore: the results file *)

Lemma loaded_set_fresh (k : Q) (v : json) (acc : LoadedDict) :
  loaded_mem k acc = false -> loaded_set k v acc = acc ++ [(k, v)].
Proof.
  induction acc as [|[k' w] acc IH]; simpl; [reflexivity|].
  destruct (Qeq_bool k' k); simpl; [discriminate|].
  intros H. now rewrite IH.
Qed.

Lemma loaded_mem_app (k : Q) (a b : LoadedDict) :
  loaded_mem k (a ++ b) = loaded_mem k a || loaded_mem k b.
Proof. unfold loaded_mem. apply existsb_app. Qed.

Lemma dict_mem_false (k : Q) (d : FreqDict) :
  dict_mem k d = false ->
  forall kv, In kv d -> Qeq_bool (fst kv) k = false.
Proof.
  induction d as [|[k' v] d IH]; simpl; [tauto|].
  destruct (Qeq_bool k' k) eqn:E; [discriminate|].
  intros H kv [<- | Hin]; auto.
Qed.

Lemma entries_round_trip (es : list ResultEntry) :
  entries_of_list (map entry_json es) = Some es.
Proof.
  induction es as [|[i h] es IH]; simpl; [reflexivity|].
  rewrite IH. reflexivity.
Qed.

Lemma freqdict_round_trip (d : FreqDict) :
  freqdict_of_loaded (loaded_of_dict d) = Some d.
Proof.
  unfold loaded_of_dict.
  induction d as [|[k es] d IH]; cbn [map freqdict_of_loaded fst snd];
    [reflexivity|].
  now rewrite entries_round_trip, IH.
Qed.

(** A load whose conversion succeeds appends the overlay, whether or not
    the plot that follows raises. *)
Lemma load_results_converted (py_float : string -> option Q)
    (plot_ok : Session -> bool) (filename : string) (data : json)
    (s : Session) (fixed_results : LoadedResults) :
  String.eqb filename ""%string = false ->
  convert_results py_float data = Some fixed_results ->
  fst (load_results py_float plot_ok filename (Some data) s) =
    mkSession (test_results s)
      (previous_results s
         ++ [mkPrevious
               (json_get_default data "timestamp"%string
                  (JStr "Unknown"%string))
               (json_get_default data "calibration_volume"%string
                  (JNum (1 # 2)))
               fixed_results (basename filename)]).
Proof.
  intros Hname Hconv. unfold load_results. rewrite Hname, Hconv.
  now destruct (plot_ok _).
Qed.

Section RoundTrip.

(** [float.__repr__] and [float(...)]. *)
Variable float_repr : Q -> string.
Variable py_float : string -> option Q.

Lemma convert_items_saved (d : FreqDict) :
  forall acc : LoadedDict,
  (forall kv, In kv d -> py_float (float_repr (fst kv)) = Some (fst kv)) ->
  keys_distinct d = true ->
  (forall kv, In kv d -> loaded_mem (fst kv) acc = false) ->
  convert_items py_float
    (map (fun kv => (float_repr (fst kv), JArr (map entry_json (snd kv)))) d)
    acc
  = Some (acc ++ loaded_of_dict d).
Proof.
  induction d as [|[k es] d IH]; intros acc Hrepr Hdist Hfresh;
    cbn [map convert_items loaded_of_dict fst snd].
  - now rewrite app_nil_r.
  - pose proof (Hrepr (k, es) (or_introl eq_refl)) as Hk0.
    pose proof (Hfresh (k, es) (or_introl eq_refl)) as Hf0.
    cbn [fst] in Hk0, Hf0. rewrite Hk0, loaded_set_fresh by exact Hf0.
    simpl in Hdist. apply andb_true_iff in Hdist. destruct Hdist as [Hk Hd].
    apply negb_true_iff in Hk.
    rewrite IH; auto.
    + unfold loaded_of_dict. now rewrite <- app_assoc.
    + intros kv Hin. apply Hrepr. now right.
    + intros kv Hin. rewrite loaded_mem_app, (Hfresh kv) by (now right).
      simpl. rewrite orb_false_r, Qeq_bool_sym.
      now apply (dict_mem_false k d Hk).
Qed.

(** C7, as the code has it.  A store that holds at least one result,
    whose float keys are read back by [float] from their [repr], is
    written by a save that is not cancelled, and loading the document
    appends one overlay whose [(ear, frequency) -> [(intensity, heard)]]
    mapping is the store; the current results are untouched. *)
Theorem saved_results_round_trip (plot_ok : Session -> bool)
    (timestamp : string) (volume : Q) (bands levels : list Q)
    (save_name load_name : string) (r : Results) (s : Session) :
  keys_distinct (res_left r) = true ->
  keys_distinct (res_right r) = true ->
  (forall e kv, In kv (results_ear r e) ->
                py_float (float_repr (fst kv)) = Some (fst kv)) ->
  dict_is_empty (res_left r) && dict_is_empty (res_right r) = false ->
  save_name <> ""%string -> load_name <> ""%string ->
  round_trips float_repr py_float plot_ok timestamp volume bands levels
    save_name load_name r s /\
  test_results
    (fst (load_results py_float plot_ok load_name
            (save_results float_repr timestamp volume bands levels r
               save_name) s))
    = test_results s.
Proof.
  intros Hl Hr Hrepr Hne Hsave Hload.
  apply String.eqb_neq in Hsave, Hload.
  assert (Hcl : convert_items py_float
                  (map (fun kv => (float_repr (fst kv),
                                   JArr (map entry_json (snd kv))))
                     (res_left r)) []
                = Some (loaded_of_dict (res_left r))).
  { apply (convert_items_saved (res_left r) []); auto.
    intros kv Hin. apply (Hrepr EarLeft kv Hin). }
  assert (Hcr : convert_items py_float
                  (map (fun kv => (float_repr (fst kv),
                                   JArr (map entry_json (snd kv))))
                     (res_right r)) []
                = Some (loaded_of_dict (res_right r))).
  { apply (convert_items_saved (res_right r) []); auto.
    intros kv Hin. apply (Hrepr EarRight kv Hin). }
  unfold round_trips, save_results. rewrite Hne, Hsave.
  match goal with |- context [Some ?d] => set (doc := d) end.
  assert (Hconv : convert_results py_float doc
                  = Some (mkLoaded (loaded_of_dict (res_left r))
                            (loaded_of_dict (res_right r)))).
  { unfold doc, convert_results, convert_ear, results_json, dict_json.
    cbn [json_item obj_get String.eqb Ascii.eqb Bool.eqb].
    now rewrite Hcl, Hcr. }
  pose proof (load_results_converted py_float plot_ok load_name doc s _
                Hload Hconv) as Hst.
  split.
  - exists doc. eexists. split; [reflexivity|]. split.
    + rewrite Hst. reflexivity.
    + unfold results_of_loaded. cbn [pr_results lr_left lr_right].
      rewrite !freqdict_round_trip. now destruct r.
  - now rewrite Hst.
Qed.

(** Failures before the overlay is built: a load whose file is missing
    or is not JSON, or whose content makes the conversion raise, is
    reported as an error and returns the session as it was. *)
Lemma failed_load_keeps_state (plot_ok : Session -> bool)
    (filename : string) (file : option json) (s : Session) :
  filename <> ""%string ->
  file = None \/
    (exists data, file = Some data /\ convert_results py_float data = None) ->
  load_results py_float plot_ok filename file s = (s, LoadError).
Proof.
  intros Hname Hbad. unfold load_results.
  apply String.eqb_neq in Hname. rewrite Hname.
  destruct Hbad as [-> | (data & -> & Hconv)]; [reflexivity|].
  now rewrite Hconv.
Qed.

End RoundTrip.

(** ** A whole test run *)

Lemma compiled_events_index (cfg : Config) (cv : R) (uniform : nat -> Q)
    (ts : list Trial) (audio : list R) (events : list Event) :
  generate_test_audio_stream cfg cv uniform ts = Some (audio, events) ->
  map test_index events = seq 0 (length ts).
Proof.
  unfold generate_test_audio_stream.
  destruct (stream_loop cfg cv uniform 0 ts (mkTimeline [] [] 0))
    as [tl|] eqn:Hloop; [|discriminate].
  destruct (py_int (2 * inject_Z (sample_rate cfg)) <? 0)%Z; [discriminate|].
  intros [= _ <-]. apply stream_loop_spec in Hloop.
  destruct Hloop as [-> _]. apply expected_events_index.
Qed.

Lemma tone_heard_length (events : list Event) (start now : Q)
    (ts : list Trial) (r : Results) :
  length (fst (tone_heard events start now ts r)) = length ts.
Proof.
  unfold tone_heard.
  destruct (tone_heard_scan_spec events (now - start) ts r)
    as [(pre & ev & post & tr & _ & _ & _ & _ & ->) | [_ ->]]; simpl; auto.
  apply set_heard_length.
Qed.

(** The clicks of a run, in the order they arrive. *)
Lemma clicks_keep_length (events : list Event) (start : Q) (clicks : list Q) :
  forall (ts : list Trial) (r : Results),
  length (fst (fold_left
                 (fun st now => tone_heard events start now (fst st) (snd st))
                 clicks (ts, r)))
  = length ts.
Proof.
  induction clicks as [|now clicks IH]; intros ts r; simpl; [reflexivity|].
  destruct (tone_heard events start now ts r) as [ts1 r1] eqn:E.
  rewrite IH. change ts1 with (fst (ts1, r1)). rewrite <- E.
  apply tone_heard_length.
Qed.

(** From compilation through any clicks to the sweep: no trial is left
    unset. *)
Lemma test_run_leaves_no_trial_unset (cfg : Config) (cv : R)
    (uniform : nat -> Q) (ts : list Trial) (audio : list R)
    (events : list Event) (start : Q) (clicks : list Q) (p : Playback)
    (r : Results) :
  generate_test_audio_stream cfg cv uniform ts = Some (audio, events) ->
  let st := fold_left
              (fun st now => tone_heard events start now (fst st) (snd st))
              clicks (ts, r) in
  Forall (fun t => heard t = Some true \/ heard t = Some false)
    (snd (fst (finish_test events p (fst st) (snd st)))).
Proof.
  intros Hgen st. apply compiled_events_index in Hgen.
  assert (Hidx : map test_index events = seq (length (@nil Trial))
                                           (length (fst st))).
  { unfold st. rewrite clicks_keep_length. exact Hgen. }
  unfold finish_test.
  pose proof (finish_test_sweep_seq events [] (fst st) (snd st) Hidx) as Hs.
  simpl in Hs. rewrite Hs. simpl.
  apply Forall_forall. intros t Ht. apply in_map_iff in Ht.
  destruct Ht as (t0 & <- & _). apply sweep_trial_resolved.
Qed.

(** ** Worked runs *)

(** C7, counterexample: nothing is written for the empty store, so there
    is no file to load back. *)
Lemma empty_store_has_no_round_trip :
  ~ round_trips sample_repr sample_float (fun _ => true)
      "2024-01-01T00:00:00"%string (1 # 2) [] []
      "out.json"%string "out.json"%string empty_results idle_session.
Proof.
  intros (doc & entry & Hsave & _). cbv in Hsave. discriminate.
Qed.

(** The round trip of the sample store. *)
Lemma saved_results_round_trip_witness :
  round_trips sample_repr sample_float (fun _ => true)
    "2024-01-01T00:00:00"%string (1 # 2) [] []
    "out.json"%string "out.json"%string sample_store idle_session.
Proof.
  refine (proj1 (saved_results_round_trip sample_repr sample_float
                   (fun _ => true) "2024-01-01T00:00:00"%string (1 # 2) [] []
                   "out.json"%string "out.json"%string sample_store
                   idle_session _ _ _ _ _ _)).
  - reflexivity.
  - reflexivity.
  - intros [|] kv [<- | []]; reflexivity.
  - reflexivity.
  - discriminate.
  - discriminate.
Defined.

(** A file with a non-numeric key is refused and nothing is appended. *)
Lemma failed_load_keeps_state_witness :
  load_results sample_float (fun _ => true) "in.json"%string
    (Some bad_key_file) idle_session
  = (idle_session, LoadError).
Proof.
  apply (failed_load_keeps_state sample_float (fun _ => true)
           "in.json"%string (Some bad_key_file) idle_session).
  - discriminate.
  - right. exists bad_key_file. split; reflexivity.
Defined.

(** C8, the defect.  [load_results] appends the overlay before it
    refreshes the plot, inside one [try].  For a file that parses and
    whose frequency keys convert, but which holds under some frequency a
    value the overlay pass cannot read (its list comprehension raises),
    the refresh raises: the load is reported as an error, and the overlay
    list has nevertheless grown by the new overlay.  [plot_ok] is any
    account of [analyze_and_plot_results] that does not return normally
    when a comprehension raises. *)
Theorem load_error_leaves_overlay (py_float : string -> option Q)
    (plot_ok : Session -> bool) (filename : string) (data : json)
    (fixed_results : LoadedResults) (s : Session) :
  filename <> ""%string ->
  convert_results py_float data = Some fixed_results ->
  (forall s', plot_ok s' = true -> overlays_readable s' = true) ->
  (exists kv,
     In kv (lr_left fixed_results ++ lr_right fixed_results) /\
     overlay_heard_intensities (snd kv) = None) ->
  let out := load_results py_float plot_ok filename (Some data) s in
  snd out = LoadError /\
  test_results (fst out) = test_results s /\
  previous_results (fst out)
    = previous_results s
      ++ [mkPrevious
            (json_get_default data "timestamp"%string (JStr "Unknown"%string))
            (json_get_default data "calibration_volume"%string
               (JNum (1 # 2)))
            fixed_results (basename filename)] /\
  length (previous_results (fst out)) = S (length (previous_results s)) /\
  fst out <> s.
Proof.
  intros Hname Hconv Hplot (kv & Hin & Hraise) out.
  apply String.eqb_neq in Hname.
  set (prev :=
         mkPrevious
           (json_get_default data "timestamp"%string (JStr "Unknown"%string))
           (json_get_default data "calibration_volume"%string (JNum (1 # 2)))
           fixed_results (basename filename)).
  set (s' := mkSession (test_results s) (previous_results s ++ [prev])).
  assert (Hbad : plot_ok s' = false).
  { destruct (plot_ok s') eqn:E; [|reflexivity].
    apply Hplot in E. unfold overlays_readable in E.
    rewrite forallb_forall in E.
    assert (Hp : overlay_readable prev = true).
    { apply E. unfold s'. cbn [previous_results].
      apply in_or_app. right. now left. }
    unfold overlay_readable in Hp. rewrite forallb_forall in Hp.
    specialize (Hp kv Hin). now rewrite Hraise in Hp. }
  assert (Hout : out = (s', LoadError)).
  { unfold out, load_results. rewrite Hname, Hconv.
    fold prev. fold s'. now rewrite Hbad. }
  rewrite Hout. cbn [fst snd]. unfold s'.
  cbn [test_results previous_results].
  split; [reflexivity|]. split; [reflexivity|]. split; [reflexivity|].
  split; [rewrite length_app; cbn [length]; lia|].
  intros Heq. apply (f_equal (fun x => length (previous_results x))) in Heq.
  cbn [previous_results] in Heq. rewrite length_app in Heq.
  cbn [length] in Heq. lia.
Qed.

(** The file [{"results": {"left": {"1000.0": 5}, "right": {}}}] loaded
    into a session without overlays: the error is reported and one
    overlay is left behind. *)
Lemma load_error_leaves_overlay_witness :
  load_results sample_float overlays_readable "in.json"%string
    (Some bad_value_file) idle_session
  = (mkSession empty_results
       [mkPrevious (JStr "Unknown"%string) (JNum (1 # 2))
          (mkLoaded [(1000, JNum 5)] []) "in.json"%string],
     LoadError) /\
  fst (load_results sample_float overlays_readable "in.json"%string
         (Some bad_value_file) idle_session) <> idle_session.
Proof.
  split; [reflexivity|].
  refine (proj2 (proj2 (proj2 (proj2
           (load_error_leaves_overlay sample_float overlays_readable
              "in.json"%string bad_value_file
              (mkLoaded [(1000, JNum 5)] []) idle_session _ _ _ _))))).
  - discriminate.
  - reflexivity.
  - intros s' H. exact H.
  - exists (1000, JNum 5). split; [now left | reflexivity].
Defined.

(** A click 2.8 s into the test lies in both response windows; the
    earlier tone gets it. *)
Example tone_heard_takes_earliest :
  tone_heard overlapping_events 10 (128 # 10) two_trials empty_results
  = ([mkTrial EarLeft 1000 1 (Some true); mkTrial EarRight 1000 1 None],
     mkResults [(1000, [mkEntry 1 true])] []).
Proof. reflexivity. Qed.

(** A click 0.5 s into the test is before every window. *)
Example tone_heard_too_early :
  tone_heard overlapping_events 10 (105 # 10) two_trials empty_results
  = (two_trials, empty_results).
Proof. reflexivity. Qed.

(** The sweep after the click at 2.8 s. *)
Lemma finish_test_resolves_every_trial_witness :
  let ts := [mkTrial EarLeft 1000 1 (Some true); mkTrial EarRight 1000 1 None] in
  let p := mkPlayback None 0 true 1 in
  snd (fst (finish_test overlapping_events p ts empty_results))
  = [mkTrial EarLeft 1000 1 (Some true); mkTrial EarRight 1000 1 (Some false)].
Proof.
  cbv zeta.
  destruct (finish_test_resolves_every_trial overlapping_events
              (mkPlayback None 0 true 1)
              [mkTrial EarLeft 1000 1 (Some true);
               mkTrial EarRight 1000 1 None] empty_results eq_refl)
    as (_ & Hts & _).
  exact Hts.
Defined.

(** The click at 2.8 s, through the theorem: the resolved event is the
    earliest responding one of the sorted list. *)
Lemma tone_heard_resolves_first_pending_witness :
  StronglySorted (fun a b => start_time a < start_time b) overlapping_events /\
  exists ev,
    In ev overlapping_events /\
    forall e, In e overlapping_events ->
              responds_to two_trials ((128 # 10) - 10) e = true ->
              start_time ev <= start_time e.
Proof.
  assert (Hsorted : StronglySorted (fun a b => start_time a < start_time b)
                      overlapping_events).
  { repeat constructor. }
  split; [exact Hsorted|].
  destruct (tone_heard_resolves_first_pending overlapping_events 10
              (128 # 10) two_trials empty_results)
    as [(pre & ev & post & tr & Hev & _ & _ & _ & _ & _ & _ & _ & _ & _ & Hmin)
       | (Hnone & _)].
  - exists ev. split.
    + rewrite Hev. apply in_or_app. right. now left.
    + exact (Hmin Hsorted).
  - exfalso. apply Forall_inv in Hnone. discriminate.
Defined.

(** * Further properties of the code *)

(** ** The cursor under the callback *)

(** X1. A callback never replaces the buffer, never changes the
    calibration volume and never starts playback; it keeps the position
    inside the buffer; and it fills exactly the [f] frames it was asked
    for (the noise draw having [f] values). *)
Theorem audio_callback_keeps_cursor (normal : R -> R -> nat -> list R)
    (f : nat) (p : Playback) :
  let out := fst (audio_callback normal f p) in
  let p' := snd (audio_callback normal f p) in
  current_tone p' = current_tone p /\
  calibration_volume p' = calibration_volume p /\
  (is_playing_tone p' = true -> is_playing_tone p = true) /\
  (forall tone, current_tone p = Some tone ->
     (audio_position p <= length tone)%nat ->
     (audio_position p' <= length tone)%nat) /\
  (length (normal 0%R (1 / 1000)%R f) = f -> length out = f).
Proof.
  cbv zeta. unfold audio_callback.
  destruct (is_playing_tone p) eqn:Hplay;
    [|cbn [fst snd current_tone calibration_volume is_playing_tone
           audio_position]; repeat split; auto; try discriminate; intros; lia].
  destruct (current_tone p) as [tone|] eqn:Htone;
    [|cbn [fst snd current_tone calibration_volume is_playing_tone
           audio_position]; repeat split; auto; intros; discriminate].
  destruct (Nat.ltb_spec 0 (length tone)) as [Hpos|Hemp];
    [|cbn [fst snd current_tone calibration_volume is_playing_tone
           audio_position]; repeat split; auto; intros; lia].
  set (end_pos := Nat.min (audio_position p + f) (length tone)).
  destruct (Nat.ltb_spec (audio_position p) end_pos) as [Hlt|Hge];
    cbn [fst snd current_tone calibration_volume is_playing_tone
         audio_position].
  - repeat split; auto.
    + intros tone' [= <-] _. unfold end_pos. lia.
    + intros _. unfold slice.
      rewrite length_app, length_map, length_firstn, length_skipn,
        repeat_length.
      unfold end_pos. lia.
  - repeat split; auto. intros _. apply repeat_length.
Qed.

(** The noise draw of length [f] at the default state. *)
Lemma audio_callback_keeps_cursor_witness :
  length (fst (audio_callback (fun _ _ n => repeat (1 / 1000)%R n) 4
                 (mkPlayback None 7 false (1 / 2)%R))) = 4%nat.
Proof.
  destruct (audio_callback_keeps_cursor (fun _ _ n => repeat (1 / 1000)%R n) 4
              (mkPlayback None 7 false (1 / 2)%R)) as (_ & _ & _ & _ & Hlen).
  apply Hlen. reflexivity.
Defined.

(** ** A buffer played to its end *)

Lemma run_callbacks_app (normal : nat -> R -> R -> nat -> list R)
    (f a b : nat) :
  forall (i : nat) (p : Playback),
  run_callbacks normal f i (a + b) p =
    (fst (run_callbacks normal f i a p)
       ++ fst (run_callbacks normal f (i + a) b
                 (snd (run_callbacks normal f i a p))),
     snd (run_callbacks normal f (i + a) b
            (snd (run_callbacks normal f i a p)))).
Proof.
  induction a as [|a IH]; intros i p.
  - cbn [Nat.add run_callbacks fst snd app]. rewrite Nat.add_0_r.
    now destruct (run_callbacks normal f i b p).
  - cbn [Nat.add run_callbacks fst snd]. rewrite IH. cbn [fst snd].
    rewrite <- app_assoc. rewrite <- Nat.add_succ_comm. reflexivity.
Qed.

Lemma firstn_plus_split {A : Type} (a b : nat) (l : list A) :
  firstn (a + b) l = firstn a l ++ firstn b (skipn a l).
Proof.
  revert l; induction a as [|a IH]; intros [|x l]; simpl; auto.
  - now destruct b.
  - now rewrite IH.
Qed.

(** A callback with more than [f] samples left copies [f] of them. *)
Lemma audio_callback_block (normal : R -> R -> nat -> list R) (f : nat)
    (stream : list R) (cv : R) (pos : nat) :
  (0 < f)%nat -> (pos + f < length stream)%nat ->
  audio_callback normal f (mkPlayback (Some stream) pos true cv) =
    (map (fun x => (x * cv)%R) (firstn f (skipn pos stream)),
     mkPlayback (Some stream) (pos + f) true cv).
Proof.
  intros Hf Hin. unfold audio_callback.
  cbn [is_playing_tone current_tone audio_position calibration_volume].
  destruct (Nat.ltb_spec 0 (length stream)) as [_|]; [|lia].
  replace (Nat.min (pos + f) (length stream)) with (pos + f)%nat by lia.
  destruct (Nat.ltb_spec pos (pos + f)) as [_|]; [|lia].
  destruct (Nat.leb_spec (length stream) (pos + f)) as [|_]; [lia|].
  unfold slice. replace (pos + f - pos)%nat with f by lia.
  replace (f - f)%nat with 0%nat by lia. cbn [repeat].
  now rewrite app_nil_r.
Qed.

(** While whole blocks remain, each callback copies [f] samples. *)
Lemma run_callbacks_inside (normal : nat -> R -> R -> nat -> list R)
    (f : nat) (stream : list R) (cv : R) :
  (0 < f)%nat ->
  forall (n i pos : nat),
  (pos + n * f < length stream)%nat ->
  run_callbacks normal f i n (mkPlayback (Some stream) pos true cv) =
    (map (fun x => (x * cv)%R) (firstn (n * f) (skipn pos stream)),
     mkPlayback (Some stream) (pos + n * f) true cv).
Proof.
  intros Hf. induction n as [|n IH]; intros i pos Hin.
  - cbn [run_callbacks Nat.mul firstn map]. now rewrite Nat.add_0_r.
  - cbn [run_callbacks].
    rewrite audio_callback_block by (simpl in Hin; lia).
    cbn [fst snd]. rewrite IH by (simpl in Hin; lia). cbn [fst snd].
    rewrite <- map_app.
    replace (pos + S n * f)%nat with (pos + f + n * f)%nat by (simpl; lia).
    change (S n * f)%nat with (f + n * f)%nat.
    rewrite (firstn_plus_split f (n * f)), skipn_skipn.
    now rewrite (Nat.add_comm f pos).
Qed.

(** The callback that reaches the end of the buffer. *)
Lemma audio_callback_last (normal : R -> R -> nat -> list R) (f : nat)
    (stream : list R) (cv : R) (pos : nat) :
  (pos < length stream)%nat -> (length stream <= pos + f)%nat ->
  audio_callback normal f (mkPlayback (Some stream) pos true cv) =
    (map (fun x => (x * cv)%R) (skipn pos stream)
       ++ repeat 0%R (pos + f - length stream),
     mkPlayback (Some stream) (length stream) false cv).
Proof.
  intros Hpos Hend. unfold audio_callback.
  cbn [is_playing_tone current_tone audio_position calibration_volume].
  destruct (Nat.ltb_spec 0 (length stream)) as [_|]; [|lia].
  replace (Nat.min (pos + f) (length stream)) with (length stream) by lia.
  destruct (Nat.ltb_spec pos (length stream)) as [_|]; [|lia].
  rewrite Nat.leb_refl. unfold slice.
  rewrite firstn_all2 by (rewrite length_skipn; lia).
  do 3 f_equal. lia.
Qed.

(** X2. Playing a non-empty compiled stream from [start_test_playback]
    with blocks of [f > 0] frames: the callbacks of the first
    [ceil(len / f)] blocks deliver every sample of the stream exactly
    once, in order, each times the calibration volume, followed only by
    zero padding; playback stays active through all earlier blocks, with
    the position at a multiple of [f], and the last of these callbacks
    clears the active flag with the position at the end of the stream. *)
Theorem playback_delivers_whole_stream
    (normal : nat -> R -> R -> nat -> list R) (f : nat) (stream : list R)
    (p : Playback) :
  (0 < f)%nat -> (0 < length stream)%nat ->
  let n := ((length stream - 1) / f)%nat in
  let cv := calibration_volume p in
  run_callbacks normal f 0 (S n) (start_test_playback stream p) =
    (map (fun x => (x * cv)%R) stream
       ++ repeat 0%R (S n * f - length stream),
     mkPlayback (Some stream) (length stream) false cv) /\
  (forall j, (j <= n)%nat ->
     snd (run_callbacks normal f 0 j (start_test_playback stream p)) =
       mkPlayback (Some stream) (j * f) true cv).
Proof.
  intros Hf Hlen n cv.
  assert (Hn : (n * f <= length stream - 1 < S n * f)%nat).
  { unfold n. pose proof (Nat.div_mod_eq (length stream - 1) f) as E.
    pose proof (Nat.mod_upper_bound (length stream - 1) f) as U.
    simpl. nia. }
  assert (Hin : forall j, (j <= n)%nat -> (0 + j * f < length stream)%nat)
    by (intros j Hj; nia).
  unfold start_test_playback. fold cv. split.
  - replace (S n) with (n + 1)%nat by lia.
    rewrite run_callbacks_app.
    rewrite (run_callbacks_inside normal f stream cv Hf n 0 0)
      by (apply Hin; lia).
    cbn [fst snd run_callbacks Nat.add skipn].
    rewrite audio_callback_last by (simpl in Hn; lia).
    cbn [fst snd]. rewrite app_nil_r, app_assoc, <- map_app, firstn_skipn.
    do 3 f_equal. simpl. lia.
  - intros j Hj.
    rewrite (run_callbacks_inside normal f stream cv Hf j 0 0)
      by (apply Hin; exact Hj).
    reflexivity.
Qed.

(** Five samples in blocks of two: three callbacks, one frame of padding. *)
Lemma playback_delivers_whole_stream_witness :
  run_callbacks (fun _ _ _ n => repeat (1 / 1000)%R n) 2 0 3
    (start_test_playback [1; 2; 3; 4; 5]%R (mkPlayback None 0 false 1))
  = (map (fun x => (x * 1)%R) [1; 2; 3; 4; 5]%R ++ [0%R],
     mkPlayback (Some [1; 2; 3; 4; 5]%R) 5 false 1).
Proof.
  destruct (playback_delivers_whole_stream
              (fun _ _ _ n => repeat (1 / 1000)%R n) 2 [1; 2; 3; 4; 5]%R
              (mkPlayback None 0 false 1)) as [H _];
    [lia | simpl; lia |].
  exact H.
Defined.

(** ** The progress monitor *)

Lemma audio_callback_in_stream (normal : R -> R -> nat -> list R) (f : nat)
    (stream : list R) (p : Playback) :
  cursor_in_stream stream p ->
  cursor_in_stream stream (snd (audio_callback normal f p)).
Proof.
  intros [Htone Hpos]. unfold cursor_in_stream, audio_callback.
  rewrite Htone.
  destruct (is_playing_tone p) eqn:Hplay;
    [|cbn [snd current_tone is_playing_tone]; split;
      [auto | discriminate]].
  specialize (Hpos eq_refl).
  destruct (Nat.ltb_spec 0 (length stream)) as [_|]; [|lia].
  destruct (Nat.ltb_spec (audio_position p)
              (Nat.min (audio_position p + f) (length stream))) as [Hlt|Hge];
    cbn [snd current_tone is_playing_tone audio_position].
  - split; [auto|].
    destruct (Nat.leb_spec (length stream)
                (Nat.min (audio_position p + f) (length stream)));
      [discriminate | intros _; lia].
  - split; [auto | intros _; exact Hpos].
Qed.

Lemma run_callbacks_in_stream (normal : nat -> R -> R -> nat -> list R)
    (f : nat) (stream : list R) :
  forall (n i : nat) (p : Playback),
  cursor_in_stream stream p ->
  cursor_in_stream stream (snd (run_callbacks normal f i n p)).
Proof.
  induction n as [|n IH]; intros i p Hp; cbn [run_callbacks snd]; auto.
  apply IH. now apply audio_callback_in_stream.
Qed.

(** X3. At every tick of the progress monitor during the playback of a
    non-empty compiled stream, after any number of callbacks: either the
    active flag is cleared and the monitor finishes the test, or the
    monitor shows a progress in [0, 100). *)
Theorem monitor_progress_in_range
    (normal : nat -> R -> R -> nat -> list R) (f n : nat) (stream : list R)
    (p : Playback) :
  (0 < length stream)%nat ->
  let p' := snd (run_callbacks normal f 0 n (start_test_playback stream p)) in
  (monitor_test_progress (Some stream) p' = TestFinished /\
   is_playing_tone p' = false) \/
  (exists q, monitor_test_progress (Some stream) p' = TestRunning (Some q) /\
             0 <= q /\ q < 100).
Proof.
  intros Hlen p'.
  assert (Hinv : cursor_in_stream stream p').
  { apply run_callbacks_in_stream. split; [reflexivity|].
    intros _. exact Hlen. }
  destruct Hinv as [_ Hpos]. unfold monitor_test_progress.
  destruct (is_playing_tone p') eqn:Hplay; [right | left; auto].
  specialize (Hpos eq_refl).
  destruct (Nat.ltb_spec 0 (length stream)) as [_|]; [|lia].
  eexists. split; [reflexivity|].
  set (a := inject_Z (Z.of_nat (audio_position p'))).
  set (b := inject_Z (Z.of_nat (length stream))).
  assert (Ha : 0 <= a) by (unfold a, Qle; simpl; lia).
  assert (Hb : 0 < b) by (unfold b, Qlt; simpl; lia).
  assert (Hab : a < b) by (unfold a, b; rewrite <- Zlt_Qlt; lia).
  assert (H0 : 0 <= a / b).
  { apply Qle_shift_div_l; [exact Hb | now rewrite Qmult_0_l]. }
  assert (H1 : a / b < 1).
  { apply Qlt_shift_div_r; [exact Hb | now rewrite Qmult_1_l]. }
  split; lra.
Qed.

(** Half-way through four samples. *)
Lemma monitor_progress_in_range_witness :
  exists q,
    monitor_test_progress (Some [1; 2; 3; 4]%R)
      (snd (run_callbacks (fun _ _ _ n => repeat (1 / 1000)%R n) 2 0 1
              (start_test_playback [1; 2; 3; 4]%R
                 (mkPlayback None 0 false 1))))
    = TestRunning (Some q) /\ 0 <= q /\ q < 100.
Proof.
  destruct (monitor_progress_in_range
              (fun _ _ _ n => repeat (1 / 1000)%R n) 2 1 [1; 2; 3; 4]%R
              (mkPlayback None 0 false 1)) as [[H _] | H];
    [simpl; lia | discriminate H | exact H].
Defined.

(** X4. Edge: an empty buffer is never finished.  The callback treats it
    as idle and leaves the active flag set, so after any number of
    callbacks playback is still marked active and the monitor never
    reaches [finish_test]. *)
Theorem empty_stream_never_finishes
    (normal : nat -> R -> R -> nat -> list R) (f : nat) (p : Playback) :
  forall n i,
  let p' := snd (run_callbacks normal f i n (start_test_playback [] p)) in
  is_playing_tone p' = true /\
  monitor_test_progress (Some []) p' = TestRunning None.
Proof.
  assert (H : forall n i pos,
            snd (run_callbacks normal f i n
                   (mkPlayback (Some []) pos true (calibration_volume p)))
            = mkPlayback (Some []) (match n with O => pos | S _ => 0 end) true
                (calibration_volume p)).
  { induction n as [|n IH]; intros i pos; cbn [run_callbacks snd];
      [reflexivity|].
    unfold audio_callback at 1.
    cbn [is_playing_tone current_tone length Nat.ltb Nat.leb snd
         audio_position calibration_volume].
    rewrite IH. now destruct n. }
  intros n i. cbv zeta. unfold start_test_playback. rewrite H.
  split; reflexivity.
Qed.

(** ** Trials and the store over a test run *)

Lemma set_heard_split (b : bool) (ts : list Trial) (i : nat) (tr : Trial) :
  nth_error ts i = Some tr ->
  exists l1 l2,
    ts = l1 ++ tr :: l2 /\ length l1 = i /\
    set_heard i b ts = l1 ++ mark tr b :: l2.
Proof.
  intros H. apply nth_error_split in H. destruct H as (l1 & l2 & -> & <-).
  exists l1, l2. repeat split. apply set_heard_middle.
Qed.

Lemma set_heard_tuples (i : nat) (b : bool) (ts : list Trial) :
  map trial_tuple (set_heard i b ts) = map trial_tuple ts.
Proof.
  revert i; induction ts as [|t ts IH]; intros [|i]; simpl; auto.
  now rewrite IH.
Qed.

(** One step of either loop: a pending trial is marked and stored. *)
Lemma mark_keeps_resolved (i j : nat) (b : bool) (ts : list Trial)
    (tr t : Trial) :
  nth_error ts i = Some tr -> heard tr = None ->
  nth_error ts j = Some t -> heard t <> None ->
  nth_error (set_heard i b ts) j = Some t.
Proof.
  intros Hi Hnone Hj Hres.
  destruct (Nat.eq_dec j i) as [->|Hne].
  - congruence.
  - now rewrite set_heard_other.
Qed.

Lemma finish_test_sweep_keeps (events : list Event) :
  forall (ts : list Trial) (r : Results),
  let ts' := fst (finish_test_sweep events ts r) in
  let r' := snd (finish_test_sweep events ts r) in
  map trial_tuple ts' = map trial_tuple ts /\
  (forall j t, nth_error ts j = Some t -> heard t <> None ->
               nth_error ts' j = Some t) /\
  (forall e f, exists added,
      results_get r' e f = results_get r e f ++ added).
Proof.
  induction events as [|ev events IH]; intros ts r; cbn [finish_test_sweep].
  - cbn [fst snd]. repeat split; auto.
    intros e f. exists []. now rewrite app_nil_r.
  - destruct (test_data ts ev) as [tr|] eqn:Htr; [|apply IH].
    destruct (heard tr) eqn:Hh; [apply IH|].
    specialize (IH (set_heard (test_index ev) false ts)
                  (store_result r tr false)).
    cbv zeta in IH. destruct IH as (Htup & Hkeep & Hadd).
    cbv zeta. split; [|split].
    + now rewrite Htup, set_heard_tuples.
    + intros j t Hj Hres. apply Hkeep; auto.
      now apply (mark_keeps_resolved (test_index ev) j false ts tr t).
    + intros e f. destruct (Hadd e f) as [added Ha]. rewrite Ha.
      rewrite results_get_store.
      destruct (Ear_eqb e (ear tr) && Qeq_bool (frequency tr) f).
      * eexists. now rewrite <- app_assoc.
      * eexists. reflexivity.
Qed.

(** X5. Neither a click nor the end-of-test sweep (over any event list)
    rewrites history: the ear, frequency and intensity of every trial are
    kept, a trial whose [heard] is already [True] or [False] is left as it
    is, and every store entry only grows at its end. *)
Theorem outcomes_are_never_rewritten (events : list Event)
    (test_start_time now : Q) (p : Playback) (ts : list Trial) (r : Results) :
  let clicked := tone_heard events test_start_time now ts r in
  let swept := finish_test events p ts r in
  (map trial_tuple (fst clicked) = map trial_tuple ts /\
   (forall j t, nth_error ts j = Some t -> heard t <> None ->
                nth_error (fst clicked) j = Some t) /\
   (forall e f, exists added,
       results_get (snd clicked) e f = results_get r e f ++ added)) /\
  (map trial_tuple (snd (fst swept)) = map trial_tuple ts /\
   (forall j t, nth_error ts j = Some t -> heard t <> None ->
                nth_error (snd (fst swept)) j = Some t) /\
   (forall e f, exists added,
       results_get (snd swept) e f = results_get r e f ++ added)).
Proof.
  cbv zeta. split.
  - unfold tone_heard.
    destruct (tone_heard_scan_spec events (now - test_start_time) ts r)
      as [(pre & ev & post & tr & _ & _ & Hresp & Htr & ->) | [_ ->]];
      cbn [fst snd].
    + unfold responds_to in Hresp. apply andb_true_iff in Hresp.
      destruct Hresp as [_ Hp]. apply pending_iff in Hp.
      destruct Hp as (tr' & Htr' & Hnone).
      assert (tr' = tr) by congruence. subst tr'.
      split; [apply set_heard_tuples|]. split.
      * intros j t Hj Hres.
        now apply (mark_keeps_resolved (test_index ev) j true ts tr t).
      * intros e f. rewrite results_get_store.
        destruct (Ear_eqb e (ear tr) && Qeq_bool (frequency tr) f);
          eexists; [reflexivity | now rewrite app_nil_r].
    + repeat split; auto. intros e f. exists []. now rewrite app_nil_r.
  - unfold finish_test.
    pose proof (finish_test_sweep_keeps events ts r) as H. cbv zeta in H.
    destruct (finish_test_sweep events ts r) as [ts' r']. exact H.
Qed.

(** A second click in the window of an answered tone leaves the trial. *)
Lemma outcomes_are_never_rewritten_witness :
  nth_error
    (fst (tone_heard [mkEvent 1 2 0] 0 (15 # 10)
            [mkTrial EarLeft 1000 1 (Some true)]
            (mkResults [(1000, [mkEntry 1 true])] []))) 0
  = Some (mkTrial EarLeft 1000 1 (Some true)).
Proof.
  destruct (outcomes_are_never_rewritten [mkEvent 1 2 0] 0 (15 # 10)
              (mkPlayback None 0 false 1)
              [mkTrial EarLeft 1000 1 (Some true)]
              (mkResults [(1000, [mkEntry 1 true])] []))
    as [(_ & Hkeep & _) _].
  apply Hkeep; [reflexivity | discriminate].
Defined.

(** ** One record per trial *)

Lemma keyed_mark (e : Ear) (f : Q) (t : Trial) (b : bool) :
  keyed e f (mark t b) = keyed e f t.
Proof. reflexivity. Qed.

Lemma store_matches_mark (ts : list Trial) (r : Results) (i : nat)
    (tr : Trial) (b : bool) :
  nth_error ts i = Some tr -> heard tr = None ->
  store_matches ts r ->
  store_matches (set_heard i b ts) (store_result r tr b).
Proof.
  intros Hi Hnone Hm e f.
  destruct (set_heard_split b ts i tr Hi) as (l1 & l2 & Hts & _ & ->).
  specialize (Hm e f). rewrite Hts in Hm.
  rewrite filter_app, map_app in Hm. cbn [filter] in Hm.
  unfold resolved at 2, unanswered in Hm. rewrite Hnone in Hm.
  rewrite andb_false_r in Hm.
  rewrite results_get_store, filter_app, map_app. cbn [filter].
  rewrite keyed_mark. unfold resolved at 2, unanswered. cbn [mark heard negb].
  rewrite andb_true_r. fold (keyed e f tr).
  destruct (keyed e f tr); [|exact Hm].
  cbn [map]. unfold entry_of at 2. cbn [mark heard intensity].
  eapply Permutation_trans; [apply Permutation_app_comm|]. cbn [app].
  apply Permutation_cons_app. exact Hm.
Qed.

Lemma store_matches_tone_heard (events : list Event) (start now : Q)
    (ts : list Trial) (r : Results) :
  store_matches ts r ->
  store_matches (fst (tone_heard events start now ts r))
    (snd (tone_heard events start now ts r)).
Proof.
  intros Hm. unfold tone_heard.
  destruct (tone_heard_scan_spec events (now - start) ts r)
    as [(pre & ev & post & tr & _ & _ & Hresp & Htr & ->) | [_ ->]];
    cbn [fst snd]; [|exact Hm].
  unfold responds_to in Hresp. apply andb_true_iff in Hresp.
  destruct Hresp as [_ Hp]. apply pending_iff in Hp.
  destruct Hp as (tr' & Htr' & Hnone).
  assert (tr' = tr) by congruence. subst tr'.
  now apply store_matches_mark.
Qed.

Lemma store_matches_press (events : list Event) (start : Q) (nows : list Q) :
  forall st,
  store_matches (fst st) (snd st) ->
  store_matches (fst (press_heard events start nows st))
    (snd (press_heard events start nows st)).
Proof.
  unfold press_heard.
  induction nows as [|now nows IH]; intros st Hm; cbn [fold_left]; auto.
  apply IH. now apply store_matches_tone_heard.
Qed.

Lemma press_heard_length (events : list Event) (start : Q) (nows : list Q) :
  forall st,
  length (fst (press_heard events start nows st)) = length (fst st).
Proof.
  unfold press_heard.
  induction nows as [|now nows IH]; intros st; cbn [fold_left]; auto.
  rewrite IH. apply tone_heard_length.
Qed.

Lemma press_heard_tuples (events : list Event) (start : Q) (nows : list Q) :
  forall st,
  map trial_tuple (fst (press_heard events start nows st))
  = map trial_tuple (fst st).
Proof.
  unfold press_heard.
  induction nows as [|now nows IH]; intros st; cbn [fold_left]; auto.
  rewrite IH. unfold tone_heard.
  destruct (tone_heard_scan_spec events (now - start) (fst st) (snd st))
    as [(pre & ev & post & tr & _ & _ & _ & _ & ->) | [_ ->]];
    cbn [fst]; auto.
  apply set_heard_tuples.
Qed.

(** The sweep completes a matching store. *)
Lemma swept_store_matches (e : Ear) (f : Q) (ts : list Trial) :
  Permutation
    (map entry_of (filter (fun t => keyed e f t && resolved t) ts)
       ++ map (fun t => mkEntry (intensity t) false)
            (filter (keyed e f) (filter unanswered ts)))
    (map entry_of (filter (keyed e f) (map sweep_trial ts))).
Proof.
  induction ts as [|t ts IH]; cbn [filter map app]; [constructor|].
  destruct (heard t) eqn:Hh.
  - assert (Hr : resolved t = true)
      by (unfold resolved, unanswered; now rewrite Hh).
    assert (Hu : unanswered t = false) by (unfold unanswered; now rewrite Hh).
    assert (Hs : sweep_trial t = t) by (unfold sweep_trial; now rewrite Hh).
    rewrite Hr, Hu, Hs, andb_true_r.
    destruct (keyed e f t); cbn [map app]; [apply perm_skip|]; exact IH.
  - assert (Hr : resolved t = false)
      by (unfold resolved, unanswered; now rewrite Hh).
    assert (Hu : unanswered t = true) by (unfold unanswered; now rewrite Hh).
    assert (Hs : sweep_trial t = mark t false)
      by (unfold sweep_trial; now rewrite Hh).
    rewrite Hr, Hu, Hs, andb_false_r. cbn [filter]. rewrite keyed_mark.
    destruct (keyed e f t); cbn [map]; [|exact IH].
    change (entry_of (mark t false)) with (mkEntry (intensity t) false).
    apply Permutation_sym, Permutation_cons_app, Permutation_sym. exact IH.
Qed.

Lemma fresh_trials_unresolved (e : Ear) (f : Q) (ts : list Trial) :
  Forall (fun t => heard t = None) ts ->
  filter (fun t => keyed e f t && resolved t) ts = [].
Proof.
  induction 1 as [|t l Ht _ IH]; cbn [filter]; auto.
  assert (Hr : resolved t = false)
    by (unfold resolved, unanswered; now rewrite Ht).
  now rewrite Hr, andb_false_r.
Qed.

(** X6. A whole test run, from fresh trials and the store that
    [start_hearing_test] resets, through any presses of the button to the
    sweep (event [k] carrying trial [k]): every trial ends resolved with
    its ear, frequency and intensity unchanged, and under every
    [(ear, frequency)] the store holds exactly one record per trial of
    that key, carrying the trial's intensity and its final [heard]. *)
Theorem test_run_stores_each_trial_once (events : list Event) (start : Q)
    (nows : list Q) (p : Playback) (ts : list Trial) :
  Forall (fun t => heard t = None) ts ->
  map test_index events = seq 0 (length ts) ->
  let st := press_heard events start nows (ts, empty_results) in
  let fin := finish_test events p (fst st) (snd st) in
  let ts' := snd (fst fin) in
  let r' := snd fin in
  Forall (fun t => resolved t = true) ts' /\
  map trial_tuple ts' = map trial_tuple ts /\
  (forall e f,
     Permutation (results_get r' e f)
       (map entry_of (filter (keyed e f) ts'))) /\
  (forall e f,
     length (results_get r' e f) = length (filter (keyed e f) ts)).
Proof.
  intros Hfresh Hidx st fin ts' r'.
  assert (Hinit : store_matches (fst (ts, empty_results))
                    (snd (ts, empty_results))).
  { intros e f. cbn [fst snd].
    rewrite (fresh_trials_unresolved e f ts Hfresh).
    destruct e; constructor. }
  pose proof (store_matches_press events start nows _ Hinit) as Hm.
  fold st in Hm.
  assert (Hidx' : map test_index events
                  = seq (length (@nil Trial)) (length (fst st))).
  { unfold st. rewrite press_heard_length. exact Hidx. }
  pose proof (finish_test_sweep_seq events [] (fst st) (snd st) Hidx') as Hs.
  cbn [app] in Hs.
  assert (Hts : ts' = map sweep_trial (fst st)).
  { unfold ts', fin, finish_test. now rewrite Hs. }
  assert (Hr : r' = fold_left (fun acc t => store_result acc t false)
                      (filter unanswered (fst st)) (snd st)).
  { unfold r', fin, finish_test. now rewrite Hs. }
  assert (Htup : map trial_tuple ts' = map trial_tuple ts).
  { rewrite Hts, map_map.
    transitivity (map trial_tuple (fst st)).
    - apply map_ext. intros t. unfold sweep_trial. now destruct (heard t).
    - unfold st. apply press_heard_tuples. }
  assert (Hperm : forall e f,
            Permutation (results_get r' e f)
              (map entry_of (filter (keyed e f) ts'))).
  { intros e f. rewrite Hr, Hts, results_get_fold_store.
    eapply Permutation_trans; [|apply swept_store_matches].
    apply Permutation_app_tail. apply Hm. }
  split; [|split; [exact Htup | split; [exact Hperm|]]].
  - rewrite Hts. apply Forall_forall. intros t Ht.
    apply in_map_iff in Ht. destruct Ht as (t0 & <- & _).
    unfold resolved, unanswered, sweep_trial.
    destruct (heard t0) eqn:E; [now rewrite E | reflexivity].
  - intros e f. rewrite (Permutation_length (Hperm e f)), length_map.
    assert (Hk : forall l1 l2 : list Trial,
              map trial_tuple l1 = map trial_tuple l2 ->
              length (filter (keyed e f) l1) = length (filter (keyed e f) l2)).
    { induction l1 as [|a l1 IH]; intros [|b l2] H; try discriminate; auto.
      cbn [map] in H. injection H as Hab Hrest. cbn [filter].
      assert (Hkey : keyed e f a = keyed e f b).
      { unfold keyed. unfold trial_tuple in Hab.
        assert (He : ear a = ear b) by congruence.
        assert (Hf : frequency a = frequency b) by congruence.
        now rewrite He, Hf. }
      rewrite Hkey. destruct (keyed e f b); cbn [length]; auto. }
    now apply Hk.
Qed.

(** The run of the two trials with one click at 2.8 s. *)
Lemma test_run_stores_each_trial_once_witness :
  length (results_get
            (snd (finish_test overlapping_events (mkPlayback None 0 true 1)
                    (fst (press_heard overlapping_events 10 [128 # 10]
                            (two_trials, empty_results)))
                    (snd (press_heard overlapping_events 10 [128 # 10]
                            (two_trials, empty_results))))) EarLeft 1000)
  = length (filter (keyed EarLeft 1000) two_trials).
Proof.
  destruct (test_run_stores_each_trial_once overlapping_events 10
              [128 # 10] (mkPlayback None 0 true 1) two_trials)
    as (_ & _ & _ & H).
  - repeat constructor.
  - reflexivity.
  - exact (H EarLeft 1000).
Defined.

(** ** The planner in full mode *)

Section PlannerFull.

Variable np_log10 : Q -> Q.
Variable np_logspace : Q -> Q -> nat -> list Q.
Variable shuffle : list Trial -> list Trial.
Hypothesis shuffle_permutation : forall l, Permutation l (shuffle l).

(** X7. Every mode other than the exact string ['quick'] is the full
    test: the planner yields [2 * len(frequency_bands) *
    len(intensity_levels)] trials, a reordering of the cross product of
    the two ears, the configured bands and the configured levels, all
    with [heard] unset; numpy's [logspace] is not consulted. *)
Theorem full_sequence_is_cross_product
    (frequency_bands intensity_levels : list Q) (mode : string) :
  mode <> "quick"%string ->
  let ts := create_test_sequence np_log10 np_logspace shuffle
              frequency_bands intensity_levels mode in
  length ts = (2 * length frequency_bands * length intensity_levels)%nat /\
  Permutation (map trial_tuple ts)
    (list_prod (list_prod [EarLeft; EarRight] frequency_bands)
       intensity_levels) /\
  Forall (fun t => heard t = None) ts.
Proof.
  intros Hmode. apply String.eqb_neq in Hmode. cbv zeta.
  unfold create_test_sequence. rewrite Hmode.
  set (plain := cross_product frequency_bands intensity_levels).
  assert (Hperm : Permutation (shuffle plain) plain)
    by (apply Permutation_sym, shuffle_permutation).
  split; [|split].
  - rewrite (Permutation_length Hperm), <- (length_map trial_tuple).
    unfold plain. rewrite cross_product_tuples, !length_prod.
    cbn [length]. lia.
  - rewrite <- cross_product_tuples. fold plain. now apply Permutation_map.
  - eapply Permutation_Forall; [apply Permutation_sym; exact Hperm|].
    apply cross_product_unset.
Qed.

End PlannerFull.

(** Three bands and two levels, with the mode written ['Quick']. *)
Lemma full_sequence_is_cross_product_witness :
  length (create_test_sequence (fun x => x) (fun a b n => repeat a n)
            (@rev Trial) [250 # 1; 1000; 4000] [1 # 2; 1]
            "Quick"%string) = 12%nat.
Proof.
  destruct (full_sequence_is_cross_product (fun x => x)
              (fun a b n => repeat a n) (@rev Trial)
              (fun l => Permutation_rev l)
              [250 # 1; 1000; 4000] [1 # 2; 1] "Quick"%string)
    as (Hlen & _); [discriminate|].
  exact Hlen.
Defined.

(** ** The softest tone *)

Lemma refade_samples (peak freq : R) (t envelope : list R) :
  map (fun xe => (fst xe * snd xe)%R)
    (combine (sine_samples peak freq t envelope) envelope)
  = map (fun te => (peak * sin (2 * PI * freq * fst te)
                      * (snd te * snd te))%R) (combine t envelope).
Proof.
  unfold sine_samples.
  revert envelope; induction t as [|a t IH]; intros [|e envelope];
    cbn [combine map fst snd]; auto.
  f_equal; [ring | apply IH].
Qed.

(** X8. The softest-tone buffer is 5 seconds of the sine at the scale
    [volume * 0.01 * 100^0.1], but its fade is applied twice: it is
    faded inside [generate_tone] and multiplied by the same envelope
    again, so each sample carries the square of the envelope value and
    the ramps are quadratic, not linear.  No sample exceeds the scale. *)
Theorem softest_tone_is_faded_twice (cfg : Config) (volume cal_freq : R) :
  (0 < sample_rate cfg)%Z -> fade_ok cfg (sample_count cfg 5) ->
  (0 < volume)%R ->
  exists buf envelope,
    play_softest_tone cfg volume cal_freq = Some buf /\
    fade_envelope (Z.to_nat (sample_count cfg 5)) (fade_samples cfg)
      = Some envelope /\
    let peak := (volume * (1 / 100) * Rpower 100 (1 / 10))%R in
    buf = map (fun te =>
                 (peak * sin (2 * PI * cal_freq * fst te)
                    * (snd te * snd te))%R)
            (combine (linspace 0 (Q2R 5) (Z.to_nat (sample_count cfg 5)))
               envelope) /\
    length buf = Z.to_nat (sample_count cfg 5) /\
    Forall (fun x => (Rabs x <= peak)%R) buf.
Proof.
  intros Hsr Hf Hvol.
  assert (Hn : (0 <= sample_count cfg 5)%Z)
    by (apply sample_count_nonneg; [assumption | discriminate]).
  destruct (fade_envelope_ok cfg _ Hn Hf) as [envelope He].
  pose proof (fade_envelope_length _ _ _ He) as Hel.
  pose proof (fade_envelope_range _ _ _ He) as Her.
  unfold play_softest_tone, generate_tone.
  destruct (sample_count cfg 5 <? 0)%Z eqn:E; [apply Z.ltb_lt in E; lia|].
  rewrite He, actual_volume_log by (assumption || rlra).
  set (n := Z.to_nat (sample_count cfg 5)) in *.
  set (t := linspace 0 (Q2R 5) n).
  assert (Htl : length t = n) by apply linspace_length.
  rewrite sine_samples_length by (rewrite Htl; exact Hel).
  rewrite Htl, He.
  exists (map (fun xe => (fst xe * snd xe)%R)
            (combine (sine_samples (log_volume volume (1 / 10)) cal_freq t
                        envelope) envelope)), envelope.
  split; [reflexivity|]. split; [reflexivity|]. cbv zeta.
  fold (log_volume volume (1 / 10)).
  set (peak := log_volume volume (1 / 10)).
  assert (Hbuf :
    map (fun xe => (fst xe * snd xe)%R)
      (combine (sine_samples peak cal_freq t envelope) envelope)
    = map (fun te => (peak * sin (2 * PI * cal_freq * fst te)
                        * (snd te * snd te))%R) (combine t envelope)).
  { apply refade_samples. }
  split; [exact Hbuf|]. split.
  - rewrite Hbuf, length_map, length_combine. lia.
  - rewrite Hbuf. apply Forall_forall. intros x Hx.
    apply in_map_iff in Hx. destruct Hx as ([ti e] & <- & Hin). cbn [fst snd].
    apply in_combine_r in Hin. rewrite Forall_forall in Her.
    specialize (Her e Hin).
    pose proof (SIN_bound (2 * PI * cal_freq * ti)) as Hsin.
    pose proof (log_volume_pos volume (1 / 10) Hvol) as Hp. fold peak in Hp.
    assert (He2 : (0 <= e * e <= 1)%R) by Lra.nra.
    rewrite !Rabs_mult, (Rabs_right peak) by rlra.
    assert (H1 : (Rabs (sin (2 * PI * cal_freq * ti)) <= 1)%R)
      by (apply Rabs_le; rlra).
    assert (H2 : (Rabs e * Rabs e <= 1)%R).
    { rewrite <- Rabs_mult. apply Rabs_le. rlra. }
    pose proof (Rabs_pos (sin (2 * PI * cal_freq * ti))).
    pose proof (Rabs_pos e).
    assert (H3 : (Rabs (sin (2 * PI * cal_freq * ti)) * (Rabs e * Rabs e)
                  <= 1 * 1)%R).
    { apply Rmult_le_compat; auto. apply Rmult_le_pos; auto. }
    rewrite Rmult_assoc.
    replace peak with (peak * (1 * 1))%R at 2 by ring.
    apply Rmult_le_compat_l; [rlra | exact H3].
Qed.

(** The softest tone at the default sample rate, volume 0.5. *)
Lemma softest_tone_is_faded_twice_witness :
  exists buf,
    play_softest_tone default_config (1 / 2) 1000 = Some buf /\
    Z.of_nat (length buf) = 220500%Z.
Proof.
  destruct (softest_tone_is_faded_twice default_config (1 / 2) 1000)
    as (buf & envelope & Hplay & _ & _ & Hlen & _);
    [reflexivity | left; reflexivity | rlra |].
  exists buf. split; [exact Hplay|].
  rewrite Hlen, Z2Nat.id; [reflexivity | discriminate].
Defined.

(** ** Where the tones lie in the compiled stream *)

Lemma stream_loop_prefix (cfg : Config) (cv : R) (uniform : nat -> Q)
    (tests : list Trial) :
  forall (i : nat) (tl tl' : Timeline),
  stream_loop cfg cv uniform i tests tl = Some tl' ->
  exists rest, audio_data tl' = audio_data tl ++ rest.
Proof.
  induction tests as [|test rest IH]; intros i tl tl'; cbn [stream_loop].
  - intros [= <-]. exists []. now rewrite app_nil_r.
  - destruct (py_int (uniform i * inject_Z (sample_rate cfg)) <? 0)%Z;
      [discriminate|].
    destruct (generate_tone cfg cv _ _ _) as [tone|]; [|discriminate].
    destruct (sample_rate cfg =? 0)%Z; [discriminate|].
    intros H. apply IH in H. cbn [audio_data] in H.
    destruct H as [more ->]. eexists. rewrite <- !app_assoc. reflexivity.
Qed.

Lemma slice_inside {A : Type} (pre mid post : list A) :
  firstn (length mid) (skipn (length pre) (pre ++ mid ++ post)) = mid.
Proof.
  rewrite skipn_app, skipn_all, Nat.sub_diag. cbn [app skipn].
  rewrite firstn_app, firstn_all, Nat.sub_diag. cbn [firstn].
  apply app_nil_r.
Qed.

(** The loop puts, for each trial, the zeros of its gap and then its tone
    at the offsets the sample counts give. *)
Lemma stream_loop_tone_at (cfg : Config) (cv : R) (uniform : nat -> Q)
    (tests : list Trial) :
  forall (i : nat) (tl tl' : Timeline),
  stream_loop cfg cv uniform i tests tl = Some tl' ->
  forall (k : nat) (trial : Trial),
  nth_error tests k = Some trial ->
  let g := Z.to_nat (py_int (uniform (i + k)%nat
                               * inject_Z (sample_rate cfg))) in
  let off := (length (audio_data tl)
                + gap_samples_total cfg uniform i (S k)
                + k * tone_samples cfg)%nat in
  exists tone,
    generate_tone cfg cv (Q2R (frequency trial)) (Q2R (intensity trial))
      (tone_duration cfg) = Some tone /\
    (g <= off)%nat /\
    (off + tone_samples cfg <= length (audio_data tl'))%nat /\
    firstn (tone_samples cfg) (skipn off (audio_data tl')) = tone /\
    firstn g (skipn (off - g) (audio_data tl')) = repeat 0%R g.
Proof.
  induction tests as [|test rest IH]; intros i tl tl' Hloop k trial Hk;
    [destruct k; discriminate|].
  cbn [stream_loop] in Hloop.
  destruct (py_int (uniform i * inject_Z (sample_rate cfg)) <? 0)%Z;
    [discriminate|].
  destruct (generate_tone cfg cv (Q2R (frequency test))
              (Q2R (intensity test)) (tone_duration cfg))
    as [tone|] eqn:Htone; [|discriminate].
  destruct (sample_rate cfg =? 0)%Z; [discriminate|].
  pose proof (generate_tone_length _ _ _ _ _ _ Htone) as Hlen.
  fold (tone_samples cfg) in Hlen.
  set (g0 := Z.to_nat (py_int (uniform i * inject_Z (sample_rate cfg)))) in *.
  destruct k as [|k].
  - cbn [nth_error] in Hk. injection Hk as <-.
    apply stream_loop_prefix in Hloop. cbn [audio_data] in Hloop.
    destruct Hloop as [more Haudio].
    cbv zeta. rewrite Nat.add_0_r. cbn [gap_samples_total Nat.mul].
    fold g0. rewrite !Nat.add_0_r.
    exists tone. split; [exact Htone|]. split; [lia|].
    rewrite Haudio. split; [|split].
    + rewrite !length_app, repeat_length. lia.
    + rewrite <- Hlen.
      replace (length (audio_data tl) + g0)%nat
        with (length (audio_data tl ++ repeat 0%R g0))
        by (now rewrite length_app, repeat_length).
      rewrite <- app_assoc. apply slice_inside.
    + replace (length (audio_data tl) + g0 - g0)%nat
        with (length (audio_data tl)) by lia.
      rewrite <- !app_assoc.
      pose proof (slice_inside (audio_data tl) (repeat 0%R g0)
                    (tone ++ more)) as S.
      now rewrite repeat_length in S.
  - cbn [nth_error] in Hk.
    specialize (IH (S i) _ tl' Hloop k trial Hk). cbv zeta in IH.
    cbn [audio_data] in IH.
    rewrite !length_app, repeat_length, Hlen in IH. fold g0 in IH.
    cbv zeta.
    replace (i + S k)%nat with (S i + k)%nat by lia.
    replace (length (audio_data tl)
               + gap_samples_total cfg uniform i (S (S k))
               + S k * tone_samples cfg)%nat
      with (length (audio_data tl) + g0 + tone_samples cfg
              + gap_samples_total cfg uniform (S i) (S k)
              + k * tone_samples cfg)%nat.
    + exact IH.
    + change (gap_samples_total cfg uniform i (S (S k)))
        with (g0 + gap_samples_total cfg uniform (S i) (S k))%nat.
      simpl. lia.
Qed.

(** X9. The compiled stream holds every trial's tone, unaltered, at the
    offset given by the truncated gaps and the tones before it; the
    samples of the gap right before the tone are zeros; and the stream
    ends with [2 * sample_rate] zeros. *)
Theorem compiled_stream_holds_each_tone (cfg : Config) (cv : R)
    (uniform : nat -> Q) (ts : list Trial) (audio : list R)
    (events : list Event) :
  generate_test_audio_stream cfg cv uniform ts = Some (audio, events) ->
  (forall k trial,
     nth_error ts k = Some trial ->
     let g := Z.to_nat (py_int (uniform k * inject_Z (sample_rate cfg))) in
     let off := tone_offset cfg uniform k in
     exists tone,
       generate_tone cfg cv (Q2R (frequency trial)) (Q2R (intensity trial))
         (tone_duration cfg) = Some tone /\
       slice audio off (off + tone_samples cfg) = tone /\
       slice audio (off - g) off = repeat 0%R g) /\
  (let final := Z.to_nat (2 * sample_rate cfg) in
   skipn (length audio - final) audio = repeat 0%R final).
Proof.
  unfold generate_test_audio_stream.
  destruct (stream_loop cfg cv uniform 0 ts (mkTimeline [] [] 0))
    as [tl|] eqn:Hloop; [|discriminate].
  rewrite py_int_double.
  destruct (2 * sample_rate cfg <? 0)%Z; [discriminate|].
  set (final := Z.to_nat (2 * sample_rate cfg)).
  intros [= <- _]. split.
  - intros k trial Hk.
    destruct (stream_loop_tone_at cfg cv uniform ts 0 _ tl Hloop k trial Hk)
      as (tone & Htone & Hg & Hin & Hslice & Hzeros).
    cbn [audio_data length Nat.add] in Hg, Hin, Hslice, Hzeros.
    fold (tone_offset cfg uniform k) in Hg, Hin, Hslice, Hzeros.
    cbv zeta. exists tone. split; [exact Htone|]. unfold slice. split.
    + replace (tone_offset cfg uniform k + tone_samples cfg
                 - tone_offset cfg uniform k)%nat
        with (tone_samples cfg) by lia.
      rewrite skipn_app, firstn_app, length_skipn.
      replace (tone_samples cfg
                 - (length (audio_data tl) - tone_offset cfg uniform k))%nat
        with 0%nat by lia.
      cbn [firstn]. now rewrite app_nil_r.
    + set (g := Z.to_nat (py_int (uniform k * inject_Z (sample_rate cfg))))
        in *.
      replace (tone_offset cfg uniform k
                 - (tone_offset cfg uniform k - g))%nat with g by lia.
      rewrite skipn_app, firstn_app, length_skipn.
      replace (g - (length (audio_data tl)
                      - (tone_offset cfg uniform k - g)))%nat
        with 0%nat by lia.
      cbn [firstn]. now rewrite app_nil_r.
  - rewrite length_app, repeat_length.
    replace (length (audio_data tl) + final - final)%nat
      with (length (audio_data tl)) by lia.
    rewrite skipn_app, skipn_all, Nat.sub_diag. reflexivity.
Qed.

(** The second tone of the two-trial stream. *)
Lemma compiled_stream_holds_each_tone_witness :
  exists audio events tone,
    generate_test_audio_stream default_config (1 / 2)%R steady_gap two_trials
      = Some (audio, events) /\
    generate_tone default_config (1 / 2) (Q2R 1000) (Q2R 1) (33 # 100)
      = Some tone /\
    slice audio (tone_offset default_config steady_gap 1)
      (tone_offset default_config steady_gap 1 + tone_samples default_config)
    = tone.
Proof.
  destruct default_config_compiles as (Hsr & Hd & Hf & _ & _).
  destruct (generate_test_audio_stream_spec default_config (1 / 2)%R
              steady_gap two_trials Hsr Hd Hf ltac:(rlra)
              ltac:(intros j; discriminate)) as (audio & Hgen & _).
  destruct (compiled_stream_holds_each_tone default_config (1 / 2)%R
              steady_gap two_trials audio _ Hgen) as [Htones _].
  destruct (Htones 1%nat (mkTrial EarRight 1000 1 None) eq_refl)
    as (tone & Htone & Hslice & _).
  exists audio. eexists. exists tone. split; [exact Hgen|].
  split; [exact Htone | exact Hslice].
Defined.

(** ** Event times against sample positions *)

Lemma expected_events_nth cfg uniform N :
  forall n i c k ev,
  nth_error (expected_events cfg uniform N i c n) k = Some ev ->
  start_time ev
    == c + gap_total uniform i (S k)
       + inject_Z (Z.of_nat k) * samples_to_seconds cfg N /\
  end_time ev = start_time ev + samples_to_seconds cfg N /\
  test_index ev = (i + k)%nat.
Proof.
  induction n as [|n IH]; intros i c k ev Hk;
    [destruct k; discriminate|].
  cbn [expected_events] in Hk. destruct k as [|k]; cbn [nth_error] in Hk.
  - injection Hk as <-. cbn [start_time end_time test_index gap_total].
    change (inject_Z (Z.of_nat 0)) with 0.
    split; [ring|]. split; [reflexivity | lia].
  - apply IH in Hk. destruct Hk as (Hs & He & Hi).
    split; [|split; [exact He | lia]].
    rewrite Hs. cbn [gap_total].
    rewrite (Nat2Z.inj_succ k). unfold Z.succ. rewrite inject_Z_plus.
    change (inject_Z 1) with 1. ring.
Qed.

(** X10. The event times run ahead of the audio.  Event [k] of a compiled
    timeline lasts exactly the tone's whole samples, and its start time,
    counted in samples, is never before the sample at which tone [k]
    begins in the stream and less than [k + 1] samples after it: the
    event clock adds the drawn gaps while the stream holds them cut to
    whole samples. *)
Theorem event_times_lead_the_stream (cfg : Config) (cv : R)
    (uniform : nat -> Q) (ts : list Trial) (audio : list R)
    (events : list Event) (k : nat) (ev : Event) :
  (0 < sample_rate cfg)%Z -> (forall j, 0 <= uniform j) ->
  generate_test_audio_stream cfg cv uniform ts = Some (audio, events) ->
  nth_error events k = Some ev ->
  let rate := inject_Z (sample_rate cfg) in
  let off := inject_Z (Z.of_nat (tone_offset cfg uniform k)) in
  test_index ev = k /\
  (end_time ev - start_time ev) * rate
    == inject_Z (Z.of_nat (tone_samples cfg)) /\
  off <= start_time ev * rate /\
  start_time ev * rate < off + inject_Z (Z.of_nat (S k)).
Proof.
  intros Hsr Hu Hgen Hk rate off.
  unfold generate_test_audio_stream in Hgen.
  destruct (stream_loop cfg cv uniform 0 ts (mkTimeline [] [] 0))
    as [tl|] eqn:Hloop; [|discriminate].
  destruct (py_int (2 * inject_Z (sample_rate cfg)) <? 0)%Z; [discriminate|].
  injection Hgen as _ Hev. apply stream_loop_spec in Hloop.
  destruct Hloop as [Hevents _]. cbn [tone_events app current_time] in Hevents.
  rewrite <- Hev, Hevents in Hk.
  apply expected_events_nth in Hk. destruct Hk as (Hs & He & Hi).
  pose proof (samples_to_seconds_scale cfg (tone_samples cfg) Hsr) as HN.
  fold rate in HN.
  destruct (gap_samples_bounds cfg uniform Hsr Hu (S k) 0) as (L1 & _ & L3).
  specialize (L3 ltac:(lia)). fold rate in L1, L3.
  assert (Hoff : off == inject_Z (Z.of_nat
                                    (gap_samples_total cfg uniform 0 (S k)))
                        + inject_Z (Z.of_nat k)
                          * inject_Z (Z.of_nat (tone_samples cfg))).
  { unfold off, tone_offset.
    rewrite Nat2Z.inj_add, Nat2Z.inj_mul, inject_Z_plus, inject_Z_mult.
    reflexivity. }
  set (Gs := inject_Z (Z.of_nat (gap_samples_total cfg uniform 0 (S k)))) in *.
  set (Gt := gap_total uniform 0 (S k)) in *.
  set (kq := inject_Z (Z.of_nat k)) in *.
  set (Nq := inject_Z (Z.of_nat (tone_samples cfg))) in *.
  set (sN := samples_to_seconds cfg (tone_samples cfg)) in *.
  assert (Hstart : start_time ev * rate == Gt * rate + kq * Nq).
  { rewrite Hs, <- HN. ring. }
  split; [exact Hi|]. split; [|split].
  - rewrite He, <- HN. ring.
  - rewrite Hstart, Hoff. lra.
  - rewrite Hstart, Hoff, Nat2Z.inj_succ. unfold Z.succ.
    rewrite inject_Z_plus. change (inject_Z 1) with 1.
    fold kq. rewrite Nat2Z.inj_succ in L3. unfold Z.succ in L3.
    rewrite inject_Z_plus in L3. change (inject_Z 1) with 1 in L3.
    fold kq in L3. lra.
Qed.

(** The second event of the two-trial timeline. *)
Lemma event_times_lead_the_stream_witness :
  exists ev,
    test_index ev = 1%nat /\
    inject_Z (Z.of_nat (tone_offset default_config steady_gap 1))
      <= start_time ev * inject_Z (sample_rate default_config).
Proof.
  destruct default_config_compiles as (Hsr & Hd & Hf & _ & _).
  destruct (generate_test_audio_stream_spec default_config (1 / 2)%R
              steady_gap two_trials Hsr Hd Hf ltac:(rlra)
              ltac:(intros j; discriminate)) as (audio & Hgen & _).
  eexists.
  destruct (event_times_lead_the_stream default_config (1 / 2)%R steady_gap
              two_trials audio _ 1 _ Hsr ltac:(intros j; discriminate) Hgen
              eq_refl) as (Hi & _ & Hlo & _).
  split; [exact Hi | exact Hlo].
Defined.

(** ** The configuration file *)

Lemma obj_get_set_same (k : string) (v : json) (o : list (string * json)) :
  obj_get k (obj_set k v o) = Some v.
Proof.
  induction o as [|[k' w] o IH]; cbn [obj_set obj_get].
  - now rewrite String.eqb_refl.
  - destruct (String.eqb k' k) eqn:E; cbn [obj_get]; now rewrite E.
Qed.

Lemma obj_get_set_other (k k' : string) (v : json)
    (o : list (string * json)) :
  k' <> k -> obj_get k' (obj_set k v o) = obj_get k' o.
Proof.
  intros Hne. induction o as [|[k0 w] o IH]; cbn [obj_set obj_get].
  - apply String.eqb_neq in Hne. rewrite String.eqb_sym in Hne.
    now rewrite Hne.
  - destruct (String.eqb k0 k) eqn:E; cbn [obj_get].
    + apply String.eqb_eq in E. subst k0.
      apply String.eqb_neq in Hne. rewrite String.eqb_sym in Hne.
      now rewrite Hne.
    + now rewrite IH.
Qed.

Lemma obj_set_same (k : string) (v : json) (o : list (string * json)) :
  obj_get k o = Some v -> obj_set k v o = o.
Proof.
  induction o as [|[k' w] o IH]; cbn [obj_set obj_get]; [discriminate|].
  destruct (String.eqb k' k) eqn:E.
  - now intros [= ->].
  - intros H. now rewrite IH.
Qed.

Lemma obj_get_in (k : string) (v : json) (o : list (string * json)) :
  In (k, v) o -> obj_get k o <> None.
Proof.
  induction o as [|[k' w] o IH]; cbn [obj_get]; [tauto|].
  intros [[= -> ->] | Hin].
  - now rewrite String.eqb_refl.
  - destruct (String.eqb k' k); [discriminate | auto].
Qed.

(** The inner loop on a [dict]: the keys it has are kept, the missing ones
    get the default. *)
Lemma merge_keys_obj (vals : list (string * json)) :
  forall so, exists so',
    merge_keys vals (JObj so) = Some (JObj so') /\
    forall k, obj_get k so' =
              match obj_get k so with
              | Some v => Some v
              | None => obj_get k vals
              end.
Proof.
  induction vals as [|[key value] vals IH]; intros so; cbn [merge_keys].
  - exists so. split; [reflexivity|]. intros k. cbn [obj_get].
    now destruct (obj_get k so).
  - cbn [py_contains py_setitem].
    destruct (obj_get key so) as [w|] eqn:Hkey.
    + destruct (IH so) as (so' & Hm & Hl). exists so'. split; [exact Hm|].
      intros k. rewrite Hl. cbn [obj_get].
      destruct (obj_get k so) eqn:Hk; [reflexivity|].
      destruct (String.eqb key k) eqn:E; [|reflexivity].
      apply String.eqb_eq in E. congruence.
    + destruct (IH (obj_set key value so)) as (so' & Hm & Hl).
      exists so'. split; [exact Hm|].
      intros k. rewrite Hl. cbn [obj_get].
      destruct (String.eqb key k) eqn:E.
      * apply String.eqb_eq in E. subst k.
        now rewrite obj_get_set_same, Hkey.
      * apply String.eqb_neq in E.
        rewrite obj_get_set_other by congruence.
        reflexivity.
Qed.

(** The outer loop on a [dict] whose default-named sections are [dict]s. *)
Lemma merge_sections_obj (defaults : list (string * json)) :
  defaults_ok defaults ->
  forall o, sections_are_dicts defaults o ->
  exists o',
    merge_sections defaults (JObj o) = Some (JObj o') /\
    forall s, obj_get s o' =
              match obj_get s o, obj_get s defaults with
              | Some sec, Some (JObj vals) => merge_keys vals sec
              | Some sec, _ => Some sec
              | None, d => d
              end.
Proof.
  induction defaults as [|[s0 vals0] defaults IH]; intros [Hnd Hobj] o Hwf.
  - exists o. split; [reflexivity|]. intros s. cbn [obj_get].
    now destruct (obj_get s o).
  - cbn [map fst] in Hnd. apply NoDup_cons_iff in Hnd.
    destruct Hnd as [Hfresh Hnd].
    destruct (Hobj s0 vals0 (or_introl eq_refl)) as [l0 ->].
    assert (Hok : defaults_ok defaults).
    { split; [exact Hnd|]. intros s vals Hin. apply (Hobj s vals). now right. }
    assert (Hs0 : obj_get s0 defaults = None).
    { destruct (obj_get s0 defaults) eqn:E; [|reflexivity]. exfalso.
      apply Hfresh. clear - E. induction defaults as [|[k w] d IHd];
        cbn [obj_get] in E; [discriminate|].
      destruct (String.eqb k s0) eqn:Ek.
      - apply String.eqb_eq in Ek. subst k. now left.
      - right. now apply IHd. }
    cbn [merge_sections py_contains py_setitem json_item].
    assert (Hstep : forall x,
              sections_are_dicts defaults (obj_set s0 x o)).
    { intros x s vals v Hin Hget.
      assert (Hne : s <> s0).
      { intros ->. apply Hfresh. apply in_map_iff. now exists (s0, vals). }
      rewrite obj_get_set_other in Hget by exact Hne.
      apply (Hwf s vals v); [now right | exact Hget]. }
    destruct (obj_get s0 o) as [sec|] eqn:Hsec.
    + destruct (Hwf s0 (JObj l0) sec (or_introl eq_refl) Hsec) as [so ->].
      destruct (merge_keys_obj l0 so) as (so' & Hm & _). rewrite Hm.
      destruct (IH Hok _ (Hstep (JObj so'))) as (o' & Hmerge & Hl).
      exists o'. split; [exact Hmerge|].
      intros s. rewrite Hl. cbn [obj_get].
      destruct (String.eqb s0 s) eqn:E.
      * apply String.eqb_eq in E. subst s.
        now rewrite obj_get_set_same, Hsec, Hs0.
      * apply String.eqb_neq in E.
        rewrite obj_get_set_other by congruence. reflexivity.
    + destruct (IH Hok _ (Hstep (JObj l0))) as (o' & Hmerge & Hl).
      exists o'. split; [exact Hmerge|].
      intros s. rewrite Hl. cbn [obj_get].
      destruct (String.eqb s0 s) eqn:E.
      * apply String.eqb_eq in E. subst s.
        now rewrite obj_get_set_same, Hsec, Hs0.
      * apply String.eqb_neq in E.
        rewrite obj_get_set_other by congruence. reflexivity.
Qed.

Lemma default_sections_ok : defaults_ok default_sections.
Proof.
  split.
  - cbn. repeat constructor; cbn; intuition discriminate.
  - intros s vals Hin. cbn in Hin.
    destruct Hin as [H | [H | [H | [H | []]]]]; injection H as _ <-; eauto.
Qed.

(** X11. Loading a configuration object whose default-named sections are
    objects never fails over to the defaults and merges key by key: every
    value the file gives is kept, every option it lacks (a whole section
    or a single key) is taken from the defaults, and sections the
    defaults do not know are passed through. *)
Theorem load_config_fills_defaults (o : list (string * json)) :
  sections_are_dicts default_sections o ->
  exists o',
    load_config (FileData (JObj o)) = JObj o' /\
    (forall s k,
       config_lookup (JObj o') s k =
         match config_lookup (JObj o) s k with
         | Some v => Some v
         | None => config_lookup default_config_json s k
         end) /\
    (forall s, obj_get s default_sections = None ->
               obj_get s o' = obj_get s o).
Proof.
  intros Hwf.
  destruct (merge_sections_obj default_sections default_sections_ok o Hwf)
    as (o' & Hm & Hl).
  exists o'. unfold load_config. rewrite Hm. split; [reflexivity|]. split.
  - intros s k. unfold config_lookup, default_config_json.
    cbn [json_item]. rewrite Hl.
    destruct (obj_get s o) as [sec|] eqn:Hsec.
    + destruct (obj_get s default_sections) as [d|] eqn:Hd.
      * assert (Hin : In (s, d) default_sections).
        { clear - Hd. induction default_sections as [|[k w] l IHl];
            cbn [obj_get] in Hd; [discriminate|].
          destruct (String.eqb k s) eqn:E.
          - apply String.eqb_eq in E. injection Hd as ->. subst k. now left.
          - right. now apply IHl. }
        destruct (proj2 default_sections_ok s d Hin) as [vals ->].
        destruct (Hwf s (JObj vals) sec Hin Hsec) as [so ->].
        destruct (merge_keys_obj vals so) as (so' & Hk & Hkl).
        rewrite Hk. cbn [json_item]. apply Hkl.
      * now destruct (json_item sec k).
    + reflexivity.
  - intros s Hs. rewrite Hl, Hs. now destruct (obj_get s o).
Qed.

(** A file that sets only the sample rate. *)
Lemma load_config_fills_defaults_witness :
  exists o',
    load_config
      (FileData (JObj [("audio"%string,
                        JObj [("sample_rate"%string, JNum 48000)])]))
    = JObj o' /\
    config_lookup (JObj o') "audio"%string "sample_rate"%string
      = Some (JNum 48000) /\
    config_lookup (JObj o') "audio"%string "fade_duration"%string
      = Some (JNum (1 # 100)).
Proof.
  destruct (load_config_fills_defaults
              [("audio"%string, JObj [("sample_rate"%string, JNum 48000)])])
    as (o' & Hload & Hlook & _).
  - intros s vals v Hin Hget. cbn [obj_get] in Hget.
    destruct (String.eqb "audio"%string s); [|discriminate].
    injection Hget as <-. eauto.
  - exists o'. split; [exact Hload|]. split; rewrite Hlook; reflexivity.
Defined.

Lemma merge_keys_scalar (vals : list (string * json)) (v : json) :
  json_scalar v -> vals <> [] -> merge_keys vals v = None.
Proof.
  intros Hv Hne. destruct vals as [|[key value] vals]; [congruence|].
  destruct v; cbn in Hv; try contradiction; reflexivity.
Qed.

Lemma merge_sections_scalar (defaults : list (string * json)) :
  forall o s vals v,
  NoDup (map fst defaults) ->
  In (s, JObj vals) defaults -> vals <> [] ->
  obj_get s o = Some v -> json_scalar v ->
  merge_sections defaults (JObj o) = None.
Proof.
  induction defaults as [|[s0 vals0] defaults IH];
    intros o s vals v Hnd Hin Hne Hget Hv; [contradiction|].
  cbn [map fst] in Hnd. apply NoDup_cons_iff in Hnd.
  destruct Hnd as [Hfresh Hnd].
  cbn [merge_sections py_contains py_setitem json_item].
  destruct Hin as [[= -> ->] | Hin].
  - rewrite Hget. now rewrite merge_keys_scalar.
  - assert (Hs : s <> s0).
    { intros ->. apply Hfresh. apply in_map_iff. now exists (s0, JObj vals). }
    assert (Hnext : forall x,
              merge_sections defaults (JObj (obj_set s0 x o)) = None).
    { intros x. apply (IH _ s vals v); auto.
      now rewrite obj_get_set_other. }
    destruct (obj_get s0 o) as [sec|]; [|apply Hnext].
    destruct vals0; try reflexivity.
    destruct (merge_keys o0 sec); [apply Hnext | reflexivity].
Qed.

(** X12. [load_config] is all or nothing on a malformed file.  A missing
    or unreadable file, a document that is not a JSON object, and an
    object in which one section the defaults name holds a number, a
    boolean or [null] all give exactly the defaults: every other setting
    of the file is dropped with it. *)
Theorem load_config_falls_back :
  load_config NoFile = default_config_json /\
  load_config BadFile = default_config_json /\
  (forall config, (forall o, config <> JObj o) ->
     load_config (FileData config) = default_config_json) /\
  (forall o s v,
     obj_get s default_sections <> None ->
     obj_get s o = Some v -> json_scalar v ->
     load_config (FileData (JObj o)) = default_config_json).
Proof.
  split; [reflexivity|]. split; [reflexivity|]. split.
  - intros config Hno. unfold load_config.
    destruct config as [| b | q | s | l | o]; try reflexivity.
    + cbn [default_sections merge_sections py_contains py_setitem json_item].
      now destruct (is_infix "audio"%string s).
    + cbn [default_sections merge_sections py_contains py_setitem json_item].
      now destruct (existsb _ l).
    + now destruct (Hno o).
  - intros o s v Hs Hget Hv. unfold load_config.
    assert (Hin : exists vals, In (s, JObj vals) default_sections
                               /\ vals <> []).
    { cbn [default_sections obj_get] in Hs |- *.
      destruct (String.eqb "audio"%string s) eqn:E1;
        [apply String.eqb_eq in E1; subst s; eexists; split;
         [left; reflexivity | discriminate]|].
      destruct (String.eqb "testing"%string s) eqn:E2;
        [apply String.eqb_eq in E2; subst s; eexists; split;
         [right; left; reflexivity | discriminate]|].
      destruct (String.eqb "calibration"%string s) eqn:E3;
        [apply String.eqb_eq in E3; subst s; eexists; split;
         [right; right; left; reflexivity | discriminate]|].
      destruct (String.eqb "ui"%string s) eqn:E4;
        [apply String.eqb_eq in E4; subst s; eexists; split;
         [right; right; right; left; reflexivity | discriminate]|].
      congruence. }
    destruct Hin as (vals & Hin & Hne).
    rewrite (merge_sections_scalar default_sections o s vals v
               (proj1 default_sections_ok) Hin Hne Hget Hv).
    reflexivity.
Qed.

(** One ill-typed section drops the sample rate the file asked for. *)
Lemma load_config_falls_back_witness :
  load_config
    (FileData (JObj [("audio"%string,
                      JObj [("sample_rate"%string, JNum 48000)]);
                     ("ui"%string, JNum 5)]))
  = default_config_json.
Proof.
  destruct load_config_falls_back as (_ & _ & _ & H).
  apply (H _ "ui"%string (JNum 5)); [discriminate | reflexivity | exact I].
Defined.

(** ** A loaded configuration is complete *)

Lemma obj_get_some_in (k : string) (v : json) (o : list (string * json)) :
  obj_get k o = Some v -> In (k, v) o.
Proof.
  induction o as [|[k' w] o IH]; cbn [obj_get]; [discriminate|].
  destruct (String.eqb k' k) eqn:E.
  - apply String.eqb_eq in E. intros [= ->]. subst k'. now left.
  - intros H. right. now apply IH.
Qed.

Lemma merge_keys_other (vals : list (string * json)) (sec sec' : json) :
  (forall so, sec <> JObj so) ->
  merge_keys vals sec = Some sec' ->
  sec' = sec /\ has_all_keys vals sec.
Proof.
  intros Hno. induction vals as [|[key value] vals IH]; cbn [merge_keys].
  - intros [= <-]. split; [reflexivity|]. intros k v [].
  - destruct (py_contains key sec) as [[|]|] eqn:Hc; try discriminate.
    + intros H. destruct (IH H) as [-> Hall]. split; [reflexivity|].
      intros k v [[= <- <-] | Hin]; [exact Hc | now apply (Hall k v)].
    + destruct sec; cbn [py_setitem]; try discriminate.
      now destruct (Hno o).
Qed.

Lemma merge_keys_complete (vals : list (string * json)) (sec sec' : json) :
  merge_keys vals sec = Some sec' -> has_all_keys vals sec'.
Proof.
  intros H.
  assert (Hcase : (exists so, sec = JObj so) \/ (forall so, sec <> JObj so)).
  { destruct sec; try (right; intros so; discriminate). left. eauto. }
  destruct Hcase as [[so ->] | Hno].
  - destruct (merge_keys_obj vals so) as (so' & Hm & Hl).
    rewrite Hm in H. injection H as <-.
    intros k v Hin. cbn [py_contains]. rewrite Hl.
    destruct (obj_get k so); [reflexivity|].
    pose proof (obj_get_in k v vals Hin) as Hk.
    now destruct (obj_get k vals).
  - destruct (merge_keys_other vals sec sec' Hno H) as [-> Hall]. exact Hall.
Qed.

Lemma merge_keys_fixed (vals : list (string * json)) (sec : json) :
  has_all_keys vals sec -> merge_keys vals sec = Some sec.
Proof.
  induction vals as [|[key value] vals IH]; intros Hall; cbn [merge_keys];
    [reflexivity|].
  rewrite (Hall key value (or_introl eq_refl)).
  apply IH. intros k v Hin. apply (Hall k v). now right.
Qed.

Lemma merge_sections_needs_dict (defaults : list (string * json))
    (c c' : json) :
  defaults <> [] -> merge_sections defaults c = Some c' ->
  exists o, c = JObj o.
Proof.
  intros Hne. destruct defaults as [|[s vals] rest]; [congruence|].
  cbn [merge_sections].
  destruct c as [| b | q | str | l | o]; cbn [py_contains py_setitem json_item];
    try discriminate; eauto.
  - now destruct (is_infix s str).
  - now destruct (existsb _ l).
Qed.

(** After the outer loop every section the defaults name is there with
    every default key; the other sections are untouched. *)
Lemma merge_sections_complete (defaults : list (string * json)) :
  defaults_ok defaults ->
  forall o c',
  merge_sections defaults (JObj o) = Some c' ->
  exists o',
    c' = JObj o' /\
    (forall s, ~ In s (map fst defaults) -> obj_get s o' = obj_get s o) /\
    (forall s vals, In (s, JObj vals) defaults ->
       exists sec, obj_get s o' = Some sec /\ has_all_keys vals sec).
Proof.
  induction defaults as [|[s0 vals0] defaults IH]; intros [Hnd Hobj] o c'.
  - cbn [merge_sections]. intros [= <-]. exists o.
    split; [reflexivity|]. split; [reflexivity|]. intros s vals [].
  - cbn [map fst] in Hnd. apply NoDup_cons_iff in Hnd.
    destruct Hnd as [Hfresh Hnd].
    destruct (Hobj s0 vals0 (or_introl eq_refl)) as [l0 ->].
    assert (Hok : defaults_ok defaults).
    { split; [exact Hnd|]. intros s vals Hin. apply (Hobj s vals). now right. }
    assert (Hstep : forall x,
              has_all_keys l0 x ->
              merge_sections defaults (JObj (obj_set s0 x o)) = Some c' ->
              exists o',
                c' = JObj o' /\
                (forall s, ~ In s (map fst ((s0, JObj l0) :: defaults)) ->
                           obj_get s o' = obj_get s o) /\
                (forall s vals, In (s, JObj vals) ((s0, JObj l0) :: defaults) ->
                   exists sec, obj_get s o' = Some sec
                               /\ has_all_keys vals sec)).
    { intros x Hx Hm. destruct (IH Hok _ _ Hm) as (o' & -> & Hout & Hin).
      exists o'. split; [reflexivity|]. split.
      - intros s Hs. cbn [map fst In] in Hs.
        rewrite Hout by tauto. apply obj_get_set_other. intros ->. tauto.
      - intros s vals [[= -> ->] | Hi]; [|now apply Hin].
        exists x. split; [|exact Hx].
        rewrite Hout by exact Hfresh. apply obj_get_set_same. }
    cbn [merge_sections py_contains py_setitem json_item].
    destruct (obj_get s0 o) as [sec|] eqn:Hsec.
    + destruct (merge_keys l0 sec) as [sec'|] eqn:Hk; [|discriminate].
      apply Hstep. now apply (merge_keys_complete l0 sec).
    + apply Hstep. intros k v Hin. cbn [py_contains].
      pose proof (obj_get_in k v l0 Hin). now destruct (obj_get k l0).
Qed.

Lemma merge_sections_fixed (defaults : list (string * json)) :
  forall o,
  (forall s v, In (s, v) defaults ->
     exists vals sec,
       v = JObj vals /\ obj_get s o = Some sec /\ has_all_keys vals sec) ->
  merge_sections defaults (JObj o) = Some (JObj o).
Proof.
  induction defaults as [|[s0 v0] defaults IH]; intros o Hall;
    [reflexivity|].
  destruct (Hall s0 v0 (or_introl eq_refl)) as (vals & sec & -> & Hget & Hk).
  cbn [merge_sections py_contains py_setitem json_item]. rewrite Hget.
  rewrite (merge_keys_fixed vals sec Hk), (obj_set_same s0 sec o Hget).
  apply IH. intros s v Hin. apply (Hall s v). now right.
Qed.

(** X13. What [load_config] returns is a fixed point of [load_config]:
    whatever the file was, writing the returned configuration back and
    loading it again gives the same configuration, with nothing added,
    dropped or reordered. *)
Theorem load_config_is_stable (file : ConfigFile) :
  load_config (FileData (load_config file)) = load_config file.
Proof.
  assert (Hdefault : load_config (FileData default_config_json)
                     = default_config_json) by reflexivity.
  destruct file as [| | c]; cbn [load_config]; try exact Hdefault.
  fold (load_config (FileData c)).
  destruct (merge_sections default_sections c) as [c'|] eqn:Hm.
  - assert (Hload : load_config (FileData c) = c')
      by (unfold load_config; now rewrite Hm).
    rewrite Hload.
    destruct (merge_sections_needs_dict default_sections c c'
                ltac:(discriminate) Hm) as [o ->].
    destruct (merge_sections_complete default_sections default_sections_ok
                o c' Hm) as (o' & -> & _ & Hall).
    unfold load_config.
    rewrite (merge_sections_fixed default_sections o'); [reflexivity|].
    intros s v Hin.
    destruct (proj2 default_sections_ok s v Hin) as [vals ->].
    destruct (Hall s vals Hin) as (sec & Hget & Hk). eauto.
  - assert (Hload : load_config (FileData c) = default_config_json)
      by (unfold load_config; now rewrite Hm).
    rewrite Hload. exact Hdefault.
Qed.

(** ** The calibration volume across sessions *)

(** X14. A calibration volume saved by [save_config] is the one the next
    session starts with: for a configuration object with a [calibration]
    dictionary (and dictionaries under the other default names),
    [save_config] writes a document, and [load_config] on that document
    followed by the read in [__init__] yields the saved volume, whatever
    [default_volume] or an older [saved_volume] said. *)
Theorem saved_volume_is_restored (o cal : list (string * json))
    (volume : Q) :
  sections_are_dicts default_sections o ->
  obj_get "calibration"%string o = Some (JObj cal) ->
  exists doc,
    save_config (JObj o) volume = Some doc /\
    init_calibration_volume (load_config (FileData doc))
      = Some (JNum volume).
Proof.
  intros Hwf Hcal.
  set (cal' := obj_set "saved_volume"%string (JNum volume) cal).
  set (o1 := obj_set "calibration"%string (JObj cal') o).
  exists (JObj o1). split.
  - unfold save_config. cbn [json_item]. rewrite Hcal. reflexivity.
  - assert (Hwf1 : sections_are_dicts default_sections o1).
    { intros s vals v Hin Hget. unfold o1 in Hget.
      destruct (String.eqb s "calibration"%string) eqn:E.
      - apply String.eqb_eq in E. subst s.
        rewrite obj_get_set_same in Hget. injection Hget as <-. eauto.
      - apply String.eqb_neq in E.
        rewrite obj_get_set_other in Hget by exact E.
        now apply (Hwf s vals v). }
    destruct (merge_sections_obj default_sections default_sections_ok o1 Hwf1)
      as (o2 & Hm & Hl).
    unfold load_config. rewrite Hm.
    unfold init_calibration_volume. cbn [json_item].
    rewrite Hl. unfold o1 at 1. rewrite obj_get_set_same.
    cbn [default_sections obj_get String.eqb Ascii.eqb Bool.eqb].
    match goal with
    | |- context [merge_keys ?vals (JObj cal')] =>
        destruct (merge_keys_obj vals cal') as (so & Hk & Hkl); rewrite Hk
    end.
    rewrite !Hkl. unfold cal' at 2. rewrite obj_get_set_same.
    destruct (obj_get "default_volume"%string cal'); reflexivity.
Qed.

(** Saving 0.8 over the defaults. *)
Lemma saved_volume_is_restored_witness :
  exists doc,
    save_config default_config_json (8 # 10) = Some doc /\
    init_calibration_volume (load_config (FileData doc))
      = Some (JNum (8 # 10)).
Proof.
  apply (saved_volume_is_restored default_sections
           [("default_volume"%string, JNum (1 # 2));
            ("calibration_frequency"%string, JNum 1000);
            ("calibration_intensity"%string, JNum (1 # 2))] (8 # 10)).
  - intros s vals v Hin Hget.
    apply (proj2 default_sections_ok s v). now apply obj_get_some_in.
  - reflexivity.
Defined.

(** ** The single-shot CLI *)

Lemma out_of_range_false (x : ArgFloat) (lo hi : Q) :
  out_of_range x lo hi = false <-> in_range_or_nan x lo hi.
Proof.
  unfold out_of_range, in_range_or_nan.
  destruct x as [q| | |]; cbn [arg_lt arg_gt orb].
  - rewrite orb_false_iff, !negb_false_iff, !Qle_bool_iff. split.
    + intros [H1 H2]. right. exists q. auto.
    + intros [H | (q' & [= <-] & H1 & H2)]; [discriminate | auto].
  - split; [discriminate|].
    intros [H | (q & H & _)]; discriminate.
  - split; [discriminate|].
    intros [H | (q & H & _)]; discriminate.
  - split; [now left | reflexivity].
Qed.

Lemma finite_in_range (q lo hi : Q) :
  in_range_or_nan (Finite q) lo hi <-> lo <= q /\ q <= hi.
Proof.
  unfold in_range_or_nan. split.
  - intros [H | (q' & [= <-] & H)]; [discriminate | exact H].
  - intros H. right. exists q. auto.
Qed.

Lemma ear_name_ok (ear_name : string) :
  String.eqb ear_name "left"%string || String.eqb ear_name "right"%string
    || String.eqb ear_name "both"%string = true
  <-> ear_name = "left"%string \/ ear_name = "right"%string
      \/ ear_name = "both"%string.
Proof.
  rewrite !orb_true_iff, !String.eqb_eq. tauto.
Qed.

Lemma validate_parameters_nil_iff (frequency intens duration : ArgFloat)
    (ear_name : string) (max_volume : ArgFloat) :
  validate_parameters frequency intens duration ear_name max_volume = []
  <-> in_range_or_nan frequency 20 20000 /\
      in_range_or_nan intens 0 1 /\
      in_range_or_nan duration (1 # 10) 10 /\
      (ear_name = "left"%string \/ ear_name = "right"%string
       \/ ear_name = "both"%string) /\
      in_range_or_nan max_volume 0 1.
Proof.
  unfold validate_parameters.
  rewrite <- !out_of_range_false, <- ear_name_ok.
  destruct (out_of_range frequency 20 20000),
           (out_of_range intens 0 1),
           (out_of_range duration (1 # 10) 10),
           (String.eqb ear_name "left"%string
            || String.eqb ear_name "right"%string
            || String.eqb ear_name "both"%string),
           (out_of_range max_volume 0 1);
    cbn [app]; split; intros H; try discriminate; try reflexivity;
    try tauto;
    destruct H as (H1 & H2 & H3 & H4 & H5); discriminate.
Qed.

Lemma validate_parameters_ranges_iff (frequency intens duration : Q)
    (ear_name : string) (max_volume : Q) :
  validate_parameters (Finite frequency) (Finite intens) (Finite duration)
    ear_name (Finite max_volume) = []
  <-> parameters_in_range frequency intens duration ear_name max_volume.
Proof.
  rewrite validate_parameters_nil_iff, !finite_in_range.
  unfold parameters_in_range. tauto.
Qed.

(** X15. [validate_parameters] on what [argparse] can hand it.  It
    returns no error exactly when the ear is one of [left], [right],
    [both] and every numeric argument is either within its documented
    range (frequency 20 to 20000, intensity 0 to 1, duration 0.1 to 10,
    maximum volume 0 to 1, bounds included) or is [nan]: a [nan] fails no
    comparison, so it is never reported, whatever the other arguments
    are, while an infinity is never accepted.  On finite arguments
    the accepted values are exactly the documented ranges, and [main]
    plays nothing outside them. *)
Theorem validate_parameters_accepts_ranges
    (frequency intens duration : ArgFloat) (ear_name : string)
    (max_volume : ArgFloat) :
  (validate_parameters frequency intens duration ear_name max_volume = []
   <-> in_range_or_nan frequency 20 20000 /\
       in_range_or_nan intens 0 1 /\
       in_range_or_nan duration (1 # 10) 10 /\
       (ear_name = "left"%string \/ ear_name = "right"%string
        \/ ear_name = "both"%string) /\
       in_range_or_nan max_volume 0 1) /\
  (validate_parameters NaN intens duration ear_name max_volume
     = validate_parameters (Finite 1000) intens duration ear_name
         max_volume /\
   validate_parameters frequency NaN duration ear_name max_volume
     = validate_parameters frequency (Finite 1) duration ear_name
         max_volume /\
   validate_parameters frequency intens NaN ear_name max_volume
     = validate_parameters frequency intens (Finite 1) ear_name
         max_volume /\
   validate_parameters frequency intens duration ear_name NaN
     = validate_parameters frequency intens duration ear_name
         (Finite 1)) /\
  (frequency = PosInf \/ frequency = NegInf ->
   In (FrequencyOutOfRange frequency)
     (validate_parameters frequency intens duration ear_name max_volume)) /\
  (forall f i d m : Q,
     (validate_parameters (Finite f) (Finite i) (Finite d) ear_name
        (Finite m) = []
      <-> parameters_in_range f i d ear_name m) /\
     (~ parameters_in_range f i d ear_name m ->
      exists errors,
        errors <> [] /\ cli_main f i d ear_name m = CliRejected errors)).
Proof.
  split; [apply validate_parameters_nil_iff|].
  split; [repeat split; reflexivity|].
  split.
  - intros [-> | ->]; unfold validate_parameters;
      cbn [out_of_range arg_lt arg_gt orb app]; now left.
  - intros f i d m.
    pose proof (validate_parameters_ranges_iff f i d ear_name m) as Hiff.
    split; [exact Hiff|].
    intros Hbad. unfold cli_main.
    destruct (validate_parameters (Finite f) (Finite i) (Finite d) ear_name
                (Finite m)) as [|e errors] eqn:Hv.
    + exfalso. apply Hbad. now apply Hiff.
    + exists (e :: errors). split; [discriminate | reflexivity].
Qed.

(** A frequency that is not a number, with the usage example's other
    arguments, is accepted; a frequency below the range is not played. *)
Lemma validate_parameters_accepts_ranges_witness :
  validate_parameters NaN (Finite (1 # 2)) (Finite 1) "left"%string
    (Finite 1) = [] /\
  exists errors,
    errors <> [] /\
    cli_main 10 (1 # 2) 1 "left"%string 1 = CliRejected errors.
Proof.
  destruct (validate_parameters_accepts_ranges NaN (Finite (1 # 2))
              (Finite 1) "left"%string (Finite 1))
    as (Hiff & _ & _ & Hmain).
  split.
  - apply Hiff. unfold in_range_or_nan.
    split; [now left|].
    split; [right; exists (1 # 2); repeat split; discriminate|].
    split; [right; exists 1; repeat split; discriminate|].
    split; [now left|].
    right. exists 1. repeat split; discriminate.
  - destruct (Hmain 10 (1 # 2) 1 1) as [_ H].
    apply H. intros ((Hlo & _) & _). apply Hlo. reflexivity.
Defined.

Lemma cli_sample_count_large (duration : Q) :
  (1 # 10) <= duration ->
  (4410 <= py_int (inject_Z cli_sample_rate * duration))%Z.
Proof.
  intros Hd.
  assert (H0 : 0 <= inject_Z cli_sample_rate * duration).
  { apply Qmult_le_0_compat; [discriminate | lra]. }
  rewrite py_int_floor by exact H0.
  change 4410%Z with (Qfloor (inject_Z cli_sample_rate * (1 # 10))).
  apply Qfloor_resp_le.
  apply Qmult_le_l; [reflexivity | exact Hd].
Qed.

Lemma log_volume_le (cv intens : R) :
  (0 < cv)%R -> (intens <= 1)%R -> (log_volume cv intens <= cv)%R.
Proof.
  intros Hcv Hi. unfold log_volume.
  assert (Hp : (Rpower 100 intens <= Rpower 100 1)%R)
    by (apply Rle_Rpower; rlra).
  rewrite Rpower_1 in Hp by rlra.
  assert (Hq : (0 <= cv * (1 / 100))%R) by rlra.
  apply (Rmult_le_compat_l _ _ _ Hq) in Hp. rlra.
Qed.

(** X16. The CLI generator is the main application's [generate_tone] at
    the default audio settings, with the maximum volume in place of the
    calibration volume.  For accepted parameters with a positive maximum
    volume [main] plays a tone of [int(44100 * duration)] samples (at
    least 4410, so it is always faded), no sample of which exceeds the
    maximum volume; the tone is on the left channel for [left], on the
    right channel for [right], on both for [both], the other channel
    being all zeros. *)
Theorem cli_plays_bounded_tone (frequency intens duration : Q)
    (ear_name : string) (max_volume : Q) :
  parameters_in_range frequency intens duration ear_name max_volume ->
  0 < max_volume ->
  exists tone_data,
    cli_main frequency intens duration ear_name max_volume
      = CliPlayed (stereo_data ear_name tone_data) /\
    generate_tone default_config (Q2R max_volume) (Q2R frequency)
      (Q2R intens) duration = Some tone_data /\
    Z.of_nat (length tone_data)
      = py_int (inject_Z cli_sample_rate * duration) /\
    (4410 <= Z.of_nat (length tone_data))%Z /\
    Forall (fun x => (Rabs x <= Q2R max_volume)%R) tone_data /\
    (ear_name = "left"%string ->
       map fst (stereo_data ear_name tone_data) = tone_data /\
       Forall (fun x => x = 0%R) (map snd (stereo_data ear_name tone_data))) /\
    (ear_name = "right"%string ->
       map snd (stereo_data ear_name tone_data) = tone_data /\
       Forall (fun x => x = 0%R) (map fst (stereo_data ear_name tone_data))) /\
    (ear_name = "both"%string ->
       map fst (stereo_data ear_name tone_data) = tone_data /\
       map snd (stereo_data ear_name tone_data) = tone_data).
Proof.
  intros Hrange Hmv.
  assert (Hv : validate_parameters (Finite frequency) (Finite intens)
                 (Finite duration) ear_name (Finite max_volume) = []).
  { destruct (validate_parameters_ranges_iff frequency intens duration
                ear_name max_volume) as [_ H]. now apply H. }
  destruct Hrange as (_ & (Hi0 & Hi1) & (Hd & _) & _ & (_ & Hmv1)).
  pose proof (cli_sample_count_large duration Hd) as Hn.
  assert (HmvR : (0 < Q2R max_volume)%R).
  { replace 0%R with (Q2R 0) by (unfold Q2R; simpl; field).
    now apply Qlt_Rlt. }
  assert (Hsame : cli_generate_tone (Q2R frequency) (Q2R intens) duration
                    (Q2R max_volume)
                  = generate_tone default_config (Q2R max_volume)
                      (Q2R frequency) (Q2R intens) duration)
    by reflexivity.
  destruct (generate_tone_ok default_config (Q2R max_volume) (Q2R frequency)
              (Q2R intens) duration) as [tone Htone];
    [unfold sample_count; cbn [sample_rate default_config];
     fold cli_sample_rate; lia
    | left; reflexivity | exact HmvR |].
  exists tone. unfold cli_main. rewrite Hv, Hsame, Htone.
  split; [reflexivity|]. split; [reflexivity|].
  pose proof (generate_tone_length _ _ _ _ _ _ Htone) as Hlen.
  unfold sample_count in Hlen. cbn [sample_rate default_config] in Hlen.
  fold cli_sample_rate in Hlen.
  assert (HlenZ : Z.of_nat (length tone)
                  = py_int (inject_Z cli_sample_rate * duration)).
  { rewrite Hlen, Z2Nat.id; [reflexivity | lia]. }
  split; [exact HlenZ|]. split; [rewrite HlenZ; exact Hn|]. split.
  - destruct (generate_tone_shape _ _ _ _ _ _ Htone)
      as (vol & shape & Hvol & Hshape & _ & ->).
    assert (Hbound : (0 <= vol <= Q2R max_volume)%R).
    { unfold actual_volume in Hvol.
      destruct (Rle_dec (Q2R intens) 0); [injection Hvol as <-; rlra|].
      destruct (Req_dec_T (Q2R max_volume * (1 / 100)) 0); [discriminate|].
      assert (Hi : (0 < Q2R intens)%R) by rlra.
      assert (Hi1R : (Q2R intens <= 1)%R).
      { replace 1%R with (Q2R 1) by (unfold Q2R; simpl; field).
        now apply Qle_Rle. }
      pose proof (actual_volume_log (Q2R max_volume) (Q2R intens) HmvR Hi)
        as Hlog.
      unfold actual_volume in Hlog.
      destruct (Rle_dec (Q2R intens) 0); [rlra|].
      destruct (Req_dec_T (Q2R max_volume * (1 / 100)) 0); [rlra|].
      rewrite Hlog in Hvol. injection Hvol as <-.
      pose proof (log_volume_pos (Q2R max_volume) (Q2R intens) HmvR).
      pose proof (log_volume_le (Q2R max_volume) (Q2R intens) HmvR Hi1R).
      rlra. }
    pose proof (scaled_bound vol shape (proj1 Hbound) Hshape) as Hs.
    eapply Forall_impl; [|exact Hs]. cbn beta. intros x Hx. rlra.
  - unfold stereo_data. split; [|split]; intros ->;
      cbn [String.eqb Ascii.eqb Bool.eqb]; rewrite !map_map; cbn [fst snd].
    + split; [apply map_id|]. apply Forall_forall. intros x Hx.
      apply in_map_iff in Hx. now destruct Hx as (y & <- & _).
    + split; [apply map_id|]. apply Forall_forall. intros x Hx.
      apply in_map_iff in Hx. now destruct Hx as (y & <- & _).
    + split; apply map_id.
Qed.

(** The usage example [1000 0.5 1.0 left]. *)
Lemma cli_plays_bounded_tone_witness :
  exists tone_data,
    cli_main 1000 (1 # 2) 1 "left"%string 1
      = CliPlayed (stereo_data "left"%string tone_data) /\
    Z.of_nat (length tone_data) = 44100%Z.
Proof.
  destruct (cli_plays_bounded_tone 1000 (1 # 2) 1 "left"%string 1)
    as (tone & Hmain & _ & Hlen & _).
  - unfold parameters_in_range. repeat split; try discriminate. now left.
  - reflexivity.
  - exists tone. split; [exact Hmain | exact Hlen].
Defined.

(** X17. Edge: a maximum volume of 0 passes validation.  With a positive
    intensity the generator then divides by zero and [main] ends with an
    error instead of playing; with intensity 0 it plays silence. *)
Theorem cli_zero_volume (frequency intens duration : Q) (ear_name : string) :
  parameters_in_range frequency intens duration ear_name 0 ->
  (0 < intens ->
   cli_main frequency intens duration ear_name 0 = CliFailed) /\
  (intens == 0 ->
   exists tone_data,
     cli_main frequency intens duration ear_name 0
       = CliPlayed (stereo_data ear_name tone_data) /\
     Forall (fun x => x = 0%R) tone_data).
Proof.
  intros Hrange.
  assert (Hv : validate_parameters (Finite frequency) (Finite intens)
                 (Finite duration) ear_name (Finite 0) = []).
  { destruct (validate_parameters_ranges_iff frequency intens duration
                ear_name 0) as [_ H]. now apply H. }
  destruct Hrange as (_ & _ & (Hd & _) & _).
  pose proof (cli_sample_count_large duration Hd) as Hn.
  assert (Hq0 : Q2R 0 = 0%R) by (unfold Q2R; simpl; field).
  unfold cli_main. rewrite Hv. unfold cli_generate_tone.
  destruct (py_int (inject_Z cli_sample_rate * duration) <? 0)%Z eqn:E;
    [apply Z.ltb_lt in E; lia|].
  destruct (fade_envelope_ok default_config
              (py_int (inject_Z cli_sample_rate * duration))
              ltac:(lia) ltac:(left; reflexivity)) as [envelope He].
  change (fade_samples default_config)
    with (py_int ((1 # 100) * inject_Z cli_sample_rate)) in He.
  rewrite He. unfold actual_volume. rewrite Hq0. split.
  - intros Hi.
    assert (HiR : (0 < Q2R intens)%R).
    { rewrite <- Hq0. now apply Qlt_Rlt. }
    destruct (Rle_dec (Q2R intens) 0); [rlra|].
    destruct (Req_dec_T (0 * (1 / 100)) 0); [reflexivity | rlra].
  - intros Hi.
    assert (HiR : (Q2R intens = 0)%R).
    { rewrite <- Hq0. now apply Qeq_eqR. }
    destruct (Rle_dec (Q2R intens) 0); [|rlra].
    eexists. split; [reflexivity|].
    rewrite sine_samples_shape. apply Forall_forall. intros x Hx.
    apply in_map_iff in Hx. destruct Hx as (s & <- & _). ring.
Qed.

(** [1000 0.5 1.0 both 0]: accepted, then failing. *)
Lemma cli_zero_volume_witness :
  cli_main 1000 (1 # 2) 1 "both"%string 0 = CliFailed.
Proof.
  destruct (cli_zero_volume 1000 (1 # 2) 1 "both"%string) as [H _].
  - unfold parameters_in_range. repeat split; try discriminate.
    right. now right.
  - apply H. reflexivity.
Defined.

(** ** Hearing thresholds *)

Lemma py_min_spec (l : list Q) :
  forall x,
  In (py_min x l) (x :: l) /\ Forall (fun y => py_min x l <= y) (x :: l).
Proof.
  induction l as [|y l IH]; intros x; cbn [py_min].
  - split; [now left|]. constructor; [apply Qle_refl | constructor].
  - destruct (Qle_bool x y) eqn:E.
    + apply Qle_bool_iff in E. destruct (IH x) as [Hin Hall].
      apply Forall_cons_iff in Hall. destruct Hall as [Hx Hl]. split.
      * destruct Hin as [Hin | Hin]; [now left | right; now right].
      * constructor; [exact Hx|]. constructor; [|exact Hl].
        now apply Qle_trans with x.
    + assert (Hyx : y <= x).
      { apply Qlt_le_weak, Qnot_le_lt. intros H.
        apply Qle_bool_iff in H. congruence. }
      destruct (IH y) as [Hin Hall].
      apply Forall_cons_iff in Hall. destruct Hall as [Hy Hl]. split.
      * right. exact Hin.
      * constructor; [now apply Qle_trans with y|].
        constructor; [exact Hy | exact Hl].
Qed.

Lemma ln_10_pos : (0 < ln 10)%R.
Proof. rewrite <- ln_1. apply ln_increasing; rlra. Qed.

Lemma log10_le (a b : R) : (0 < a)%R -> (a <= b)%R -> (log10 a <= log10 b)%R.
Proof.
  intros Ha Hab. unfold log10. pose proof ln_10_pos as H10.
  assert (Hln : (ln a <= ln b)%R).
  { destruct Hab as [Hlt | ->]; [left; now apply ln_increasing | right; auto]. }
  apply Rmult_le_compat_r; [|exact Hln].
  left. now apply Rinv_0_lt_compat.
Qed.

Lemma log10_1 : log10 1 = 0%R.
Proof. unfold log10. rewrite ln_1. field. pose proof ln_10_pos. rlra. Qed.

Lemma log10_tenth : log10 (/ 10) = (-1)%R.
Proof.
  unfold log10. rewrite ln_Rinv by rlra. field. pose proof ln_10_pos. rlra.
Qed.

Lemma log10_thousandth : log10 (/ 1000) = (-3)%R.
Proof.
  unfold log10. rewrite ln_Rinv by rlra.
  replace 1000%R with (10 * (10 * 10))%R by ring.
  rewrite !ln_mult by rlra. field. pose proof ln_10_pos. rlra.
Qed.

Lemma Q2R_pos (q : Q) : 0 < q -> (0 < Q2R q)%R.
Proof. intros H. rewrite <- RMicromega.Q2R_0. now apply Qlt_Rlt. Qed.

(** The threshold as a function of the softest heard intensity. *)
Lemma threshold_of_min (results : list ResultEntry) (x : Q) (rest : list Q) :
  heard_intensities results = x :: rest ->
  0 < py_min x rest ->
  calculate_hearing_threshold results
    = Some (Rmax 0 (-20 * log10 (Q2R (py_min x rest)))) /\
  plot_threshold results = Some (-20 * log10 (Q2R (py_min x rest)))%R.
Proof.
  intros Hh Hpos. unfold calculate_hearing_threshold, plot_threshold.
  rewrite Hh. cbv zeta.
  destruct (Qle_bool (py_min x rest) 0) eqn:E; [|split; reflexivity].
  apply Qle_bool_iff in E. exfalso. apply (Qlt_not_le _ _ Hpos E).
Qed.

(** X18. The hearing threshold of one frequency.  When no tone was heard
    it is 60 dB.  Otherwise it is [-20 * log10] of the softest heard
    intensity (the first smallest one of the list): for intensities in
    (0, 1] it is never negative, so the clamp at 0 does nothing and the
    analyser's value is the one the profiler plots; it is 0 dB when the
    softest heard intensity is 1.0 and 20 dB when it is 0.1, and it never
    decreases when a softer tone is heard. *)
Theorem hearing_threshold_law (results : list ResultEntry) :
  (heard_intensities results = [] ->
   calculate_hearing_threshold results = Some 60%R /\
   plot_threshold results = Some 60%R) /\
  (forall x rest,
     heard_intensities results = x :: rest ->
     Forall (fun i => 0 < i /\ i <= 1) (x :: rest) ->
     let m := py_min x rest in
     In m (x :: rest) /\ Forall (fun i => m <= i) (x :: rest) /\
     calculate_hearing_threshold results = Some (-20 * log10 (Q2R m))%R /\
     plot_threshold results = calculate_hearing_threshold results /\
     (0 <= -20 * log10 (Q2R m))%R /\
     (m == 1 -> (-20 * log10 (Q2R m))%R = 0%R) /\
     (m == 1 # 10 -> (-20 * log10 (Q2R m))%R = 20%R)) /\
  (forall a b : Q,
     0 < a -> a <= b ->
     (-20 * log10 (Q2R b) <= -20 * log10 (Q2R a))%R).
Proof.
  split; [|split].
  - intros Hh. unfold calculate_hearing_threshold, plot_threshold.
    rewrite Hh. split; reflexivity.
  - intros x rest Hh Hrange m.
    destruct (py_min_spec rest x) as [Hin Hall]. fold m in Hin, Hall.
    rewrite Forall_forall in Hrange. destruct (Hrange m Hin) as [Hm0 Hm1].
    destruct (threshold_of_min results x rest Hh Hm0) as [Hc Hp].
    fold m in Hc, Hp.
    assert (Hnn : (0 <= -20 * log10 (Q2R m))%R).
    { pose proof (log10_le (Q2R m) 1 (Q2R_pos m Hm0)) as Hle.
      rewrite log10_1 in Hle.
      assert (H1 : (Q2R m <= 1)%R)
        by (rewrite <- RMicromega.Q2R_1; now apply Qle_Rle).
      specialize (Hle H1). rlra. }
    rewrite Rmax_right in Hc by exact Hnn.
    split; [exact Hin|]. split; [exact Hall|]. split; [exact Hc|].
    split; [now rewrite Hc, Hp|]. split; [exact Hnn|]. split.
    + intros E. rewrite (Qeq_eqR _ _ E), RMicromega.Q2R_1, log10_1. ring.
    + intros E. rewrite (Qeq_eqR _ _ E).
      replace (Q2R (1 # 10)) with (/ 10)%R by (unfold Q2R; simpl; field).
      rewrite log10_tenth. ring.
  - intros a b Ha Hab.
    pose proof (log10_le (Q2R a) (Q2R b) (Q2R_pos a Ha) (Qle_Rle _ _ Hab)).
    rlra.
Qed.

(** Heard at 1.0 and at 0.1, missed at 0.5: 20 dB. *)
Lemma hearing_threshold_law_witness :
  calculate_hearing_threshold
    [mkEntry 1 true; mkEntry (1 # 10) true; mkEntry (1 # 2) false]
  = Some 20%R.
Proof.
  destruct (hearing_threshold_law
              [mkEntry 1 true; mkEntry (1 # 10) true; mkEntry (1 # 2) false])
    as (_ & H & _).
  destruct (H 1 [1 # 10] eq_refl) as (_ & _ & Hc & _ & _ & _ & H20).
  - repeat constructor; discriminate.
  - rewrite Hc. f_equal. apply H20. reflexivity.
Defined.

(** ** Classification of an ear *)

Lemma sum_bounds (lo hi : R) (l : list R) :
  Forall (fun t => (lo <= t <= hi)%R) l ->
  (INR (length l) * lo <= fold_right Rplus 0 l <= INR (length l) * hi)%R.
Proof.
  induction 1 as [|t l Ht _ IH].
  - cbn [fold_right length INR]. rlra.
  - cbn [fold_right]. change (length (t :: l)) with (S (length l)).
    rewrite S_INR. rlra.
Qed.

Lemma np_mean_bounds (lo hi : R) (l : list R) (avg : R) :
  Forall (fun t => (lo <= t <= hi)%R) l ->
  np_mean l = Some avg -> (lo <= avg <= hi)%R.
Proof.
  intros Hall Hm. destruct l as [|t l]; [discriminate|].
  cbn [np_mean] in Hm. injection Hm as <-.
  pose proof (sum_bounds lo hi (t :: l) Hall) as Hs.
  set (n := INR (length (t :: l))) in *.
  assert (Hn : (0 < n)%R) by (unfold n; apply lt_0_INR; simpl; lia).
  set (s := fold_right Rplus 0%R (t :: l)) in *.
  split.
  - apply Rmult_le_reg_r with n; [exact Hn|].
    unfold Rdiv. rewrite Rmult_assoc, Rinv_l, Rmult_1_r by rlra.
    rewrite (Rmult_comm lo n). tauto.
  - apply Rmult_le_reg_r with n; [exact Hn|].
    unfold Rdiv. rewrite Rmult_assoc, Rinv_l, Rmult_1_r by rlra.
    rewrite (Rmult_comm hi n). tauto.
Qed.

(** With heard intensities between 0.001 and 1 a threshold lies between
    0 and 60 dB. *)
Lemma threshold_range (results : list ResultEntry) :
  (forall i, In i (heard_intensities results) -> (1 # 1000) <= i /\ i <= 1) ->
  exists t,
    calculate_hearing_threshold results = Some t /\ (0 <= t <= 60)%R /\
    (heard_intensities results = [] -> t = 60%R).
Proof.
  intros Hr. destruct (heard_intensities results) as [|x rest] eqn:Hh.
  - exists 60%R. unfold calculate_hearing_threshold. rewrite Hh.
    split; [reflexivity|]. split; [rlra | reflexivity].
  - destruct (py_min_spec rest x) as [Hin _].
    destruct (Hr _ Hin) as [Hlo Hhi].
    assert (Hpos : 0 < py_min x rest)
      by (apply Qlt_le_trans with (1 # 1000); [reflexivity | exact Hlo]).
    destruct (threshold_of_min results x rest Hh Hpos) as [Hc _].
    eexists. split; [exact Hc|]. split; [|discriminate].
    set (m := Q2R (py_min x rest)).
    assert (Hm1 : (m <= 1)%R)
      by (unfold m; rewrite <- RMicromega.Q2R_1; now apply Qle_Rle).
    assert (Hm0 : (/ 1000 <= m)%R).
    { replace (/ 1000)%R with (Q2R (1 # 1000))
        by (unfold Q2R; simpl; field).
      now apply Qle_Rle. }
    pose proof (log10_le (/ 1000) m ltac:(rlra) Hm0) as L1.
    rewrite log10_thousandth in L1.
    split; [apply Rmax_l|]. apply Rmax_lub; rlra.
Qed.

(** X19. The classification of an analysed ear whose heard intensities
    all lie between 0.001 and 1 (as every intensity level of the profiler
    does): every frequency gets a threshold between 0 and 60 dB; an ear
    with at least one frequency is never classified as profound loss,
    and is classified as severe loss when no tone was heard at any
    frequency; an ear without any frequency has a [nan] average and is
    classified as profound loss. *)
Theorem ear_classification_of_test_data
    (per_frequency : list (list ResultEntry)) :
  (forall results i,
     In results per_frequency -> In i (heard_intensities results) ->
     (1 # 1000) <= i /\ i <= 1) ->
  exists thresholds,
    ear_thresholds per_frequency = Some thresholds /\
    length thresholds = length per_frequency /\
    Forall (fun t => (0 <= t <= 60)%R) thresholds /\
    (per_frequency = [] ->
       classify_hearing_loss thresholds = "Profound hearing loss"%string) /\
    (per_frequency <> [] ->
       classify_hearing_loss thresholds <> "Profound hearing loss"%string) /\
    (per_frequency <> [] ->
     (forall results, In results per_frequency ->
                      heard_intensities results = []) ->
       classify_hearing_loss thresholds = "Severe hearing loss"%string).
Proof.
  intros Hr.
  assert (Hts : exists thresholds,
            ear_thresholds per_frequency = Some thresholds /\
            length thresholds = length per_frequency /\
            Forall (fun t => (0 <= t <= 60)%R) thresholds /\
            ((forall results, In results per_frequency ->
                              heard_intensities results = []) ->
             Forall (fun t => (60 <= t <= 60)%R) thresholds)).
  { induction per_frequency as [|results rest IH].
    - exists []. repeat split; constructor.
    - destruct IH as (ts & Hts & Hlen & Hall & Hnone).
      { intros r i Hin. apply Hr. now right. }
      destruct (threshold_range results) as (t & Ht & Hrange & H60).
      { intros i. apply Hr. now left. }
      exists (t :: ts). cbn [ear_thresholds]. rewrite Ht, Hts.
      split; [reflexivity|]. split; [cbn [length]; now rewrite Hlen|].
      split; [now constructor|].
      intros Hn. constructor.
      + rewrite (H60 (Hn results (or_introl eq_refl))). rlra.
      + apply Hnone. intros r Hin. apply Hn. now right. }
  destruct Hts as (ts & Hts & Hlen & Hall & Hnone).
  exists ts. split; [exact Hts|]. split; [exact Hlen|]. split; [exact Hall|].
  split; [|split].
  - intros ->. destruct ts; [reflexivity | discriminate].
  - intros Hne. unfold classify_hearing_loss.
    destruct (np_mean ts) as [avg|] eqn:Hm.
    + pose proof (np_mean_bounds 0 60 ts avg Hall Hm) as [_ Hhi].
      destruct (Rle_dec avg 15); [discriminate|].
      destruct (Rle_dec avg 25); [discriminate|].
      destruct (Rle_dec avg 40); [discriminate|].
      destruct (Rle_dec avg 70); [discriminate | rlra].
    + destruct ts; [|discriminate]. destruct per_frequency; [congruence|].
      discriminate.
  - intros Hne Hn. unfold classify_hearing_loss.
    destruct (np_mean ts) as [avg|] eqn:Hm.
    + pose proof (np_mean_bounds 60 60 ts avg (Hnone Hn) Hm) as [Hlo Hhi].
      destruct (Rle_dec avg 15); [rlra|].
      destruct (Rle_dec avg 25); [rlra|].
      destruct (Rle_dec avg 40); [rlra|].
      destruct (Rle_dec avg 70); [reflexivity | rlra].
    + destruct ts; [|discriminate]. destruct per_frequency; [congruence|].
      discriminate.
Qed.

(** An ear with one frequency at which nothing was heard. *)
Lemma ear_classification_of_test_data_witness :
  exists thresholds,
    ear_thresholds [[mkEntry (1 # 5) false; mkEntry 1 false]]
      = Some thresholds /\
    classify_hearing_loss thresholds = "Severe hearing loss"%string.
Proof.
  destruct (ear_classification_of_test_data
              [[mkEntry (1 # 5) false; mkEntry 1 false]])
    as (ts & Hts & _ & _ & _ & _ & Hsev).
  - intros results i [<- | []] [].
  - exists ts. split; [exact Hts|]. apply Hsev; [discriminate|].
    intros results [<- | []]. reflexivity.
Defined.

(** ** Comparing the ears *)

(** X20. [compare_ears]: the asymmetry label does not depend on which ear
    is which; the left ear is named the better one exactly when its
    average is strictly lower, so equal averages name the right ear; and
    when either ear has no data (a [nan] average) the result is
    "significant asymmetry" with the right ear named better, also when it
    is the right ear that has no data. *)
Theorem compare_ears_labels (left_avg right_avg : option R) :
  fst (compare_ears left_avg right_avg)
    = fst (compare_ears right_avg left_avg) /\
  (snd (compare_ears left_avg right_avg) = "left"%string <->
   exists l r, left_avg = Some l /\ right_avg = Some r /\ (l < r)%R) /\
  (left_avg = None \/ right_avg = None ->
   compare_ears left_avg right_avg
     = ("significant asymmetry"%string, "right"%string)) /\
  (left_avg = right_avg -> left_avg <> None ->
   compare_ears left_avg right_avg = ("symmetrical"%string, "right"%string)).
Proof.
  split; [|split; [|split]].
  - destruct left_avg as [l|], right_avg as [r|]; cbn [compare_ears fst];
      auto.
    now rewrite (Rabs_minus_sym l r).
  - destruct left_avg as [l|], right_avg as [r|]; cbn [compare_ears snd].
    + destruct (Rlt_dec l r); split.
      * intros _. exists l, r. auto.
      * reflexivity.
      * discriminate.
      * intros (l' & r' & [= <-] & [= <-] & H). contradiction.
    + split; [discriminate | intros (l' & r' & _ & H & _); discriminate].
    + split; [discriminate | intros (l' & r' & H & _); discriminate].
    + split; [discriminate | intros (l' & r' & H & _); discriminate].
  - intros [-> | ->]; [reflexivity|]. now destruct left_avg.
  - intros <- Hsome. destruct left_avg as [l|]; [|congruence].
    cbn [compare_ears]. rewrite Rminus_diag, Rabs_R0.
    destruct (Rlt_dec 0 5); [|rlra].
    destruct (Rlt_dec l l); [rlra | reflexivity].
Qed.

(** A right ear without data. *)
Lemma compare_ears_labels_witness :
  compare_ears (Some 10%R) None
  = ("significant asymmetry"%string, "right"%string).
Proof.
  destruct (compare_ears_labels (Some 10%R) None) as (_ & _ & H & _).
  apply H. now right.
Defined.

(** ** The reference age *)

Lemma py_min_by_spec {A : Type} (key : A -> Q) (l : list A) :
  forall x,
  exists pre post,
    x :: l = pre ++ py_min_by key x l :: post /\
    Forall (fun y => key (py_min_by key x l) < key y) pre /\
    Forall (fun y => key (py_min_by key x l) <= key y) post.
Proof.
  induction l as [|y l IH]; intros x; cbn [py_min_by].
  - exists [], []. repeat split; constructor.
  - destruct (Qle_bool (key x) (key y)) eqn:E.
    + apply Qle_bool_iff in E.
      destruct (IH x) as (pre & post & Hd & Hpre & Hpost).
      set (r := py_min_by key x l) in *.
      destruct pre as [|a pre].
      * cbn [app] in Hd. injection Hd as Hx Hl.
        exists [], (y :: l). cbn [app]. rewrite <- Hx.
        split; [reflexivity|]. split; [constructor|].
        constructor; [exact E|]. rewrite Hx, Hl. exact Hpost.
      * cbn [app] in Hd. injection Hd as Ha Hl. subst a.
        apply Forall_cons_iff in Hpre. destruct Hpre as [Hrx Hpre].
        exists (x :: y :: pre), post. cbn [app]. rewrite Hl.
        split; [reflexivity|]. split; [|exact Hpost].
        constructor; [exact Hrx|]. constructor; [|exact Hpre].
        now apply Qlt_le_trans with (key x).
    + assert (Hyx : key y < key x).
      { apply Qnot_le_lt. intros H. apply Qle_bool_iff in H. congruence. }
      destruct (IH y) as (pre & post & Hd & Hpre & Hpost).
      set (r := py_min_by key y l) in *.
      exists (x :: pre), post. cbn [app]. rewrite Hd.
      split; [reflexivity|]. split; [|exact Hpost].
      constructor; [|exact Hpre].
      destruct pre as [|a pre].
      * cbn [app] in Hd. injection Hd as Hy _. now rewrite <- Hy.
      * cbn [app] in Hd. injection Hd as Ha _. subst a.
        apply Forall_cons_iff in Hpre. destruct Hpre as [Hry _].
        now apply Qlt_trans with (key y).
Qed.

(** X21. The reference age of [compare_to_age_norms] is the norm group
    nearest to the listener's age, and the younger group when two are
    equally near (age 25 is compared with the norms of 20). *)
Theorem closest_age_is_nearest (age : Z) :
  In (closest_age age) age_groups /\
  (forall g, In g age_groups ->
     (Z.abs (closest_age age - age) <= Z.abs (g - age))%Z) /\
  (forall g, In g age_groups ->
     Z.abs (g - age) = Z.abs (closest_age age - age) ->
     (closest_age age <= g)%Z).
Proof.
  destruct (py_min_by_spec (fun x => inject_Z (Z.abs (x - age)))
              [30; 40; 50; 60; 70]%Z 20%Z)
    as (pre & post & Hd & Hpre & Hpost).
  fold (closest_age age) in Hd, Hpre, Hpost.
  change (20 :: [30; 40; 50; 60; 70])%Z with age_groups in Hd.
  set (c := closest_age age) in *.
  assert (Hsorted : StronglySorted Z.lt age_groups).
  { unfold age_groups. repeat constructor. }
  rewrite Hd in Hsorted.
  pose proof (StronglySorted_after Z.lt pre c post Hsorted) as Hafter.
  rewrite Forall_forall in Hpre, Hpost, Hafter.
  split; [|split].
  - rewrite Hd. apply in_or_app. right. now left.
  - intros g Hg. rewrite Hd in Hg. apply in_app_or in Hg.
    destruct Hg as [Hg | [<- | Hg]].
    + apply Hpre in Hg. rewrite <- Zlt_Qlt in Hg. lia.
    + lia.
    + apply Hpost in Hg. now rewrite <- Zle_Qle in Hg.
  - intros g Hg Htie. rewrite Hd in Hg. apply in_app_or in Hg.
    destruct Hg as [Hg | [<- | Hg]].
    + apply Hpre in Hg. rewrite <- Zlt_Qlt in Hg. lia.
    + lia.
    + apply Hafter in Hg. lia.
Qed.

(** ** Recommendations *)







(** ** Overlays *)

(** X23. [load_results] never touches the current test results and never
    removes, changes or reorders an overlay that is already loaded: the
    overlay list afterwards is the old list followed by at most one new
    overlay, exactly one when the load is reported as done and none when
    the dialog is cancelled. *)
Theorem load_results_keeps_overlays (py_float : string -> option Q)
    (plot_ok : Session -> bool) (filename : string) (file : option json)
    (s : Session) :
  let s' := fst (load_results py_float plot_ok filename file s) in
  let outcome := snd (load_results py_float plot_ok filename file s) in
  test_results s' = test_results s /\
  exists added,
    previous_results s' = previous_results s ++ added /\
    (length added <= 1)%nat /\
    (outcome = Loaded -> length added = 1%nat) /\
    (outcome = LoadCancelled -> added = []).
Proof.
  cbv zeta. unfold load_results.
  destruct (String.eqb filename ""%string);
    [cbn [fst snd]; split; [reflexivity|]; exists [];
     rewrite app_nil_r; repeat split; auto; discriminate|].
  destruct file as [data|];
    [|cbn [fst snd]; split; [reflexivity|]; exists [];
      rewrite app_nil_r; repeat split; auto; discriminate].
  destruct (convert_results py_float data) as [fixed|];
    [|cbn [fst snd]; split; [reflexivity|]; exists [];
      rewrite app_nil_r; repeat split; auto; discriminate].
  destruct (plot_ok _); cbn [fst snd test_results previous_results];
    (split; [reflexivity|]); eexists; (split; [reflexivity|]);
    cbn [length]; repeat split; auto; discriminate.
Qed.

(** ** High-frequency loss *)

Lemma high_freq_indices_from_nil (frequencies : list Q) :
  forall i,
  high_freq_indices_from i frequencies = [] <->
  Forall (fun f => f < 4000) frequencies.
Proof.
  induction frequencies as [|f rest IH]; intros i;
    cbn [high_freq_indices_from].
  - split; [constructor | reflexivity].
  - destruct (Qle_bool 4000 f) eqn:E; cbn [app].
    + apply Qle_bool_iff in E. split; [discriminate|].
      intros H. apply Forall_cons_iff in H. destruct H as [H _].
      exfalso. revert H. now apply Qle_not_lt.
    + assert (Hf : f < 4000).
      { apply Qnot_le_lt. intros H. apply Qle_bool_iff in H. congruence. }
      rewrite IH. split.
      * now constructor.
      * intros H. now apply Forall_cons_iff in H.
Qed.

(** The index-based selection of the source is the selection by
    frequency on the zipped lists. *)
Lemma take_indices_high (frequencies : list Q) :
  forall (thresholds before : list R),
  length thresholds = length frequencies ->
  take_indices (before ++ thresholds)
    (high_freq_indices_from (length before) frequencies)
  = Some (map snd
            (filter (fun ft => Qle_bool 4000 (fst ft))
               (combine frequencies thresholds))).
Proof.
  induction frequencies as [|f rest IH]; intros [|t thresholds] before Hlen;
    try discriminate; [reflexivity|].
  cbn [length] in Hlen. injection Hlen as Hlen.
  specialize (IH thresholds (before ++ [t]) Hlen).
  rewrite <- app_assoc, length_app in IH. cbn [app length] in IH.
  rewrite Nat.add_1_r in IH.
  cbn [high_freq_indices_from combine filter fst].
  destruct (Qle_bool 4000 f); cbn [app map snd]; [|exact IH].
  cbn [take_indices]. rewrite IH.
  rewrite nth_error_app2, Nat.sub_diag by lia. reflexivity.
Qed.

(** X24. [assess_high_frequency_loss], called as [analyse_hearing_profile]
    calls it (one threshold per frequency), never raises, and its
    severity is decided by the thresholds of the frequencies from 4000 Hz
    up and by nothing else: it is "unknown" exactly when there is no such
    frequency, and otherwise it is the label of the mean of exactly those
    thresholds: "normal" below 15 dB, "mild" below 25, "moderate" below
    40, "severe" from 40, so that it is "moderate" or "severe" exactly
    when that mean is 25 dB or more. *)
Theorem high_frequency_severity_law (frequencies : list Q)
    (thresholds : list R) :
  length thresholds = length frequencies ->
  let high :=
    map snd
      (filter (fun ft => Qle_bool 4000 (fst ft))
         (combine frequencies thresholds)) in
  exists severity,
    assess_high_frequency_loss frequencies thresholds = Some severity /\
    (high = [] <-> Forall (fun f => f < 4000) frequencies) /\
    (high = [] <-> severity = "unknown"%string) /\
    (forall avg, np_mean high = Some avg ->
       ((avg < 15)%R -> severity = "normal"%string) /\
       ((15 <= avg < 25)%R -> severity = "mild"%string) /\
       ((25 <= avg < 40)%R -> severity = "moderate"%string) /\
       ((40 <= avg)%R -> severity = "severe"%string)) /\
    (severity = "moderate"%string \/ severity = "severe"%string <->
     exists avg, np_mean high = Some avg /\ (25 <= avg)%R).
Proof.
  intros Hlen high.
  pose proof (take_indices_high frequencies thresholds [] Hlen) as Htake.
  cbn [app length] in Htake. fold (high_freq_indices frequencies) in Htake.
  fold high in Htake.
  pose proof (high_freq_indices_from_nil frequencies 0) as Hnil.
  fold (high_freq_indices frequencies) in Hnil.
  unfold assess_high_frequency_loss.
  destruct (high_freq_indices frequencies) as [|i rest].
  - cbn [take_indices] in Htake. injection Htake as Hhigh.
    exists "unknown"%string. rewrite <- Hhigh.
    split; [reflexivity|]. split; [rewrite <- Hnil; tauto|].
    split; [tauto|]. split; [discriminate|].
    split; [intros [H | H]; discriminate|].
    intros (avg & H & _). discriminate.
  - rewrite Htake.
    assert (Hne : high <> []).
    { intros E. rewrite E in Htake. cbn [take_indices] in Htake.
      destruct (nth_error thresholds i); [|discriminate].
      destruct (take_indices thresholds rest); discriminate. }
    destruct (np_mean high) as [avg|] eqn:Hm;
      [|destruct high; [congruence | discriminate]].
    eexists. split; [reflexivity|].
    split; [split; [congruence | rewrite <- Hnil; discriminate]|].
    split.
    { split; [congruence|].
      destruct (Rlt_dec avg 15); [discriminate|].
      destruct (Rlt_dec avg 25); [discriminate|].
      destruct (Rlt_dec avg 40); discriminate. }
    split.
    { intros avg' [= <-].
      destruct (Rlt_dec avg 15); [|destruct (Rlt_dec avg 25);
        [|destruct (Rlt_dec avg 40)]];
        repeat split; intros; try reflexivity; exfalso; rlra. }
    split.
    + intros Hsev. exists avg. split; [reflexivity|].
      destruct (Rlt_dec avg 15);
        [destruct Hsev; discriminate|].
      destruct (Rlt_dec avg 25); [destruct Hsev; discriminate | rlra].
    + intros (avg' & [= <-] & Havg).
      destruct (Rlt_dec avg 15); [rlra|].
      destruct (Rlt_dec avg 25); [rlra|].
      destruct (Rlt_dec avg 40); [now left | now right].
Qed.

(** A loss of 50 dB at 1000 Hz and a threshold of 10 dB at 4000 Hz: only
    the latter counts, and the severity is "normal". *)
Lemma high_frequency_severity_law_witness :
  assess_high_frequency_loss [1000; 4000] [50%R; 10%R]
  = Some "normal"%string.
Proof.
  destruct (high_frequency_severity_law [1000; 4000] [50%R; 10%R]
              eq_refl) as (severity & Hassess & _ & _ & Hlabel & _).
  rewrite Hassess. f_equal.
  apply (Hlabel ((10 + 0) / INR 1)%R); [reflexivity|].
  simpl. rlra.
Defined.
